(** * Monte-Carlo search for a power-law scaling regime ([montecarlo.py])

    A shallow embedding of [expfun], [find_p_wrap], [find_true_p],
    [find_p_core] and [find_pl_montecarlo], and the properties of them that
    the specification states.

    Modelling conventions.
    - A [float64] is an element of [R]: arithmetic is exact and there is no
      NaN and no infinity.  Comparisons are the boolean tests [Rltb], [Rgtb],
      [Rleb], [Rgeb].  In particular [exp] is never 0 here, where
      [np.exp] underflows to [0.0] below about -745 ([expfun(x)] is exactly
      [0.0] from about [x = 19.3] on): what is stated of the code about
      [expfun] is stated without strictness, and holds there too.
      [np.log] of a datum that is not positive ([-inf] or [nan]) is outside
      the model.
    - A numpy array is a [list R]; an index is a [nat], a difference of
      indices a [Z].  Reading out of range raises [IndexError].
    - The functions imported from [.distances], [.brent] and [.likelihoods]
      are not part of this file's source: they are variables of the section
      [Montecarlo], pure functions of the array values they are given.
    - [np.random.rand()] reads a tape [U : nat -> R] at a cursor and advances
      it; [pl_gen] threads a generator state of its own.
    - The caller's array lives in a heap of arrays; [np.sort] allocates.
    - A [while] loop takes fuel; running out of it is the result [Diverge]. *)

From Stdlib Require Import String.
From Stdlib Require Import Reals Lra Lia ZArith List Bool Arith.
From Stdlib Require Import Sorted Permutation.
Import ListNotations.

Local Open Scope R_scope.

(** ** Comparisons of floats *)

Definition Rltb (x y : R) : bool := if Rlt_dec x y then true else false.
Definition Rleb (x y : R) : bool := if Rle_dec x y then true else false.
Definition Rgtb (x y : R) : bool := Rltb y x.
Definition Rgeb (x y : R) : bool := Rleb y x.

(** ** [expfun] (lines 15-21) *)

(** The summand [(-1)**(i-1)*np.exp(-2* i**2 * x**2)]. *)
Definition expfun_term (x : R) (i : nat) : R :=
  (-1) ^ (i - 1) * exp (-2 * INR i ^ 2 * x ^ 2).

(** [val = 0; for i in range(1,numterms+1): val = val + ...; return 2*val]. *)
Definition expfun (x : R) (numterms : nat) : R :=
  2 * fold_left (fun val i => val + expfun_term x i) (seq 1 numterms) 0.

(** The call [expfun(x)] with the default [numterms = 10]. *)
Definition expfun10 (x : R) : R := expfun x 10.

(** The sum of [expfun10] in the variable [u = exp (-2 x^2)]: the cell
    [exp (-2 i^2 x^2)] is [u ^ (i^2)]. *)
Definition kolm (u : R) : R :=
  2 * (u ^ 1 - u ^ 4 + u ^ 9 - u ^ 16 + u ^ 25 - u ^ 36 + u ^ 49 - u ^ 64
       + u ^ 81 - u ^ 100).

(** The sum [f 1 + ... + f m] of the specification. *)
Fixpoint sum_1_to (f : nat -> R) (m : nat) : R :=
  match m with
  | O => 0
  | S k => sum_1_to f k + f (S k)
  end.


(** ** Results of Python code *)

Inductive exn : Type := IndexError | ValueError | ZeroDivisionError | TypeError.

(** A computation returns, raises, or (a [while] loop out of fuel) runs on. *)
Inductive result (A : Type) : Type :=
| Ret (a : A)
| Raise (e : exn)
| Diverge.

Arguments Ret {A} a.
Arguments Raise {A} e.
Arguments Diverge {A}.

Definition bind {A B : Type} (c : result A) (k : A -> result B) : result B :=
  match c with
  | Ret a => k a
  | Raise e => Raise e
  | Diverge => Diverge
  end.

Notation "x <- c ;; k" := (bind c (fun x => k))
  (at level 61, c at next level, right associativity).

(** What the two entry points hand back: the list [[0,0,1]], a tuple of
    floats, or the integer [-1]. *)
Inductive value : Type :=
| VList (l : list R)
| VTuple (l : list R)
| VInt (z : Z).

(** ** numpy arrays *)

(** [a[i]] for a scalar index. *)
Definition get (a : list R) (i : nat) : result R :=
  match nth_error a i with
  | Some v => Ret v
  | None => Raise IndexError
  end.

(** [a[i] = v]. *)
Fixpoint set_item (a : list R) (i : nat) (v : R) : result (list R) :=
  match a, i with
  | [], _ => Raise IndexError
  | _ :: a', O => Ret (v :: a')
  | w :: a', S i' => r <- set_item a' i' v ;; Ret (w :: r)
  end.

(** [a[start:stop]] for non-negative bounds. *)
Definition slice (a : list R) (start stop : nat) : list R :=
  firstn (stop - start) (skipn start a).

(** [np.sort]: a new array with the same values in ascending order. *)
Fixpoint insert_sorted (v : R) (l : list R) : list R :=
  match l with
  | [] => [v]
  | w :: l' => if Rleb v w then v :: l else w :: insert_sorted v l'
  end.

Definition np_sort (a : list R) : list R := fold_right insert_sorted [] a.

(** [np.where(mask)[0]]: the positions of the true cells, ascending. *)
Fixpoint where_from (k : nat) (mask : list bool) : list nat :=
  match mask with
  | [] => []
  | m :: mask' =>
      if m then k :: where_from (S k) mask' else where_from (S k) mask'
  end.

(** [np.where(a > c)[0]]. *)
Definition np_where_gt (a : list R) (c : R) : list nat :=
  where_from 0 (map (fun v => Rgtb v c) a).

(** [a[idxs]] for an array of indices. *)
Fixpoint take_idx (a : list R) (idxs : list nat) : result (list R) :=
  match idxs with
  | [] => Ret []
  | i :: idxs' => v <- get a i ;; vs <- take_idx a idxs' ;; Ret (v :: vs)
  end.

(** numpy's scan for [argmax]: the running maximum [mp] found at [best] is
    replaced by the cell [v] at [i] when [not (v <= mp)]. *)
Fixpoint argmax_scan (mp : R) (best i : nat) (l : list R) : nat :=
  match l with
  | [] => best
  | v :: l' =>
      if negb (Rleb v mp) then argmax_scan v i (S i) l'
      else argmax_scan mp best (S i) l'
  end.

(** [np.argmax(a)]; an empty array raises [ValueError]. *)
Definition np_argmax (a : list R) : result nat :=
  match a with
  | [] => Raise ValueError
  | v :: l => Ret (argmax_scan v 0 1 l)
  end.

(** [k] is the first position of the largest cell of [a]. *)
Definition first_max (a : list R) (k : nat) : Prop :=
  exists m,
    nth_error a k = Some m /\
    (forall j v, nth_error a j = Some v -> v <= m) /\
    (forall j v, (j < k)%nat -> nth_error a j = Some v -> v < m).

(** [a / b] cell by cell, for two arrays of one length. *)
Fixpoint div_cells (a b : list R) : list R :=
  match a, b with
  | x :: a', y :: b' => x / y :: div_cells a' b'
  | _, _ => []
  end.

Definition np_divide (a b : list R) : result (list R) :=
  if (length a =? length b)%nat then Ret (div_cells a b) else Raise ValueError.

(** [np.any(a < c)]. *)
Definition np_any_lt (a : list R) (c : R) : bool :=
  existsb (fun v => Rltb v c) a.

(** [for i in range(n)]: the body threads a state and may raise. *)
Fixpoint for_loop {S : Type} (body : nat -> S -> result S)
  (range : list nat) (st : S) : result S :=
  match range with
  | [] => Ret st
  | i :: range' => st' <- body i st ;; for_loop body range' st'
  end.

(** ** The heap of arrays the caller can see *)

Definition loc : Type := nat.
Definition heap : Type := list (list R).

Definition heap_get (h : heap) (x : loc) : result (list R) :=
  match nth_error h x with
  | Some a => Ret a
  | None => Raise TypeError
  end.

(** [np.sort(x)] on the heap: the sorted values go to a new array, the array
    at [x] is only read. *)
Definition np_sort_new (h : heap) (x : loc) : result (loc * heap) :=
  a <- heap_get h x ;; Ret (length h, h ++ [np_sort a]).

(** ** Approximate p-value (lines 217-231) *)

(** [tmpd] after lines 217-220. *)
Definition trial_tmpd (dfun : list R -> R -> R) (trimmed : list R)
  (alpha_hat : R) : R :=
  let tmpd := 1 in
  if Rgtb alpha_hat 1 then dfun trimmed alpha_hat else tmpd.

(** Lines 230-231: the value stored in [attempted_pqs[i]]. *)
Definition approx_pq (tmpd : R) (n : nat) : R :=
  let tmpd := tmpd * sqrt (INR n) in
  expfun10 (tmpd + 0.17 / sqrt (INR n) + (tmpd - 1) / (4 * INR n)).

(** ** The trial arrays (lines 185-190) *)

Record batch : Type := {
  attempted_xmins : list R;
  attempted_xmaxs : list R;
  attempted_alphas : list R;
  attempted_ns : list R;
  attempted_pqs : list R;
  attempted_ds : list R
}.

Definition np_ones (n : nat) : list R := repeat 1 n.

Definition init_batch (runs : nat) : batch :=
  {| attempted_xmins := np_ones runs;
     attempted_xmaxs := np_ones runs;
     attempted_alphas := np_ones runs;
     attempted_ns := np_ones runs;
     attempted_pqs := np_ones runs;
     attempted_ds := map (fun v => 1e12 * v) (np_ones runs) |}.

(** One draw of the trial generator, snapped to the data. *)
Record draw : Type := {
  trial_xmin_idx : nat;
  trial_xmax_idx : nat;
  trial_xmin : R;
  trial_xmax : R
}.

(** The test of the [while] (line 208). *)
Definition rejected (t : draw) : bool :=
  (Z.of_nat (trial_xmax_idx t) - Z.of_nat (trial_xmin_idx t) <? 10)%Z
  || Rltb (trial_xmax t) (2 * trial_xmin t).

(** What [dist_type] selects (lines 153-176). *)
Record config : Type := {
  distfun : list R -> R -> R;
  dfun : list R -> R -> R;
  brent : list R -> R;
  nearest_first : list R -> R -> nat;
  nearest_last : list R -> R -> nat
}.

(** What a call leaves behind, with what it hands back. *)
Record outcome : Type := {
  out_value : result value;
  out_heap : heap;
  out_printed : list string
}.

Definition defaults : value := VList [0; 0; 1].

Definition msg_discrete : string :=
  "Error. Please ensure data is discretized in terms of step size before using discrete option. Returning.".

Definition msg_dist_type : string :=
  "Error. Please input a valid distance type (either KS, AD, or discrete)".

Definition msg_wrap : string := "error. Discrete not implemented yet.".

Section Montecarlo.

Set Default Proof Using "Type".

(** *** The collaborators imported at lines 8-10 *)
Variable find_nearest_idx : list R -> R -> nat.
Variable find_nearest_idx_discrete : list R -> R -> Z -> nat.
Variables find_d_sorted find_ad_sorted find_d_sorted_discrete :
  list R -> R -> R.
Variables brent_findmin brent_findmin_discrete : list R -> R.

(** [pl_gen(n,xmin,xmax,alpha)] draws from a generator state of type [G]. *)
Variable G : Type.
Variable pl_gen : nat -> R -> R -> R -> G -> list R * G.

(** The tape [np.random.rand()] reads. *)
Variable U : nat -> R.

(** *** [find_true_p] (lines 46-69) *)

(** The loop of lines 58-63, [runs] iterations from the counter [tot]. *)
Fixpoint synth_loop (runs n : nat) (xmin xmax alpha de : R)
  (dfn : list R -> R -> R) (tot : nat) (g : G) : nat * G :=
  match runs with
  | O => (tot, g)
  | S runs' =>
      let (sample, g') := pl_gen n xmin xmax alpha g in
      let synth := np_sort sample in
      let asynth := brent_findmin synth in
      let ds := dfn synth asynth in
      let tot := if Rgeb ds de then (tot + 1)%nat else tot in
      synth_loop runs' n xmin xmax alpha de dfn tot g'
  end.

Definition find_true_p (x : list R) (xmin xmax : R) (runs : nat)
  (dfn : list R -> R -> R) (g : G) : result (R * R * G) :=
  let xmin_idx := find_nearest_idx x xmin in
  let xmax_idx := find_nearest_idx x xmax in
  let x := slice x xmin_idx (xmax_idx + 1) in
  let n := length x in
  let alpha := brent_findmin x in
  let de := dfn x alpha in
  let (tot, g') := synth_loop runs n xmin xmax alpha de dfn 0 g in
  if (runs =? 0)%nat then Raise ZeroDivisionError
  else
    let p := INR tot / INR runs in
    let sigp := sqrt (p * (1 - p) / INR runs) in
    Ret (p, sigp, g').

(** *** [find_p_wrap] (lines 27-43) *)
Definition find_p_wrap (h : heap) (g : G) (x : loc) (xmin xmax : R)
  (runs : nat) (discrete : bool) : outcome :=
  if negb discrete then
    match np_sort_new h x with
    | Ret (sorted, h') =>
        {| out_value :=
             a <- heap_get h' sorted ;;
             r <- find_true_p a xmin xmax runs find_d_sorted g ;;
             Ret (VTuple [fst (fst r); snd (fst r)]);
           out_heap := h';
           out_printed := [] |}
    | Raise e => {| out_value := Raise e; out_heap := h; out_printed := [] |}
    | Diverge => {| out_value := Diverge; out_heap := h; out_printed := [] |}
    end
  else
    {| out_value := Ret (VInt (-1)); out_heap := h;
       out_printed := [msg_wrap] |}.

(** *** [find_p_core] (lines 72-83)

    Iteration [i] of the [prange] writes cell [i] of [possible_ps] and no
    other; the generator state it starts from is [gens i].  An exception
    raised inside an iteration is propagated as in a sequential loop; what
    the compiled parallel loop does with it (for [pruns = 0], the division of
    line 66) is outside the model, and what is proved of [find_p_core]
    takes [pruns >= 1] or a call that returned. *)
Definition find_p_core_body (data possible_xmins possible_xmaxs : list R)
  (pruns : nat) (dfn : list R -> R -> R) (gens : nat -> G) (i : nat)
  (possible_ps : list R) : result (list R) :=
  xmin <- get possible_xmins i ;;
  xmax <- get possible_xmaxs i ;;
  let xmin_idx := find_nearest_idx data xmin in
  let xmax_idx := find_nearest_idx data xmax in
  let trimmed := slice data xmin_idx (xmax_idx + 1) in
  r <- find_true_p trimmed xmin xmax pruns dfn (gens i) ;;
  set_item possible_ps i (fst (fst r)).

Definition find_p_core (data possible_xmins possible_xmaxs : list R)
  (pruns : nat) (dfn : list R -> R -> R) (gens : nat -> G) :
  result (list R) :=
  let possible_ps := repeat 0 (length possible_xmins) in
  for_loop
    (find_p_core_body data possible_xmins possible_xmaxs pruns dfn gens)
    (seq 0 (length possible_ps)) possible_ps.

(** *** [find_pl_montecarlo] (lines 87-295) *)

(** Lines 153-182 without the data check: [None] for a [dist_type] that is
    none of the three. *)
Definition configure (dist_type : string) : option config :=
  if String.eqb dist_type "KS" then
    Some {| distfun := find_d_sorted; dfun := find_d_sorted;
            brent := brent_findmin;
            nearest_first := find_nearest_idx;
            nearest_last := find_nearest_idx |}
  else if String.eqb dist_type "AD" then
    Some {| distfun := find_ad_sorted; dfun := find_d_sorted;
            brent := brent_findmin;
            nearest_first := find_nearest_idx;
            nearest_last := find_nearest_idx |}
  else if String.eqb dist_type "discrete" then
    Some {| distfun := find_d_sorted_discrete;
            dfun := find_d_sorted_discrete;
            brent := brent_findmin_discrete;
            nearest_first :=
              fun x val => find_nearest_idx_discrete x val 1;
            nearest_last :=
              fun x val => find_nearest_idx_discrete x val 0 |}
  else None.

Section Sweep.

Variable cfg : config.
Variable data : list R.
Variables log_xmin log_range : R.

(** Lines 199-204 (and 209-214): two reads of the tape at cursor [s]. *)
Definition draw_trial (s : nat) : result (draw * nat) :=
  let trial_xmin := exp (log_xmin + log_range * U s) in
  let trial_xmax := exp (log_xmin + log_range * U (S s)) in
  let trial_xmin_idx := nearest_first cfg data trial_xmin in
  let trial_xmax_idx := nearest_last cfg data trial_xmax in
  trial_xmin <- get data trial_xmin_idx ;;
  trial_xmax <- get data trial_xmax_idx ;;
  Ret ({| trial_xmin_idx := trial_xmin_idx;
          trial_xmax_idx := trial_xmax_idx;
          trial_xmin := trial_xmin;
          trial_xmax := trial_xmax |}, S (S s)).

(** The [while] of lines 208-214; [fuel] bounds the redraws. *)
Fixpoint redraw (fuel : nat) (t : draw) (s : nat) {struct fuel} :
  result (draw * nat) :=
  if rejected t then
    match fuel with
    | O => Diverge
    | S fuel' => r <- draw_trial s ;; redraw fuel' (fst r) (snd r)
    end
  else Ret (t, s).

(** Lines 199-214: the first draw, then the rejection loop. *)
Definition generate_trial (fuel s : nat) : result (draw * nat) :=
  r <- draw_trial s ;; redraw fuel (fst r) (snd r).

(** The data between the snapped bounds (line 215). *)
Definition trimmed_of (t : draw) : list R :=
  slice data (trial_xmin_idx t) (trial_xmax_idx t + 1).

(** Lines 215-235: fit the accepted draw and record it in cell [i]. *)
Definition record_trial (i : nat) (t : draw) (b : batch) : result batch :=
  let trimmed := trimmed_of t in
  let alpha_hat := brent cfg trimmed in
  ds <- (if Rgtb alpha_hat 1
         then set_item (attempted_ds b) i (distfun cfg trimmed alpha_hat)
         else Ret (attempted_ds b)) ;;
  let tmpd := trial_tmpd (dfun cfg) trimmed alpha_hat in
  let n := length trimmed in
  pqs <- set_item (attempted_pqs b) i (approx_pq tmpd n) ;;
  ns <- set_item (attempted_ns b) i (INR n) ;;
  alphas <- set_item (attempted_alphas b) i alpha_hat ;;
  xmins <- set_item (attempted_xmins b) i (trial_xmin t) ;;
  xmaxs <- set_item (attempted_xmaxs b) i (trial_xmax t) ;;
  Ret {| attempted_xmins := xmins; attempted_xmaxs := xmaxs;
         attempted_alphas := alphas; attempted_ns := ns;
         attempted_pqs := pqs; attempted_ds := ds |}.

(** The body of the [for] of line 198. *)
Definition trial_body (fuel i : nat) (st : batch * nat) :
  result (batch * nat) :=
  r <- generate_trial fuel (snd st) ;;
  b <- record_trial i (fst r) (fst st) ;;
  Ret (b, snd r).

(** Lines 185-235. *)
Definition trial_sweep (fuel runs s : nat) : result (batch * nat) :=
  for_loop (trial_body fuel) (seq 0 runs) (init_batch runs, s).

End Sweep.

(** Lines 259-263: the p-values of the candidates that passed [pqcrit]. *)
Definition refine_ps (cfg : config) (data : list R)
  (possible_xmins possible_xmaxs possible_pqs : list R) (pruns : nat)
  (calc_p : bool) (gens : nat -> G) : result (list R) :=
  let possible_ps := repeat 0 (length possible_pqs) in
  if calc_p
  then find_p_core data possible_xmins possible_xmaxs pruns (dfun cfg) gens
  else Ret possible_pqs.

(** Lines 238-295: the two filters and the choice. *)
Definition select (cfg : config) (data : list R) (b : batch)
  (pqcrit pcrit : R) (pruns : nat) (calc_p : bool) (gens : nat -> G) :
  result value :=
  let idxs := np_where_gt (attempted_pqs b) pqcrit in
  if (length idxs =? 0)%nat then
    minidx <- np_argmax (attempted_pqs b) ;;
    xmin <- get (attempted_xmins b) minidx ;;
    xmax <- get (attempted_xmaxs b) minidx ;;
    alpha <- get (attempted_alphas b) minidx ;;
    pq <- get (attempted_pqs b) minidx ;;
    p <- get (attempted_pqs b) minidx ;;
    Ret (VTuple [xmin; xmax; alpha])
  else
    possible_xmins <- take_idx (attempted_xmins b) idxs ;;
    possible_xmaxs <- take_idx (attempted_xmaxs b) idxs ;;
    possible_alphas <- take_idx (attempted_alphas b) idxs ;;
    possible_pqs <- take_idx (attempted_pqs b) idxs ;;
    possible_ps <-
      refine_ps cfg data possible_xmins possible_xmaxs possible_pqs pruns
        calc_p gens ;;
    let idxs2 := np_where_gt possible_ps pcrit in
    if (length idxs2 =? 0)%nat then
      minidx <- np_argmax possible_ps ;;
      xmin <- get possible_xmins minidx ;;
      xmax <- get possible_xmaxs minidx ;;
      alpha <- get possible_alphas minidx ;;
      pq <- get possible_pqs minidx ;;
      p <- get possible_ps minidx ;;
      Ret (VTuple [xmin; xmax; alpha])
    else
      possible_xmins2 <- take_idx possible_xmins idxs2 ;;
      possible_xmaxs2 <- take_idx possible_xmaxs idxs2 ;;
      possible_alphas2 <- take_idx possible_alphas idxs2 ;;
      possible_pqs2 <- take_idx possible_pqs idxs2 ;;
      possible_ps2 <- take_idx possible_ps idxs2 ;;
      ratios <- np_divide possible_xmaxs2 possible_xmins2 ;;
      minidx <- np_argmax ratios ;;
      xmin <- get possible_xmins2 minidx ;;
      xmax <- get possible_xmaxs2 minidx ;;
      alpha <- get possible_alphas2 minidx ;;
      pq <- get possible_pqs2 minidx ;;
      p <- get possible_ps2 minidx ;;
      Ret (VTuple [xmin; xmax; alpha]).

(** Lines 185-235, on the sorted data: the arrays, the logarithms of the
    smallest and the largest datum, the loop. *)
Definition sweep (cfg : config) (data : list R) (fuel runs s : nat) :
  result (batch * nat) :=
  data0 <- get data 0 ;;
  let log_xmin := ln data0 in
  let log_xmax := ln (last data 0) in
  let log_range := log_xmax - log_xmin in
  trial_sweep cfg data log_xmin log_range fuel runs s.

(** Lines 185-295, on the sorted data and with [dist_type] resolved. *)
Definition search (cfg : config) (data : list R) (fuel s : nat)
  (gens : nat -> G) (runs : nat) (pqcrit pcrit : R) (pruns : nat)
  (calc_p : bool) : result value :=
  r <- sweep cfg data fuel runs s ;;
  select cfg data (fst r) pqcrit pcrit pruns calc_p gens.

(** Lines 87-295: the call on the array at [data] in the heap [h], with the
    tape at cursor [s]; [fuel] bounds the redraws of each trial. *)
Definition find_pl_montecarlo (fuel : nat) (h : heap) (s : nat)
  (gens : nat -> G) (data : loc) (runs : nat) (pqcrit pcrit : R)
  (pruns : nat) (dist_type : string) (calc_p : bool) : outcome :=
  match np_sort_new h data with
  | Ret (sorted, h') =>
      let pcrit := if negb calc_p then pqcrit else pcrit in
      match configure dist_type with
      | Some cfg =>
          match heap_get h' sorted with
          | Ret a =>
              if String.eqb dist_type "discrete" && np_any_lt a 1 then
                {| out_value := Ret defaults; out_heap := h';
                   out_printed := [msg_discrete] |}
              else
                {| out_value :=
                     search cfg a fuel s gens runs pqcrit pcrit pruns
                       calc_p;
                   out_heap := h';
                   out_printed := [] |}
          | Raise e =>
              {| out_value := Raise e; out_heap := h'; out_printed := [] |}
          | Diverge =>
              {| out_value := Diverge; out_heap := h'; out_printed := [] |}
          end
      | None =>
          {| out_value := Ret defaults; out_heap := h';
             out_printed := [msg_dist_type] |}
      end
  | Raise e => {| out_value := Raise e; out_heap := h; out_printed := [] |}
  | Diverge => {| out_value := Diverge; out_heap := h; out_printed := [] |}
  end.


(** *** The count of [find_true_p], as the specification words it *)

(** The generator state before iteration [k] of the loop of lines 58-63. *)
Fixpoint gen_before (n : nat) (xmin xmax alpha : R) (g : G) (k : nat) : G :=
  match k with
  | O => g
  | S k' => snd (pl_gen n xmin xmax alpha (gen_before n xmin xmax alpha g k'))
  end.

(** The distance [ds] of the synthetic sample of iteration [k]. *)
Definition synth_ds (n : nat) (xmin xmax alpha : R) (dfn : list R -> R -> R)
  (g : G) (k : nat) : R :=
  let synth :=
    np_sort (fst (pl_gen n xmin xmax alpha (gen_before n xmin xmax alpha g k)))
  in
  dfn synth (brent_findmin synth).

(** The number of the [runs] iterations with [ds >= de]. *)
Definition worse_count (n : nat) (xmin xmax alpha de : R)
  (dfn : list R -> R -> R) (g : G) (runs : nat) : nat :=
  length
    (filter (fun k => Rgeb (synth_ds n xmin xmax alpha dfn g k) de)
       (seq 0 runs)).

(** *** The estimate of [find_true_p] in closed form *)

(** [count/runs] for the count of the loop of lines 58-63 on the data
    between the nearest indices. *)
Definition true_p_of (x : list R) (xmin xmax : R) (runs : nat)
  (dfn : list R -> R -> R) (g : G) : R :=
  let xs := slice x (find_nearest_idx x xmin) (find_nearest_idx x xmax + 1) in
  let alpha := brent_findmin xs in
  INR (worse_count (length xs) xmin xmax alpha (dfn xs alpha) dfn g runs)
  / INR runs.

(** The p-value [find_p_core] computes for candidate [i]. *)
Definition candidate_p (data possible_xmins possible_xmaxs : list R)
  (pruns : nat) (dfn : list R -> R -> R) (gens : nat -> G) (i : nat) : R :=
  let xmin := nth i possible_xmins 0 in
  let xmax := nth i possible_xmaxs 0 in
  let trimmed :=
    slice data (find_nearest_idx data xmin) (find_nearest_idx data xmax + 1)
  in
  true_p_of trimmed xmin xmax pruns dfn (gens i).

(** *** The stages of [find_pl_montecarlo], named *)

(** The array [possible_ps] of line 263, from the batch. *)
Definition true_ps (cfg : config) (data : list R) (b : batch) (pqcrit : R)
  (pruns : nat) (calc_p : bool) (gens : nat -> G) : result (list R) :=
  let idxs := np_where_gt (attempted_pqs b) pqcrit in
  possible_xmins <- take_idx (attempted_xmins b) idxs ;;
  possible_xmaxs <- take_idx (attempted_xmaxs b) idxs ;;
  possible_pqs <- take_idx (attempted_pqs b) idxs ;;
  refine_ps cfg data possible_xmins possible_xmaxs possible_pqs pruns calc_p
    gens.

(** The call reads the array [raw] at [x], accepts [dist_type] and the data,
    and its sweep of the sorted data ends with the batch [b]. *)
Definition sweeps_to (fuel : nat) (h : heap) (s : nat) (x : loc)
  (runs : nat) (dist_type : string) (cfg : config) (data : list R)
  (b : batch) : Prop :=
  exists raw s',
    heap_get h x = Ret raw /\ data = np_sort raw /\
    configure dist_type = Some cfg /\
    String.eqb dist_type "discrete" && np_any_lt data 1 = false /\
    sweep cfg data fuel runs s = Ret (b, s').

(** The threshold of the second filter (lines 160-161). *)
Definition final_pcrit (pqcrit pcrit : R) (calc_p : bool) : R :=
  if negb calc_p then pqcrit else pcrit.

(** Trial [i] passed both filters: it is the [j]-th trial with
    [attempted_pqs > pqcrit], and cell [j] of [ps] exceeds [pcrit]. *)
Definition survivor (b : batch) (pqcrit : R) (ps : list R) (pcrit : R)
  (i : nat) : Prop :=
  exists j p,
    nth_error (np_where_gt (attempted_pqs b) pqcrit) j = Some i /\
    nth_error ps j = Some p /\ p > pcrit.

(** [xmax/xmin] of trial [i]. *)
Definition ratio (b : batch) (i : nat) : R :=
  nth i (attempted_xmaxs b) 0 / nth i (attempted_xmins b) 0.

(** The tuple returned for trial [i]. *)
Definition answer (b : batch) (i : nat) : value :=
  VTuple [nth i (attempted_xmins b) 0; nth i (attempted_xmaxs b) 0;
          nth i (attempted_alphas b) 0].

(** *** What the sweep leaves in the arrays *)

(** Every array of the batch has [n] cells. *)
Definition batch_len (b : batch) (n : nat) : Prop :=
  length (attempted_xmins b) = n /\ length (attempted_xmaxs b) = n /\
  length (attempted_alphas b) = n /\ length (attempted_ns b) = n /\
  length (attempted_pqs b) = n /\ length (attempted_ds b) = n.

(** Cell [i] of the six arrays. *)
Definition cell (b : batch) (i : nat) :
  option R * option R * option R * option R * option R * option R :=
  (nth_error (attempted_xmins b) i, nth_error (attempted_xmaxs b) i,
   nth_error (attempted_alphas b) i, nth_error (attempted_ns b) i,
   nth_error (attempted_pqs b) i, nth_error (attempted_ds b) i).

(** The bounds of a draw are the data at its indices. *)
Definition snapped (data : list R) (t : draw) : Prop :=
  nth_error data (trial_xmin_idx t) = Some (trial_xmin t) /\
  nth_error data (trial_xmax_idx t) = Some (trial_xmax t).

(** The cell that lines 215-235 write for the accepted draw [t]. *)
Definition recorded (cfg : config) (data : list R) (t : draw) :
  option R * option R * option R * option R * option R * option R :=
  let trimmed := trimmed_of data t in
  let alpha_hat := brent cfg trimmed in
  (Some (trial_xmin t), Some (trial_xmax t), Some alpha_hat,
   Some (INR (length trimmed)),
   Some (approx_pq (trial_tmpd (dfun cfg) trimmed alpha_hat)
           (length trimmed)),
   Some (if Rgtb alpha_hat 1 then distfun cfg trimmed alpha_hat
         else 1e12 * 1)).

(** *** Batches up to the recorded distances *)

(** [f] applied to what a computation returns. *)
Definition result_map {A B : Type} (f : A -> B) (r : result A) : result B :=
  match r with
  | Ret a => Ret (f a)
  | Raise e => Raise e
  | Diverge => Diverge
  end.

(** The batch with the values of [attempted_ds] blanked. *)
Definition forget_ds (b : batch) : batch :=
  {| attempted_xmins := attempted_xmins b;
     attempted_xmaxs := attempted_xmaxs b;
     attempted_alphas := attempted_alphas b;
     attempted_ns := attempted_ns b;
     attempted_pqs := attempted_pqs b;
     attempted_ds := map (fun _ => 0) (attempted_ds b) |}.

(** The configuration with another function for the recorded distance. *)
Definition with_distfun (cfg : config) (f : list R -> R -> R) : config :=
  {| distfun := f; dfun := dfun cfg; brent := brent cfg;
     nearest_first := nearest_first cfg; nearest_last := nearest_last cfg |}.

(** *** Indices *)

(** The collaborators return indices of the data. *)
Definition snaps_in_range (cfg : config) (data : list R) : Prop :=
  forall v,
    (nearest_first cfg data v < length data)%nat /\
    (nearest_last cfg data v < length data)%nat.

(** A list of indices in which a later position holds a larger index. *)
Definition ascending (l : list nat) : Prop :=
  forall j1 j2 i1 i2,
    (j1 < j2)%nat -> nth_error l j1 = Some i1 -> nth_error l j2 = Some i2 ->
    (i1 < i2)%nat.

(** *** A small run: eleven data, one trial, collaborators that ignore
    their arguments *)

Definition toy_nearest : list R -> R -> nat := fun _ _ => 0%nat.

Definition toy_nearest_discrete : list R -> R -> Z -> nat :=
  fun _ _ flag => if (flag =? 1)%Z then 0%nat else 10%nat.

Definition toy_distance : list R -> R -> R := fun _ _ => 1.

Definition toy_brent : list R -> R := fun _ => 2.

Definition toy_pl_gen : nat -> R -> R -> R -> unit -> list R * unit :=
  fun _ _ _ _ g => ([], g).

Definition toy_tape : nat -> R := fun _ => 0.

Definition eleven : list R := [1; 1; 1; 1; 1; 1; 1; 1; 1; 1; 2].

Definition toy_cfg : config :=
  {| distfun := toy_distance; dfun := toy_distance; brent := toy_brent;
     nearest_first := fun x val => toy_nearest_discrete x val 1;
     nearest_last := fun x val => toy_nearest_discrete x val 0 |}.

Definition toy_draw : draw :=
  {| trial_xmin_idx := 0; trial_xmax_idx := 10; trial_xmin := 1;
     trial_xmax := 2 |}.

Definition toy_batch : batch :=
  {| attempted_xmins := [1]; attempted_xmaxs := [2];
     attempted_alphas := [2]; attempted_ns := [INR 11];
     attempted_pqs := [approx_pq 1 11]; attempted_ds := [1] |}.

Definition toy_gens : nat -> unit := fun _ => tt.



(** *** A run with [dist_type = 'AD']: a lookup that sends the values below
    3/2 to the first index and the others to the last, a KS distance of 1/4
    and an AD distance of 1/2; the tape reads 0, then 1 *)

Definition split_nearest : list R -> R -> nat :=
  fun _ val => if Rltb val (3 / 2) then 0%nat else 10%nat.

Definition ks_quarter : list R -> R -> R := fun _ _ => 1 / 4.

Definition ad_half : list R -> R -> R := fun _ _ => 1 / 2.

Definition ad_tape : nat -> R :=
  fun s => match s with O => 0 | S _ => 1 end.

Definition ad_cfg : config :=
  {| distfun := ad_half; dfun := ks_quarter; brent := toy_brent;
     nearest_first := split_nearest; nearest_last := split_nearest |}.

Definition ad_batch : batch :=
  {| attempted_xmins := [1]; attempted_xmaxs := [2];
     attempted_alphas := [2]; attempted_ns := [INR 11];
     attempted_pqs := [approx_pq (1 / 4) 11]; attempted_ds := [1 / 2] |}.

(** * Properties *)

(** ** Comparisons *)

Lemma Rltb_true x y : Rltb x y = true <-> x < y.
Proof. unfold Rltb; destruct (Rlt_dec x y); split; intros; try easy. Qed.

Lemma Rltb_false x y : Rltb x y = false <-> y <= x.
Proof.
  unfold Rltb; destruct (Rlt_dec x y); split; intros; try easy; lra.
Qed.

Lemma Rleb_true x y : Rleb x y = true <-> x <= y.
Proof. unfold Rleb; destruct (Rle_dec x y); split; intros; try easy. Qed.

Lemma Rleb_false x y : Rleb x y = false <-> y < x.
Proof.
  unfold Rleb; destruct (Rle_dec x y); split; intros; try easy; lra.
Qed.

Lemma Rgtb_true x y : Rgtb x y = true <-> x > y.
Proof. unfold Rgtb; rewrite Rltb_true; lra. Qed.

Lemma Rgtb_false x y : Rgtb x y = false <-> x <= y.
Proof. unfold Rgtb; rewrite Rltb_false; lra. Qed.

Lemma Rgeb_true x y : Rgeb x y = true <-> x >= y.
Proof. unfold Rgeb; rewrite Rleb_true; lra. Qed.

Lemma Rgeb_false x y : Rgeb x y = false <-> x < y.
Proof. unfold Rgeb; rewrite Rleb_false; lra. Qed.


(** ** [expfun] as a polynomial in [exp (-2 x^2)] *)

Lemma exp_mult_nat (n : nat) (y : R) : exp (INR n * y) = exp y ^ n.
Proof.
  induction n as [|n IH].
  - simpl. rewrite Rmult_0_l. apply exp_0.
  - rewrite S_INR, Rmult_plus_distr_r, Rmult_1_l, exp_plus, IH.
    simpl. ring.
Qed.

Lemma expfun_term_pow (x : R) (i : nat) :
  expfun_term x i = (-1) ^ (i - 1) * exp (-2 * x ^ 2) ^ (i * i).
Proof.
  unfold expfun_term. f_equal.
  rewrite <- exp_mult_nat. f_equal.
  rewrite mult_INR. ring.
Qed.

Lemma expfun10_kolm (x : R) : expfun10 x = kolm (exp (-2 * x ^ 2)).
Proof.
  unfold expfun10, expfun. cbn [seq fold_left].
  rewrite !expfun_term_pow. unfold kolm.
  cbn [Nat.sub Nat.mul Nat.add]. 
  set (u := exp (-2 * x ^ 2)).
  change ((-1) ^ 0) with 1.
  replace ((-1) ^ 1) with (-1) by ring.
  replace ((-1) ^ 2) with 1 by ring.
  replace ((-1) ^ 3) with (-1) by ring.
  replace ((-1) ^ 4) with 1 by ring.
  replace ((-1) ^ 5) with (-1) by ring.
  replace ((-1) ^ 6) with 1 by ring.
  replace ((-1) ^ 7) with (-1) by ring.
  replace ((-1) ^ 8) with 1 by ring.
  replace ((-1) ^ 9) with (-1) by ring.
  ring.
Qed.

(** ** Monotonicity of the pairs [u^m - u^n] for small [u] *)

Lemma pow_diff_upper (n : nat) (u v : R) :
  0 <= u <= v -> v ^ S n - u ^ S n <= INR (S n) * v ^ n * (v - u).
Proof.
  intros Huv. induction n as [|n IH].
  - simpl. lra.
  - assert (Hp : u ^ S n <= v ^ S n) by (apply pow_incr; lra).
    rewrite (S_INR (S n)).
    change (v ^ S (S n)) with (v * v ^ S n).
    change (u ^ S (S n)) with (u * u ^ S n).
    set (a := v ^ S n) in *. set (b := u ^ S n) in *.
    set (c := v ^ n) in *. set (N := INR (S n)) in *.
    assert (H1 : v * (a - b) <= v * (N * c * (v - u)))
      by (apply Rmult_le_compat_l; lra).
    assert (H2 : b * (v - u) <= a * (v - u))
      by (apply Rmult_le_compat_r; lra).
    assert (Ha : a = v * c) by reflexivity.
    rewrite Ha in *. nra.
Qed.

Lemma pow_diff_lower (m : nat) (u v : R) :
  0 <= u <= v -> v ^ m * (v - u) <= v ^ S m - u ^ S m.
Proof.
  intros Huv.
  assert (Hp : u ^ m <= v ^ m) by (apply pow_incr; lra).
  change (v ^ S m) with (v * v ^ m). change (u ^ S m) with (u * u ^ m).
  assert (H : 0 <= u * (v ^ m - u ^ m))
    by (apply Rmult_le_pos; lra).
  nra.
Qed.

Lemma pair_mono (m k : nat) (u v : R) :
  0 <= u <= v -> INR (S (m + k)) * v ^ k <= 1 ->
  u ^ S m - u ^ S (m + k) <= v ^ S m - v ^ S (m + k).
Proof.
  intros Huv Hk.
  pose proof (pow_diff_upper (m + k) u v Huv) as Hup.
  pose proof (pow_diff_lower m u v Huv) as Hlo.
  rewrite pow_add in Hup.
  assert (Hvm : 0 <= v ^ m * (v - u)).
  { apply Rmult_le_pos; [apply pow_le |]; lra. }
  assert (H : INR (S (m + k)) * v ^ k * (v ^ m * (v - u))
              <= 1 * (v ^ m * (v - u)))
    by (apply Rmult_le_compat_r; assumption).
  nra.
Qed.

Lemma pair_mono_strict (m k : nat) (u v : R) :
  0 <= u < v -> INR (S (m + k)) * v ^ k < 1 ->
  u ^ S m - u ^ S (m + k) < v ^ S m - v ^ S (m + k).
Proof.
  intros Huv Hk.
  assert (Huv' : 0 <= u <= v) by lra.
  pose proof (pow_diff_upper (m + k) u v Huv') as Hup.
  pose proof (pow_diff_lower m u v Huv') as Hlo.
  rewrite pow_add in Hup.
  assert (Hvm : 0 < v ^ m * (v - u)).
  { apply Rmult_lt_0_compat; [apply pow_lt |]; lra. }
  assert (H : INR (S (m + k)) * v ^ k * (v ^ m * (v - u))
              < 1 * (v ^ m * (v - u)))
    by (apply Rmult_lt_compat_r; assumption).
  nra.
Qed.

Lemma small_pow (n : nat) (k : nat) (v c : R) :
  0 <= v <= 3 / 5 -> INR n * (3 / 5) ^ k <= c -> INR n * v ^ k <= c.
Proof.
  intros Hv Hc.
  assert (Hp : v ^ k <= (3 / 5) ^ k) by (apply pow_incr; lra).
  assert (Hn : 0 <= INR n) by apply pos_INR.
  assert (H : INR n * v ^ k <= INR n * (3 / 5) ^ k)
    by (apply Rmult_le_compat_l; assumption).
  lra.
Qed.

Lemma kolm_increasing (u v : R) :
  0 <= u < v -> v <= 3 / 5 -> kolm u < kolm v.
Proof.
  intros Huv Hv. unfold kolm.
  assert (Hle : 0 <= u <= v) by lra.
  assert (Hv' : 0 <= v <= 3 / 5) by lra.
  assert (H1 : u ^ 1 - u ^ 4 < v ^ 1 - v ^ 4).
  { apply (pair_mono_strict 0 3); [lra |].
    apply Rle_lt_trans with (9 / 10); [| lra].
    apply small_pow; [assumption |]. simpl. lra. }
  assert (H2 : u ^ 9 - u ^ 16 <= v ^ 9 - v ^ 16).
  { apply (pair_mono 8 7); [lra |].
    apply small_pow; [assumption |]. simpl. lra. }
  assert (H3 : u ^ 25 - u ^ 36 <= v ^ 25 - v ^ 36).
  { apply (pair_mono 24 11); [lra |].
    apply small_pow; [assumption |]. simpl. lra. }
  assert (H4 : u ^ 49 - u ^ 64 <= v ^ 49 - v ^ 64).
  { apply (pair_mono 48 15); [lra |].
    apply small_pow; [assumption |]. simpl. lra. }
  assert (H5 : u ^ 81 - u ^ 100 <= v ^ 81 - v ^ 100).
  { apply (pair_mono 80 19); [lra |].
    apply small_pow; [assumption |]. simpl. lra. }
  lra.
Qed.

Lemma pow_le_pow (m k : nat) (u : R) : 0 <= u <= 1 -> u ^ (m + k) <= u ^ m.
Proof.
  intros Hu. rewrite pow_add.
  assert (Hm : 0 <= u ^ m) by (apply pow_le; lra).
  assert (Hk : u ^ k <= 1).
  { replace 1 with (1 ^ k) by apply pow1. apply pow_incr; lra. }
  assert (H : u ^ m * u ^ k <= u ^ m * 1)
    by (apply Rmult_le_compat_l; assumption).
  lra.
Qed.

Lemma kolm_upper (u : R) : 0 <= u <= 1 -> kolm u <= 2 * u.
Proof.
  intros Hu. unfold kolm.
  pose proof (pow_le_pow 4 5 u Hu) as H1.
  pose proof (pow_le_pow 16 9 u Hu) as H2.
  pose proof (pow_le_pow 36 13 u Hu) as H3.
  pose proof (pow_le_pow 64 17 u Hu) as H4.
  assert (H5 : 0 <= u ^ 100) by (apply pow_le; lra).
  cbn [Nat.add] in *. replace (u ^ 1) with u by ring. lra.
Qed.

Lemma kolm_0 : kolm 0 = 0.
Proof. unfold kolm. rewrite !pow_ne_zero by discriminate. ring. Qed.

Lemma kolm_1 : kolm 1 = 0.
Proof. unfold kolm. rewrite !pow1. ring. Qed.

Lemma kolm_pos (u : R) : 0 < u <= 3 / 5 -> 0 < kolm u.
Proof.
  intros Hu. rewrite <- kolm_0. apply kolm_increasing; lra.
Qed.

(** ** [expfun10] away from the origin *)

Lemma exp_neg_small (x : R) : 3 / 5 <= x -> 0 < exp (-2 * x ^ 2) <= 3 / 5.
Proof.
  intros Hx. split; [apply exp_pos |].
  replace (-2 * x ^ 2) with (- (2 * x ^ 2)) by ring.
  rewrite exp_Ropp.
  pose proof (exp_ineq1_le (2 * x ^ 2)) as He.
  assert (Hx2 : 9 / 25 <= x ^ 2) by nra.
  assert (Hb : 5 / 3 <= exp (2 * x ^ 2)) by lra.
  replace (3 / 5) with (/ (5 / 3)) by lra.
  apply Rinv_le_contravar; lra.
Qed.

Lemma exp_neg_sq_decreasing (x y : R) :
  0 <= x < y -> exp (-2 * y ^ 2) < exp (-2 * x ^ 2).
Proof. intros Hxy. apply exp_increasing. nra. Qed.

Lemma expfun10_0 : expfun10 0 = 0.
Proof.
  rewrite expfun10_kolm.
  replace (-2 * 0 ^ 2) with 0 by ring. rewrite exp_0. apply kolm_1.
Qed.

Lemma expfun10_decreasing (x y : R) :
  3 / 5 <= x -> x < y -> expfun10 y < expfun10 x.
Proof.
  intros Hx Hxy. rewrite !expfun10_kolm.
  apply kolm_increasing.
  - split; [left; apply exp_pos | apply exp_neg_sq_decreasing; lra].
  - apply exp_neg_small; assumption.
Qed.

Lemma expfun10_bounds (x : R) :
  3 / 5 <= x -> 0 < expfun10 x <= 2 * exp (-2 * x ^ 2).
Proof.
  intros Hx. rewrite expfun10_kolm.
  pose proof (exp_neg_small x Hx) as Hu. split.
  - apply kolm_pos; assumption.
  - apply kolm_upper; lra.
Qed.

(** The two lemmas above are strict over the reals.  Without strictness
    they also hold where [np.exp] has underflowed and both sides are 0. *)
Lemma expfun10_nonincreasing (x y : R) :
  3 / 5 <= x -> x <= y -> expfun10 y <= expfun10 x.
Proof.
  intros Hx [Hlt | ->]; [| apply Rle_refl].
  left. apply expfun10_decreasing; assumption.
Qed.

Lemma expfun10_nonneg (x : R) :
  3 / 5 <= x -> 0 <= expfun10 x <= 2 * exp (-2 * x ^ 2).
Proof.
  intros Hx. destruct (expfun10_bounds x Hx) as [Hpos Hup].
  split; [left |]; assumption.
Qed.

Lemma exp_3_ge_4 : 4 <= exp 3.
Proof. pose proof (exp_ineq1_le 3). lra. Qed.

Lemma exp_neg_18 : exp (-2 * 3 ^ 2) <= / 4096.
Proof.
  replace (-2 * 3 ^ 2) with (- (INR 6 * 3)) by (simpl; ring).
  rewrite exp_Ropp, exp_mult_nat.
  apply Rinv_le_contravar; [lra |].
  replace 4096 with (4 ^ 6) by (simpl; ring).
  apply pow_incr. pose proof exp_3_ge_4. lra.
Qed.

Lemma expfun10_3_small : expfun10 3 < 0.001.
Proof.
  pose proof (expfun10_bounds 3 ltac:(lra)) as [_ H].
  pose proof exp_neg_18. lra.
Qed.

Lemma expfun10_vanishes (eps : R) :
  0 < eps -> exists X, forall x, X <= x -> Rabs (expfun10 x) < eps.
Proof.
  intros Heps. exists (Rmax 1 (/ eps)). intros x Hx.
  assert (H1 : 1 <= x) by (pose proof (Rmax_l 1 (/ eps)); lra).
  assert (H2 : / eps <= x) by (pose proof (Rmax_r 1 (/ eps)); lra).
  pose proof (expfun10_bounds x ltac:(lra)) as [Hpos Hup].
  rewrite Rabs_pos_eq by lra.
  apply Rle_lt_trans with (2 * exp (-2 * x ^ 2)); [assumption |].
  replace (-2 * x ^ 2) with (- (2 * x ^ 2)) by ring.
  rewrite exp_Ropp.
  pose proof (exp_ineq1_le (2 * x ^ 2)) as He.
  assert (Hie : 0 < / eps) by (apply Rinv_0_lt_compat; assumption).
  assert (Hxx : 2 * / eps < exp (2 * x ^ 2)) by nra.
  assert (Hinv : / exp (2 * x ^ 2) < / (2 * / eps)).
  { apply Rinv_lt_contravar; [| assumption].
    apply Rmult_lt_0_compat; lra. }
  replace (/ (2 * / eps)) with (eps / 2) in Hinv by (field; lra).
  lra.
Qed.

(** ** The error monad *)

Lemma bind_ret_inv {A B : Type} (c : result A) (k : A -> result B) (b : B) :
  bind c k = Ret b -> exists a, c = Ret a /\ k a = Ret b.
Proof. destruct c; simpl; intros H; try discriminate. eauto. Qed.

Ltac bind_inv H :=
  let a := fresh "r" in
  let Ha := fresh "Hr" in
  apply bind_ret_inv in H; destruct H as (a & Ha & H).

(** ** Reading and writing cells *)

Lemma get_ret (a : list R) (i : nat) (v : R) :
  get a i = Ret v <-> nth_error a i = Some v.
Proof.
  unfold get. destruct (nth_error a i); split; intros H;
    try discriminate; inversion H; reflexivity.
Qed.

Lemma get_in_range (a : list R) (i : nat) :
  (i < length a)%nat -> exists v, get a i = Ret v.
Proof.
  intros Hi. unfold get.
  destruct (nth_error a i) eqn:E; [eauto |].
  apply nth_error_None in E. lia.
Qed.

Lemma set_item_ret (a : list R) :
  forall (i : nat) (v : R) (a' : list R),
    set_item a i v = Ret a' ->
    (i < length a)%nat /\ length a' = length a /\
    nth_error a' i = Some v /\
    forall j, j <> i -> nth_error a' j = nth_error a j.
Proof.
  induction a as [|w a IH]; intros i v a' H; [discriminate |].
  destruct i as [|i]; simpl in H.
  - inversion H; subst. simpl. repeat split; try lia.
    intros [|j] Hj; [lia | reflexivity].
  - bind_inv H. inversion H; subst.
    destruct (IH _ _ _ Hr) as (Hi & Hl & Hn & Ho).
    simpl. repeat split; try lia; try assumption.
    intros [|j] Hj; [reflexivity |]. simpl. apply Ho. lia.
Qed.

Lemma set_item_in_range (a : list R) :
  forall (i : nat) (v : R),
    (i < length a)%nat -> exists a', set_item a i v = Ret a'.
Proof.
  induction a as [|w a IH]; intros i v Hi; simpl in Hi; [lia |].
  destruct i as [|i]; simpl; [eauto |].
  destruct (IH i v ltac:(lia)) as (a' & Ha'). rewrite Ha'. simpl. eauto.
Qed.

(** ** [np.where] *)

Lemma where_from_spec (mask : list bool) :
  forall k i,
    In i (where_from k mask) <->
    (k <= i)%nat /\ nth_error mask (i - k) = Some true.
Proof.
  induction mask as [|m mask IH]; intros k i; simpl.
  - split; [intros [] |]. intros [_ H]. destruct (i - k)%nat; discriminate.
  - assert (Hstep : In i (where_from (S k) mask) <->
                    (k < i)%nat /\ nth_error (m :: mask) (i - k) = Some true).
    { rewrite IH. split; intros [Hk H]; split; try lia.
      - replace (i - k)%nat with (S (i - S k)) by lia. exact H.
      - replace (i - k)%nat with (S (i - S k)) in H by lia. exact H. }
    destruct m; simpl; rewrite ?Hstep.
    + split.
      * intros [<- | [Hk H]]; [| split; [lia | assumption]].
        rewrite Nat.sub_diag. split; [lia | reflexivity].
      * intros [Hk H]. destruct (Nat.eq_dec k i) as [-> | Hne];
          [left; reflexivity |].
        right. split; [lia | assumption].
    + split; [intros [Hk H]; split; [lia | assumption] |].
      intros [Hk H]. destruct (Nat.eq_dec k i) as [-> | Hne].
      * rewrite Nat.sub_diag in H. discriminate.
      * split; [lia | assumption].
Qed.

(** The positions come out in ascending order: position [j1] before [j2]
    holds a smaller index. *)
Lemma where_from_ascending (mask : list bool) :
  forall k j1 j2 i1 i2,
    (j1 < j2)%nat ->
    nth_error (where_from k mask) j1 = Some i1 ->
    nth_error (where_from k mask) j2 = Some i2 ->
    (i1 < i2)%nat.
Proof.
  induction mask as [|m mask IH]; intros k j1 j2 i1 i2 Hj H1 H2; simpl in *.
  - destruct j1; discriminate.
  - destruct m; [| eapply IH; eassumption].
    destruct j2 as [|j2]; [lia |]. simpl in H2.
    destruct j1 as [|j1]; simpl in H1.
    + inversion H1; subst.
      apply nth_error_In in H2. apply where_from_spec in H2. lia.
    + eapply (IH (S k) j1 j2); try eassumption. lia.
Qed.

Lemma np_where_gt_spec (a : list R) (c : R) (i : nat) :
  In i (np_where_gt a c) <-> exists v, nth_error a i = Some v /\ v > c.
Proof.
  unfold np_where_gt. rewrite where_from_spec, Nat.sub_0_r, nth_error_map.
  split.
  - intros [_ H]. destruct (nth_error a i) as [v|]; [| discriminate].
    simpl in H. inversion H as [Hv]. apply Rgtb_true in Hv. eauto.
  - intros (v & Hv & Hgt). rewrite Hv. simpl. split; [lia |].
    f_equal. apply Rgtb_true. assumption.
Qed.

Lemma np_where_gt_in_range (a : list R) (c : R) (i : nat) :
  In i (np_where_gt a c) -> (i < length a)%nat.
Proof.
  intros H. apply np_where_gt_spec in H. destruct H as (v & Hv & _).
  apply nth_error_Some. congruence.
Qed.

(** ** [a[idxs]] *)

Lemma take_idx_in_range (a : list R) (idxs : list nat) :
  (forall i, In i idxs -> (i < length a)%nat) ->
  take_idx a idxs = Ret (map (fun i => nth i a 0) idxs).
Proof.
  induction idxs as [|i idxs IH]; intros Hin; simpl; [reflexivity |].
  assert (Hi : (i < length a)%nat) by (apply Hin; left; reflexivity).
  unfold get. rewrite (nth_error_nth' a 0 Hi). simpl.
  rewrite IH by (intros; apply Hin; right; assumption). reflexivity.
Qed.

Lemma take_idx_ret (a : list R) (idxs : list nat) :
  forall vs, take_idx a idxs = Ret vs ->
    length vs = length idxs /\
    forall j i, nth_error idxs j = Some i -> nth_error vs j = nth_error a i.
Proof.
  induction idxs as [|i idxs IH]; intros vs H; simpl in H.
  - inversion H; subst. split; [reflexivity |]. intros [|j]; discriminate.
  - bind_inv H. bind_inv H. inversion H; subst.
    destruct (IH _ Hr0) as (Hl & Hn). split; [simpl; lia |].
    intros [|j] i' Hj; simpl in *.
    + inversion Hj; subst. apply get_ret in Hr. congruence.
    + apply Hn; assumption.
Qed.

(** ** [np.argmax] *)

Lemma argmax_scan_spec (l : list R) :
  forall (pre : list R) (mp : R) (best : nat),
    nth_error pre best = Some mp ->
    (forall j v, nth_error pre j = Some v -> v <= mp) ->
    (forall j v, (j < best)%nat -> nth_error pre j = Some v -> v < mp) ->
    first_max (pre ++ l) (argmax_scan mp best (length pre) l).
Proof.
  induction l as [|v l IH]; intros pre mp best Hbest Hall Hbefore.
  - simpl. rewrite app_nil_r. exists mp. auto.
  - simpl.
    assert (Hlt : (best < length pre)%nat)
      by (apply nth_error_Some; congruence).
    replace (pre ++ v :: l) with ((pre ++ [v]) ++ l)
      by (rewrite <- app_assoc; reflexivity).
    replace (S (length pre)) with (length (pre ++ [v]))
      by (rewrite length_app; simpl; lia).
    destruct (Rleb v mp) eqn:E; simpl.
    + apply Rleb_true in E. apply IH.
      * rewrite nth_error_app1 by assumption. assumption.
      * intros j w Hj.
        destruct (Nat.lt_ge_cases j (length pre)) as [Hjl | Hjl].
        -- rewrite nth_error_app1 in Hj by assumption. eauto.
        -- rewrite nth_error_app2 in Hj by assumption.
           destruct (j - length pre)%nat as [|d]; simpl in Hj;
             [inversion Hj; subst; assumption | destruct d; discriminate].
      * intros j w Hjb Hj.
        rewrite nth_error_app1 in Hj by lia. eauto.
    + apply Rleb_false in E. apply IH.
      * rewrite nth_error_app2 by lia. rewrite Nat.sub_diag. reflexivity.
      * intros j w Hj.
        destruct (Nat.lt_ge_cases j (length pre)) as [Hjl | Hjl].
        -- rewrite nth_error_app1 in Hj by assumption.
           apply Hall in Hj. lra.
        -- rewrite nth_error_app2 in Hj by assumption.
           destruct (j - length pre)%nat as [|d]; simpl in Hj;
             [inversion Hj; subst; lra | destruct d; discriminate].
      * intros j w Hjb Hj.
        rewrite nth_error_app1 in Hj by assumption.
        apply Hall in Hj. lra.
Qed.

Lemma np_argmax_first_max (a : list R) :
  a <> [] -> exists k, np_argmax a = Ret k /\ first_max a k.
Proof.
  destruct a as [|v l]; intros Hne; [congruence |].
  exists (argmax_scan v 0 1 l). split; [reflexivity |].
  apply (argmax_scan_spec l [v] v 0%nat).
  - reflexivity.
  - intros [|j] w Hj; simpl in Hj;
      [inversion Hj; lra | destruct j; discriminate].
  - intros j w Hj. lia.
Qed.

Lemma np_argmax_empty : np_argmax [] = Raise ValueError.
Proof. reflexivity. Qed.

Lemma first_max_in_range (a : list R) (k : nat) :
  first_max a k -> (k < length a)%nat.
Proof.
  intros (m & Hk & _). apply nth_error_Some. congruence.
Qed.

Lemma first_max_unique (a : list R) (k1 k2 : nat) :
  first_max a k1 -> first_max a k2 -> k1 = k2.
Proof.
  intros (m1 & H1 & Hall1 & Hb1) (m2 & H2 & Hall2 & Hb2).
  destruct (Nat.lt_trichotomy k1 k2) as [Hlt | [Heq | Hgt]];
    [| assumption |].
  - pose proof (Hb2 _ _ Hlt H1). pose proof (Hall1 _ _ H2). lra.
  - pose proof (Hb1 _ _ Hgt H2). pose proof (Hall2 _ _ H1). lra.
Qed.

(** ** [np.sort] *)

Lemma insert_sorted_perm (v : R) (l : list R) :
  Permutation (v :: l) (insert_sorted v l).
Proof.
  induction l as [|w l IH]; simpl; [apply Permutation_refl |].
  destruct (Rleb v w); [apply Permutation_refl |].
  apply perm_trans with (w :: v :: l); [apply perm_swap |].
  apply perm_skip. assumption.
Qed.

Lemma np_sort_perm (a : list R) : Permutation a (np_sort a).
Proof.
  induction a as [|v a IH]; simpl; [apply perm_nil |].
  apply perm_trans with (v :: np_sort a);
    [apply perm_skip; assumption | apply insert_sorted_perm].
Qed.

Lemma np_sort_length (a : list R) : length (np_sort a) = length a.
Proof. symmetry. apply Permutation_length, np_sort_perm. Qed.

Lemma insert_sorted_sorted (v : R) (l : list R) :
  StronglySorted Rle l -> StronglySorted Rle (insert_sorted v l).
Proof.
  induction l as [|w l IH]; intros Hs; simpl.
  - constructor; constructor.
  - destruct (Rleb v w) eqn:E.
    + apply Rleb_true in E. constructor; [assumption |].
      constructor; [assumption |].
      inversion Hs as [| ? ? _ Hall]; subst.
      eapply Forall_impl; [| exact Hall]. simpl. intros; lra.
    + apply Rleb_false in E.
      inversion Hs as [| ? ? Hs' Hall]; subst.
      constructor; [apply IH; assumption |].
      apply (Permutation_Forall (insert_sorted_perm v l)).
      constructor; [lra | assumption].
Qed.

Lemma np_sort_sorted (a : list R) : StronglySorted Rle (np_sort a).
Proof.
  induction a as [|v a IH]; simpl; [constructor |].
  apply insert_sorted_sorted. assumption.
Qed.

(** Sorting a sorted array changes nothing. *)
Lemma np_sort_id (a : list R) : StronglySorted Rle a -> np_sort a = a.
Proof.
  induction a as [|v a IH]; intros Hs; [reflexivity |].
  inversion Hs as [| ? ? Hs' Hall]; subst. simpl. rewrite IH by assumption.
  destruct a as [|w a]; [reflexivity |]. simpl.
  inversion Hall as [| ? ? Hvw _]; subst.
  apply Rleb_true in Hvw. rewrite Hvw. reflexivity.
Qed.

(** In a sorted array a later cell is not smaller. *)
Lemma sorted_cells (a : list R) :
  StronglySorted Rle a ->
  forall i j x y,
    (i <= j)%nat -> nth_error a i = Some x -> nth_error a j = Some y ->
    x <= y.
Proof.
  induction 1 as [| v a Hs IH Hall]; intros i j x y Hij Hi Hj.
  - destruct i; discriminate.
  - destruct i as [|i], j as [|j]; simpl in *; try lia.
    + inversion Hi; inversion Hj; lra.
    + inversion Hi; subst. apply nth_error_In in Hj.
      rewrite Forall_forall in Hall. apply Hall. assumption.
    + eapply IH; [| eassumption | eassumption]. lia.
Qed.

Lemma nth_error_last (a : list R) (d : R) :
  a <> [] -> nth_error a (length a - 1) = Some (last a d).
Proof.
  induction a as [|v a IH]; intros Hne; [congruence |].
  destruct a as [|w a]; [reflexivity |].
  replace (length (v :: w :: a) - 1)%nat with (S (length (w :: a) - 1))
    by (simpl; lia).
  change (last (v :: w :: a) d) with (last (w :: a) d).
  simpl nth_error at 1. apply IH. discriminate.
Qed.

Lemma sorted_bounds (a : list R) (i : nat) (x : R) :
  StronglySorted Rle a -> nth_error a i = Some x ->
  hd 0 a <= x <= last a 0.
Proof.
  intros Hs Hi.
  assert (Hne : a <> []) by (intros ->; destruct i; discriminate).
  assert (Hlt : (i < length a)%nat) by (apply nth_error_Some; congruence).
  split.
  - destruct a as [|v a]; [congruence |].
    apply (sorted_cells _ Hs 0%nat i); [lia | reflexivity | assumption].
  - apply (sorted_cells _ Hs i (length a - 1)%nat);
      [lia | assumption | apply nth_error_last; assumption].
Qed.


(** ** The trial generator *)

Lemma draw_trial_ret cfg data log_xmin log_range s t s' :
  draw_trial cfg data log_xmin log_range s = Ret (t, s') ->
  snapped data t /\ s' = S (S s).
Proof.
  unfold draw_trial. intros H. bind_inv H. bind_inv H.
  inversion H; subst. apply get_ret in Hr, Hr0.
  split; [split; assumption | reflexivity].
Qed.

Lemma redraw_ret cfg data log_xmin log_range fuel :
  forall t s t' s',
    snapped data t ->
    redraw cfg data log_xmin log_range fuel t s = Ret (t', s') ->
    snapped data t' /\ rejected t' = false.
Proof.
  induction fuel as [|fuel IH]; intros t s t' s' Hsnap H; simpl in H.
  - destruct (rejected t) eqn:E; [discriminate |].
    inversion H; subst. auto.
  - destruct (rejected t) eqn:E.
    + bind_inv H. destruct r as [t1 s1].
      apply draw_trial_ret in Hr. destruct Hr as [Hs1 _].
      eapply IH; eassumption.
    + inversion H; subst. auto.
Qed.

Lemma generate_trial_ret cfg data log_xmin log_range fuel s t s' :
  generate_trial cfg data log_xmin log_range fuel s = Ret (t, s') ->
  snapped data t /\ rejected t = false.
Proof.
  unfold generate_trial. intros H. bind_inv H. destruct r as [t0 s0].
  apply draw_trial_ret in Hr. destruct Hr as [Hs0 _].
  eapply redraw_ret; eassumption.
Qed.

(** ** The trial sweep *)

Lemma record_trial_ret cfg data i t b b' n :
  record_trial cfg data i t b = Ret b' ->
  batch_len b n ->
  nth_error (attempted_ds b) i = Some (1e12 * 1) ->
  (i < n)%nat /\ batch_len b' n /\
  cell b' i = recorded cfg data t /\
  forall j, j <> i -> cell b' j = cell b j.
Proof.
  unfold record_trial. intros H (L1 & L2 & L3 & L4 & L5 & L6) Hds.
  bind_inv H. rename r into ds, Hr into Hd.
  bind_inv H. rename r into pqs, Hr into Hpq.
  bind_inv H. rename r into ns, Hr into Hn.
  bind_inv H. rename r into alphas, Hr into Ha.
  bind_inv H. rename r into xmins, Hr into Hx.
  bind_inv H. rename r into xmaxs, Hr into HX.
  inversion H; subst b'; clear H.
  apply set_item_ret in Hpq, Hn, Ha, Hx, HX.
  destruct Hpq as (Ipq & Lpq & Npq & Opq).
  destruct Hn as (_ & Ln & Nn & On).
  destruct Ha as (_ & La & Na & Oa).
  destruct Hx as (_ & Lx & Nx & Ox).
  destruct HX as (_ & LX & NX & OX).
  assert (Hds' : length ds = length (attempted_ds b) /\
                 nth_error ds i =
                   Some (if Rgtb (brent cfg (trimmed_of data t)) 1
                         then distfun cfg (trimmed_of data t)
                                (brent cfg (trimmed_of data t))
                         else 1e12 * 1) /\
                 forall j, j <> i ->
                   nth_error ds j = nth_error (attempted_ds b) j).
  { destruct (Rgtb (brent cfg (trimmed_of data t)) 1).
    - apply set_item_ret in Hd. destruct Hd as (_ & ? & ? & ?). auto.
    - inversion Hd; subst. auto. }
  destruct Hds' as (Ld & Nd & Od).
  split; [lia |]. split; [unfold batch_len; simpl; repeat split; lia |].
  split.
  - unfold cell, recorded; simpl. rewrite Nx, NX, Na, Nn, Npq, Nd.
    reflexivity.
  - intros j Hj. unfold cell; simpl.
    rewrite Ox, OX, Oa, On, Opq, Od by assumption. reflexivity.
Qed.

Lemma init_batch_len (runs : nat) : batch_len (init_batch runs) runs.
Proof.
  unfold batch_len, init_batch, np_ones; simpl.
  rewrite length_map, !repeat_length. repeat split.
Qed.

Lemma init_batch_ds (runs i : nat) :
  (i < runs)%nat ->
  nth_error (attempted_ds (init_batch runs)) i = Some (1e12 * 1).
Proof.
  intros Hi. unfold init_batch, np_ones; simpl.
  rewrite nth_error_map, nth_error_repeat by assumption. reflexivity.
Qed.

Lemma trial_loop_spec cfg data log_xmin log_range fuel n m :
  forall k b0 s0 b s,
    for_loop (trial_body cfg data log_xmin log_range fuel) (seq k m) (b0, s0)
      = Ret (b, s) ->
    (k + m <= n)%nat ->
    batch_len b0 n ->
    (forall j, (k <= j < n)%nat ->
       nth_error (attempted_ds b0) j = Some (1e12 * 1)) ->
    batch_len b n /\
    (forall j, (j < k \/ k + m <= j)%nat -> cell b j = cell b0 j) /\
    (forall i, (k <= i < k + m)%nat ->
       exists t, snapped data t /\ rejected t = false /\
                 cell b i = recorded cfg data t).
Proof.
  induction m as [|m IH]; intros k b0 s0 b s H Hk Hlen Hds; simpl in H.
  - inversion H; subst. split; [assumption |]. split; [reflexivity |].
    intros i Hi. lia.
  - bind_inv H. destruct r as [b1 s1].
    unfold trial_body in Hr. simpl in Hr.
    bind_inv Hr. destruct r as [t s2].
    bind_inv Hr. inversion Hr; subst; clear Hr.
    apply generate_trial_ret in Hr0. destruct Hr0 as [Hsnap Hacc].
    simpl in Hr1.
    destruct (record_trial_ret _ _ _ _ _ _ _ Hr1 Hlen (Hds k ltac:(lia)))
      as (_ & Hlen1 & Hcell & Hother).
    assert (Hds1 : forall j, (S k <= j < n)%nat ->
              nth_error (attempted_ds b1) j = Some (1e12 * 1)).
    { intros j Hj. pose proof (Hother j ltac:(lia)) as Hc.
      unfold cell in Hc. injection Hc as _ _ _ _ _ H6.
      rewrite H6. apply Hds. lia. }
    destruct (IH (S k) b1 s1 b s H ltac:(lia) Hlen1 Hds1)
      as (Hlenb & Hsame & Hnew).
    split; [assumption |]. split.
    + intros j Hj. rewrite Hsame by lia. apply Hother. lia.
    + intros i Hi. destruct (Nat.eq_dec i k) as [-> | Hne].
      * exists t. rewrite Hsame by lia. auto.
      * apply Hnew. lia.
Qed.

(** Every cell of a finished sweep holds the record of an accepted draw. *)
Lemma trial_sweep_spec cfg data log_xmin log_range fuel runs s b s' :
  trial_sweep cfg data log_xmin log_range fuel runs s = Ret (b, s') ->
  batch_len b runs /\
  forall i, (i < runs)%nat ->
    exists t, snapped data t /\ rejected t = false /\
              cell b i = recorded cfg data t.
Proof.
  unfold trial_sweep. intros H.
  destruct (trial_loop_spec cfg data log_xmin log_range fuel runs runs
              0%nat _ _ _ _ H ltac:(lia) (init_batch_len runs))
    as (Hlen & _ & Hnew).
  - intros j Hj. apply init_batch_ds. lia.
  - split; [assumption |]. intros i Hi. apply Hnew. lia.
Qed.


(** ** [find_pl_montecarlo] stage by stage *)

Lemma heap_get_new (h : heap) (a : list R) :
  heap_get (h ++ [a]) (length h) = Ret a.
Proof.
  unfold heap_get. rewrite nth_error_app2 by lia.
  rewrite Nat.sub_diag. reflexivity.
Qed.

Lemma np_sort_new_ret (h : heap) (x : loc) (raw : list R) :
  heap_get h x = Ret raw ->
  np_sort_new h x = Ret (length h, h ++ [np_sort raw]).
Proof. intros H. unfold np_sort_new. rewrite H. reflexivity. Qed.

Lemma np_sort_new_heap (h : heap) (x : loc) (sorted : loc) (h' : heap) :
  np_sort_new h x = Ret (sorted, h') ->
  exists raw, heap_get h x = Ret raw /\ h' = h ++ [np_sort raw].
Proof.
  unfold np_sort_new. intros H. bind_inv H. inversion H; subst. eauto.
Qed.

(** After the sort, the call is decided by [dist_type] and the sorted data. *)
Lemma find_pl_montecarlo_sorted fuel h s gens x runs pqcrit pcrit pruns
  dist_type calc_p raw :
  heap_get h x = Ret raw ->
  find_pl_montecarlo fuel h s gens x runs pqcrit pcrit pruns dist_type calc_p
  = match configure dist_type with
    | Some cfg =>
        if String.eqb dist_type "discrete" && np_any_lt (np_sort raw) 1 then
          {| out_value := Ret defaults; out_heap := h ++ [np_sort raw];
             out_printed := [msg_discrete] |}
        else
          {| out_value :=
               search cfg (np_sort raw) fuel s gens runs pqcrit
                 (final_pcrit pqcrit pcrit calc_p) pruns calc_p;
             out_heap := h ++ [np_sort raw];
             out_printed := [] |}
    | None =>
        {| out_value := Ret defaults; out_heap := h ++ [np_sort raw];
           out_printed := [msg_dist_type] |}
    end.
Proof.
  intros H. unfold find_pl_montecarlo.
  rewrite (np_sort_new_ret _ _ _ H), heap_get_new. reflexivity.
Qed.

Lemma find_pl_montecarlo_select fuel h s gens x runs pqcrit pcrit pruns
  dist_type calc_p cfg data b :
  sweeps_to fuel h s x runs dist_type cfg data b ->
  out_value
    (find_pl_montecarlo fuel h s gens x runs pqcrit pcrit pruns dist_type
       calc_p)
  = select cfg data b pqcrit (final_pcrit pqcrit pcrit calc_p) pruns calc_p
      gens.
Proof.
  intros (raw & s' & Hraw & -> & Hcfg & Hguard & Hsweep).
  rewrite (find_pl_montecarlo_sorted _ _ _ _ _ _ _ _ _ _ _ _ Hraw).
  rewrite Hcfg, Hguard. simpl. unfold search. rewrite Hsweep. reflexivity.
Qed.

Lemma sweeps_to_batch fuel h s x runs dist_type cfg data b :
  sweeps_to fuel h s x runs dist_type cfg data b ->
  batch_len b runs /\
  forall i, (i < runs)%nat ->
    exists t, snapped data t /\ rejected t = false /\
              cell b i = recorded cfg data t.
Proof.
  intros (raw & s' & _ & _ & _ & _ & Hsweep).
  unfold sweep in Hsweep. bind_inv Hsweep.
  eapply trial_sweep_spec; eassumption.
Qed.

Lemma configure_none (dist_type : string) :
  dist_type <> "KS"%string -> dist_type <> "AD"%string ->
  dist_type <> "discrete"%string -> configure dist_type = None.
Proof.
  intros H1 H2 H3. unfold configure.
  apply String.eqb_neq in H1, H2, H3. rewrite H1, H2, H3. reflexivity.
Qed.

Lemma np_any_lt_true (a : list R) (c : R) :
  np_any_lt a c = true <-> exists v, In v a /\ v < c.
Proof.
  unfold np_any_lt. rewrite existsb_exists.
  split; intros (v & Hin & Hv); exists v; split; try assumption;
    apply Rltb_true; assumption.
Qed.


(** ** Input validation (lines 159, 177-182) *)

(** C9. Whatever the other arguments, a call on an array [raw] with a
    [dist_type] that is none of [KS], [AD], [discrete] prints the message of
    line 181 and returns the list [[0, 0, 1]] without raising; so does a
    call with [dist_type = discrete] on data holding a value below 1, with
    the message of line 178. *)
Theorem invalid_input_returns_defaults fuel h s gens x runs pqcrit pcrit
  pruns dist_type calc_p raw :
  heap_get h x = Ret raw ->
  let call :=
    find_pl_montecarlo fuel h s gens x runs pqcrit pcrit pruns dist_type
      calc_p in
  (dist_type <> "KS"%string /\ dist_type <> "AD"%string /\
   dist_type <> "discrete"%string ->
   out_value call = Ret (VList [0; 0; 1]) /\
   out_printed call = [msg_dist_type]) /\
  (dist_type = "discrete"%string /\ (exists v, In v raw /\ v < 1) ->
   out_value call = Ret (VList [0; 0; 1]) /\
   out_printed call = [msg_discrete]).
Proof.
  intros Hraw call. unfold call.
  rewrite (find_pl_montecarlo_sorted _ _ _ _ _ _ _ _ _ _ _ _ Hraw).
  split.
  - intros (H1 & H2 & H3). rewrite (configure_none _ H1 H2 H3).
    split; reflexivity.
  - intros (-> & v & Hin & Hv).
    assert (Hany : np_any_lt (np_sort raw) 1 = true).
    { apply np_any_lt_true. exists v. split; [| assumption].
      eapply Permutation_in; [apply np_sort_perm | assumption]. }
    rewrite Hany. split; reflexivity.
Qed.

(** ** The caller's array (lines 39-40, 152) *)

Lemma heap_get_app (h : heap) (a : list R) (x : loc) (raw : list R) :
  heap_get h x = Ret raw -> heap_get (h ++ [a]) x = Ret raw.
Proof.
  unfold heap_get. intros H.
  destruct (nth_error h x) as [r|] eqn:E; [| discriminate].
  rewrite nth_error_app1 by (apply nth_error_Some; congruence).
  rewrite E. assumption.
Qed.

Lemma firstn_app_length (h : heap) (a : list R) :
  firstn (length h) (h ++ [a]) = h.
Proof.
  rewrite firstn_app, Nat.sub_diag, firstn_all. simpl.
  apply app_nil_r.
Qed.

Lemma find_pl_montecarlo_heap fuel h s gens x runs pqcrit pcrit pruns
  dist_type calc_p :
  let h' :=
    out_heap
      (find_pl_montecarlo fuel h s gens x runs pqcrit pcrit pruns dist_type
         calc_p) in
  h' = h \/ exists a, h' = h ++ [a].
Proof.
  simpl. unfold find_pl_montecarlo.
  destruct (np_sort_new h x) as [[sorted h1] | e |] eqn:E;
    [| left; reflexivity | left; reflexivity].
  apply np_sort_new_heap in E. destruct E as (raw & _ & ->).
  right. exists (np_sort raw).
  destruct (configure dist_type); [| reflexivity].
  destruct (heap_get _ sorted); try reflexivity.
  destruct (_ && _); reflexivity.
Qed.

Lemma find_p_wrap_heap h g x xmin xmax runs discrete :
  let h' := out_heap (find_p_wrap h g x xmin xmax runs discrete) in
  h' = h \/ exists a, h' = h ++ [a].
Proof.
  simpl. unfold find_p_wrap.
  destruct discrete; simpl; [left; reflexivity |].
  destruct (np_sort_new h x) as [[sorted h1] | e |] eqn:E;
    [| left; reflexivity | left; reflexivity].
  apply np_sort_new_heap in E. destruct E as (raw & _ & ->).
  right. exists (np_sort raw). reflexivity.
Qed.

Lemma heap_grown_frame (h h' : heap) (x : loc) :
  h' = h \/ (exists a, h' = h ++ [a]) ->
  firstn (length h) h' = h /\
  (forall raw, heap_get h x = Ret raw -> heap_get h' x = Ret raw).
Proof.
  intros [-> | (a & ->)].
  - split; [apply firstn_all | auto].
  - split; [apply firstn_app_length | intros; apply heap_get_app; assumption].
Qed.

(** C10. After any call of [find_pl_montecarlo] or [find_p_wrap], returning,
    raising or running on, every array that was in the heap before it is
    there unchanged, the array [x] passed as the data among them: the heap
    only grew by the sorted copy. *)
Theorem input_array_not_mutated fuel h s g gens x runs pqcrit pcrit pruns
  dist_type calc_p xmin xmax discrete :
  let h1 :=
    out_heap
      (find_pl_montecarlo fuel h s gens x runs pqcrit pcrit pruns dist_type
         calc_p) in
  let h2 := out_heap (find_p_wrap h g x xmin xmax runs discrete) in
  (firstn (length h) h1 = h /\
   forall raw, heap_get h x = Ret raw -> heap_get h1 x = Ret raw) /\
  (firstn (length h) h2 = h /\
   forall raw, heap_get h x = Ret raw -> heap_get h2 x = Ret raw).
Proof.
  intros h1 h2. split; apply heap_grown_frame.
  - apply find_pl_montecarlo_heap.
  - apply find_p_wrap_heap.
Qed.


(** ** The loop of [expfun] is the sum of the specification *)

Lemma fold_left_sum (f : nat -> R) (m : nat) :
  forall acc,
    fold_left (fun val i => val + f i) (seq 1 m) acc = acc + sum_1_to f m.
Proof.
  induction m as [|m IH]; intros acc.
  - simpl. ring.
  - rewrite seq_S, fold_left_app, IH. simpl. ring.
Qed.

Lemma expfun_sum (x : R) (numterms : nat) :
  expfun x numterms =
  2 * sum_1_to (fun i => (-1) ^ (i - 1) * exp (-2 * INR i ^ 2 * x ^ 2))
        numterms.
Proof.
  unfold expfun. rewrite (fold_left_sum (expfun_term x)). 
  unfold expfun_term. ring.
Qed.

(** ** What every cell of a finished sweep satisfies *)

Lemma rejected_false (t : draw) :
  rejected t = false ->
  (Z.of_nat (trial_xmax_idx t) - Z.of_nat (trial_xmin_idx t) >= 10)%Z /\
  trial_xmax t >= 2 * trial_xmin t.
Proof.
  unfold rejected. intros H. apply orb_false_elim in H.
  destruct H as [Hz Hr]. apply Z.ltb_ge in Hz. apply Rltb_false in Hr.
  split; [lia | lra].
Qed.

(** C2. In the batch of a sweep that ended, every cell [i] holds the data at
    two indices [xmin_idx], [xmax_idx] with [xmax_idx - xmin_idx >= 10] and
    [xmax >= 2*xmin]. *)
Theorem recorded_trials_satisfy_bounds cfg data log_xmin log_range fuel runs
  s b s' i :
  trial_sweep cfg data log_xmin log_range fuel runs s = Ret (b, s') ->
  (i < runs)%nat ->
  exists xmin_idx xmax_idx xmin xmax,
    nth_error data xmin_idx = Some xmin /\
    nth_error data xmax_idx = Some xmax /\
    nth_error (attempted_xmins b) i = Some xmin /\
    nth_error (attempted_xmaxs b) i = Some xmax /\
    (Z.of_nat xmax_idx - Z.of_nat xmin_idx >= 10)%Z /\
    xmax >= 2 * xmin.
Proof.
  intros Hsweep Hi.
  destruct (trial_sweep_spec _ _ _ _ _ _ _ _ _ Hsweep) as [_ Hcells].
  destruct (Hcells i Hi) as (t & [Hmin Hmax] & Hacc & Hcell).
  apply rejected_false in Hacc. destruct Hacc as [Hidx Hval].
  unfold cell, recorded in Hcell. inversion Hcell.
  exists (trial_xmin_idx t), (trial_xmax_idx t), (trial_xmin t),
    (trial_xmax t).
  repeat split; assumption.
Qed.

(** C6, as the code has it.  In the batch of a sweep that ended, cell [i]
    of [attempted_pqs] is [expfun(z + 0.17/sqrt(n) + (z-1)/(4*n))] with
    [z = d*sqrt(n)], where [n] is the length of the trimmed data of the
    trial (cell [i] of [attempted_ns]) and [d] is [tmpd], not the recorded
    distance: the one [dfun] gives for the fitted exponent when that exceeds
    1, and 1 otherwise.  When the exponent exceeds 1 and [distfun] gives the
    same distance as [dfun], [d] is cell [i] of [attempted_ds].  [expfun x
    numterms] is twice the sum over [k = 1..numterms] of
    [(-1)^(k-1) * exp(-2*k^2*x^2)], [expfun10] at 10 terms.  And for an
    accepted [dist_type], [distfun] is [dfun] unless [dist_type] is ['AD'],
    where [distfun] is [find_ad_sorted] and [dfun] still [find_d_sorted]. *)
Theorem approx_p_is_expfun_of_distance cfg data log_xmin log_range fuel runs
  s b s' i :
  trial_sweep cfg data log_xmin log_range fuel runs s = Ret (b, s') ->
  (i < runs)%nat ->
  (exists t,
     snapped data t /\
     let trimmed := slice data (trial_xmin_idx t) (trial_xmax_idx t + 1) in
     let n := length trimmed in
     let alpha := brent cfg trimmed in
     let d := if Rgtb alpha 1 then dfun cfg trimmed alpha else 1 in
     let z := d * sqrt (INR n) in
     nth_error (attempted_ns b) i = Some (INR n) /\
     nth_error (attempted_alphas b) i = Some alpha /\
     nth_error (attempted_pqs b) i
       = Some (expfun10 (z + 0.17 / sqrt (INR n) + (z - 1) / (4 * INR n))) /\
     (alpha > 1 ->
      distfun cfg trimmed alpha = dfun cfg trimmed alpha ->
      nth_error (attempted_ds b) i = Some d))
  /\
  (forall x, expfun10 x = expfun x 10) /\
  (forall x numterms,
     expfun x numterms =
     2 * sum_1_to (fun k => (-1) ^ (k - 1) * exp (-2 * INR k ^ 2 * x ^ 2))
           numterms) /\
  (forall dist_type cfg',
     configure dist_type = Some cfg' ->
     dfun cfg' = (if String.eqb dist_type "discrete"
                  then find_d_sorted_discrete else find_d_sorted) /\
     distfun cfg' = (if String.eqb dist_type "AD"
                     then find_ad_sorted else dfun cfg')).
Proof.
  intros Hsweep Hi.
  destruct (trial_sweep_spec _ _ _ _ _ _ _ _ _ Hsweep) as [_ Hcells].
  destruct (Hcells i Hi) as (t & Hsnap & _ & Hcell).
  unfold cell, recorded in Hcell.
  injection Hcell as _ _ Ha Hn Hpq Hd.
  split; [| split; [reflexivity | split; [apply expfun_sum |]]].
  2: { intros dist_type cfg' Hcfg. unfold configure in Hcfg.
       destruct (String.eqb dist_type "KS") eqn:EKS.
       { apply String.eqb_eq in EKS. subst dist_type.
         injection Hcfg as <-. split; reflexivity. }
       destruct (String.eqb dist_type "AD") eqn:EAD.
       { apply String.eqb_eq in EAD. subst dist_type.
         injection Hcfg as <-. split; reflexivity. }
       destruct (String.eqb dist_type "discrete") eqn:Edis;
         [| discriminate].
       injection Hcfg as <-. split; reflexivity. }
  exists t. split; [assumption |]. cbv zeta.
  fold (trimmed_of data t) in *.
  split; [assumption |]. split; [assumption |]. split; [assumption |].
  intros Hgt Hsame. apply Rgtb_true in Hgt. rewrite Hgt in Hd |- *.
  rewrite <- Hsame. assumption.
Qed.



(** ** [find_true_p] *)

Lemma gen_before_S n xmin xmax alpha g k :
  gen_before n xmin xmax alpha g (S k)
  = gen_before n xmin xmax alpha (snd (pl_gen n xmin xmax alpha g)) k.
Proof.
  induction k as [|k IH]; [reflexivity |].
  change (gen_before n xmin xmax alpha g (S (S k)))
    with (snd (pl_gen n xmin xmax alpha
                 (gen_before n xmin xmax alpha g (S k)))).
  rewrite IH. reflexivity.
Qed.

Lemma worse_count_S n xmin xmax alpha de dfn g runs :
  worse_count n xmin xmax alpha de dfn g (S runs)
  = ((if Rgeb (synth_ds n xmin xmax alpha dfn g 0) de then 1 else 0)
     + worse_count n xmin xmax alpha de dfn
         (snd (pl_gen n xmin xmax alpha g)) runs)%nat.
Proof.
  unfold worse_count. rewrite <- cons_seq, <- seq_shift. cbn [filter].
  rewrite filter_map_swap.
  assert (Hshift :
    filter (fun k => Rgeb (synth_ds n xmin xmax alpha dfn g (S k)) de)
      (seq 0 runs)
    = filter
        (fun k =>
           Rgeb (synth_ds n xmin xmax alpha dfn
                   (snd (pl_gen n xmin xmax alpha g)) k) de)
        (seq 0 runs)).
  { apply filter_ext. intros k. unfold synth_ds.
    rewrite gen_before_S. reflexivity. }
  rewrite Hshift.
  destruct (Rgeb (synth_ds n xmin xmax alpha dfn g 0) de); simpl;
    rewrite length_map; reflexivity.
Qed.

(** The loop counts the iterations with [ds >= de]. *)
Lemma synth_loop_count n xmin xmax alpha de dfn runs :
  forall tot g,
    synth_loop runs n xmin xmax alpha de dfn tot g
    = ((tot + worse_count n xmin xmax alpha de dfn g runs)%nat,
       gen_before n xmin xmax alpha g runs).
Proof.
  induction runs as [|runs IH]; intros tot g.
  - simpl. unfold worse_count. simpl. f_equal. lia.
  - rewrite worse_count_S, gen_before_S.
    cbn [synth_loop].
    destruct (pl_gen n xmin xmax alpha g) as [sample g'] eqn:E.
    rewrite IH. unfold synth_ds. cbn [gen_before]. rewrite E. cbn [fst snd].
    destruct (Rgeb _ de); f_equal; lia.
Qed.

Lemma worse_count_le n xmin xmax alpha de dfn g runs :
  (worse_count n xmin xmax alpha de dfn g runs <= runs)%nat.
Proof.
  unfold worse_count.
  match goal with
  | |- (length (filter ?f ?l) <= _)%nat =>
      pose proof (filter_length_le f l) as H
  end.
  rewrite length_seq in H. exact H.
Qed.

Lemma binomial_error_bounds (p r : R) :
  0 <= p <= 1 -> 1 <= r -> 0 <= sqrt (p * (1 - p) / r) <= 1.
Proof.
  intros Hp Hr. split; [apply sqrt_pos |].
  apply Rle_trans with (sqrt 1); [| rewrite sqrt_1; lra].
  apply sqrt_le_1_alt.
  assert (Hq : p * (1 - p) <= 1) by nra.
  assert (Hq0 : 0 <= p * (1 - p)) by nra.
  apply Rle_trans with (p * (1 - p) / 1); [| lra].
  unfold Rdiv. apply Rmult_le_compat_l; [assumption |].
  apply Rinv_le_contravar; lra.
Qed.

(** C5. For [runs >= 1], [find_true_p] returns [p] and [sigma_p] with [p]
    the number of the [runs] synthetic iterations with [ds >= de] divided by
    [runs], and [sigma_p = sqrt(p*(1-p)/runs)]; both lie between 0 and 1. *)
Theorem find_true_p_is_binomial_estimate x xmin xmax runs dfn g :
  (1 <= runs)%nat ->
  let xs := slice x (find_nearest_idx x xmin) (find_nearest_idx x xmax + 1) in
  let n := length xs in
  let alpha := brent_findmin xs in
  let de := dfn xs alpha in
  let count := worse_count n xmin xmax alpha de dfn g runs in
  exists p sigp g',
    find_true_p x xmin xmax runs dfn g = Ret (p, sigp, g') /\
    p = INR count / INR runs /\
    sigp = sqrt (p * (1 - p) / INR runs) /\
    0 <= p <= 1 /\ 0 <= sigp <= 1.
Proof.
  intros Hruns xs n alpha de count.
  assert (Hr : 1 <= INR runs) by (apply (le_INR 1); assumption).
  assert (Hc : 0 <= INR count <= INR runs).
  { split; [apply pos_INR | apply le_INR, worse_count_le]. }
  assert (Hp : 0 <= INR count / INR runs <= 1).
  { split.
    - apply Rmult_le_pos; [lra |]. left. apply Rinv_0_lt_compat. lra.
    - apply Rmult_le_reg_r with (INR runs); [lra |].
      unfold Rdiv. rewrite Rmult_assoc, Rinv_l by lra. lra. }
  exists (INR count / INR runs),
    (sqrt (INR count / INR runs * (1 - INR count / INR runs) / INR runs)),
    (gen_before n xmin xmax alpha g runs).
  split; [| split; [reflexivity | split; [reflexivity | split]]].
  - unfold find_true_p. fold xs. fold n. fold alpha. fold de.
    rewrite synth_loop_count. fold count.
    destruct runs as [|runs]; [lia |]. reflexivity.
  - assumption.
  - apply binomial_error_bounds; assumption.
Qed.


(** ** Termination of the rejection loop (lines 208-214) *)

Lemma draw_trial_in_range cfg data log_xmin log_range s :
  snaps_in_range cfg data ->
  exists t, draw_trial cfg data log_xmin log_range s = Ret (t, S (S s)).
Proof.
  intros Hin. unfold draw_trial.
  destruct (Hin (exp (log_xmin + log_range * U s))) as [H1 _].
  destruct (Hin (exp (log_xmin + log_range * U (S s)))) as [_ H2].
  destruct (get_in_range _ _ H1) as (v1 & ->).
  destruct (get_in_range _ _ H2) as (v2 & ->).
  simpl. eauto.
Qed.

(** With fewer than 11 points, or with a largest datum below twice the
    smallest, no snapped draw passes the test of line 208. *)
Lemma short_or_narrow_rejected (data : list R) (t : draw) :
  StronglySorted Rle data -> snapped data t ->
  (length data < 11)%nat \/ last data 0 < 2 * hd 0 data ->
  rejected t = true.
Proof.
  intros Hs [Hmin Hmax] Hcase. unfold rejected. apply orb_true_iff.
  assert (H1 : (trial_xmin_idx t < length data)%nat)
    by (apply nth_error_Some; congruence).
  assert (H2 : (trial_xmax_idx t < length data)%nat)
    by (apply nth_error_Some; congruence).
  destruct Hcase as [Hshort | Hnarrow].
  - left. apply Z.ltb_lt. lia.
  - right. apply Rltb_true.
    pose proof (sorted_bounds _ _ _ Hs Hmin) as [Hlo _].
    pose proof (sorted_bounds _ _ _ Hs Hmax) as [_ Hhi].
    lra.
Qed.

Lemma redraw_diverges cfg data log_xmin log_range fuel :
  snaps_in_range cfg data ->
  (forall t, snapped data t -> rejected t = true) ->
  forall t s,
    snapped data t ->
    redraw cfg data log_xmin log_range fuel t s = Diverge.
Proof.
  intros Hin Hrej. induction fuel as [|fuel IH]; intros t s Hsnap; simpl;
    rewrite (Hrej t Hsnap); [reflexivity |].
  destruct (draw_trial_in_range cfg data log_xmin log_range s Hin)
    as (t1 & Ht1).
  rewrite Ht1. simpl. apply IH.
  apply draw_trial_ret in Ht1. apply Ht1.
Qed.

Lemma generate_trial_diverges cfg data log_xmin log_range fuel s :
  snaps_in_range cfg data ->
  (forall t, snapped data t -> rejected t = true) ->
  generate_trial cfg data log_xmin log_range fuel s = Diverge.
Proof.
  intros Hin Hrej. unfold generate_trial.
  destruct (draw_trial_in_range cfg data log_xmin log_range s Hin)
    as (t0 & Ht0).
  rewrite Ht0. simpl. apply redraw_diverges; try assumption.
  apply draw_trial_ret in Ht0. apply Ht0.
Qed.

(** The loop leaves at the first draw that passes the test. *)
Lemma redraw_exits cfg data log_xmin log_range (t : draw) :
  forall k fuel s t0,
    (k <= fuel)%nat ->
    rejected t0 = true ->
    (forall j, (j < k)%nat ->
       exists tj,
         draw_trial cfg data log_xmin log_range (s + 2 * j)
           = Ret (tj, S (S (s + 2 * j))) /\
         rejected tj = true) ->
    draw_trial cfg data log_xmin log_range (s + 2 * k)
      = Ret (t, S (S (s + 2 * k))) ->
    rejected t = false ->
    redraw cfg data log_xmin log_range (S fuel) t0 s
      = Ret (t, S (S (s + 2 * k))).
Proof.
  induction k as [|k IH]; intros fuel s t0 Hk Hr0 Hbefore Hdraw Hacc.
  - cbn [redraw]. rewrite Hr0. rewrite Nat.mul_0_r, Nat.add_0_r in Hdraw.
    rewrite Hdraw. cbn [bind fst snd].
    rewrite Nat.mul_0_r, Nat.add_0_r.
    destruct fuel; cbn [redraw]; rewrite Hacc; reflexivity.
  - destruct fuel as [|fuel]; [lia |].
    cbn [redraw]. rewrite Hr0.
    destruct (Hbefore 0%nat ltac:(lia)) as (t1 & Ht1 & Hr1).
    rewrite Nat.mul_0_r, Nat.add_0_r in Ht1. rewrite Ht1. cbn [bind fst snd].
    replace (S (S (s + 2 * S k))) with (S (S (S (S s) + 2 * k))) by lia.
    apply IH; try assumption; try lia.
    + intros j Hj. destruct (Hbefore (S j) ltac:(lia)) as (tj & Htj & Hrj).
      exists tj. replace (S (S s) + 2 * j)%nat with (s + 2 * S j)%nat by lia.
      auto.
    + replace (S (S s) + 2 * k)%nat with (s + 2 * S k)%nat by lia.
      assumption.
Qed.

Lemma generate_trial_exits cfg data log_xmin log_range fuel s k t :
  (k <= fuel)%nat ->
  (forall j, (j < k)%nat ->
     exists tj,
       draw_trial cfg data log_xmin log_range (s + 2 * j)
         = Ret (tj, S (S (s + 2 * j))) /\
       rejected tj = true) ->
  draw_trial cfg data log_xmin log_range (s + 2 * k)
    = Ret (t, S (S (s + 2 * k))) ->
  rejected t = false ->
  generate_trial cfg data log_xmin log_range fuel s
    = Ret (t, S (S (s + 2 * k))).
Proof.
  intros Hk Hbefore Hdraw Hacc. unfold generate_trial.
  destruct k as [|k].
  - rewrite Nat.mul_0_r, Nat.add_0_r in *. rewrite Hdraw. cbn [bind fst snd].
    destruct fuel; cbn [redraw]; rewrite Hacc; reflexivity.
  - destruct (Hbefore 0%nat ltac:(lia)) as (t0 & Ht0 & Hr0).
    rewrite Nat.mul_0_r, Nat.add_0_r in Ht0. rewrite Ht0. cbn [bind fst snd].
    destruct fuel as [|fuel]; [lia |].
    replace (S (S (s + 2 * S k))) with (S (S (S (S s) + 2 * k))) by lia.
    apply redraw_exits; try assumption; try lia.
    + intros j Hj. destruct (Hbefore (S j) ltac:(lia)) as (tj & Htj & Hrj).
      exists tj. replace (S (S s) + 2 * j)%nat with (s + 2 * S j)%nat by lia.
      auto.
    + replace (S (S s) + 2 * k)%nat with (s + 2 * S k)%nat by lia.
      assumption.
Qed.

(** With 11 points or more and a largest datum at least twice the smallest,
    the pair of the first and the last index passes the test. *)
Lemma widest_pair_accepted (data : list R) :
  (11 <= length data)%nat -> last data 0 >= 2 * hd 0 data ->
  rejected {| trial_xmin_idx := 0; trial_xmax_idx := length data - 1;
              trial_xmin := hd 0 data; trial_xmax := last data 0 |} = false.
Proof.
  intros Hlen Hwide. unfold rejected; simpl.
  apply orb_false_iff. split.
  - apply Z.ltb_ge. lia.
  - apply Rltb_false. lra.
Qed.

(** C3, as the code has it.  On the sorted data of any array [x], with
    collaborators that return indices of the data: if [x] has fewer than 11
    points or its largest datum is below twice its smallest, the first draw
    and every redraw are rejected and the loop never ends, whatever the tape
    and the fuel; if [x] has 11 points or more and its largest datum is at
    least twice its smallest, the pair (first index, last index) passes the
    test, and the loop returns the first draw of the tape that passes it
    once the fuel covers the rejected draws before it. *)
Theorem rejection_loop_termination cfg x log_xmin log_range :
  let data := np_sort x in
  (snaps_in_range cfg data ->
   (length x < 11)%nat \/ last data 0 < 2 * hd 0 data ->
   forall fuel s,
     generate_trial cfg data log_xmin log_range fuel s = Diverge) /\
  ((11 <= length x)%nat -> last data 0 >= 2 * hd 0 data ->
   rejected {| trial_xmin_idx := 0; trial_xmax_idx := length data - 1;
               trial_xmin := hd 0 data; trial_xmax := last data 0 |}
   = false) /\
  (forall fuel s k t,
     (k <= fuel)%nat ->
     (forall j, (j < k)%nat ->
        exists tj,
          draw_trial cfg data log_xmin log_range (s + 2 * j)
            = Ret (tj, S (S (s + 2 * j))) /\
          rejected tj = true) ->
     draw_trial cfg data log_xmin log_range (s + 2 * k)
       = Ret (t, S (S (s + 2 * k))) ->
     rejected t = false ->
     generate_trial cfg data log_xmin log_range fuel s
       = Ret (t, S (S (s + 2 * k)))).
Proof.
  intros data. split; [| split].
  - intros Hin Hcase fuel s. apply generate_trial_diverges; [assumption |].
    intros t Hsnap.
    apply (short_or_narrow_rejected data); [apply np_sort_sorted | assumption |].
    unfold data in *. rewrite np_sort_length. assumption.
  - intros Hlen Hwide. apply widest_pair_accepted; [| assumption].
    unfold data. rewrite np_sort_length. assumption.
  - intros fuel s k t. apply generate_trial_exits.
Qed.


(** ** Lists of indices *)

Lemma nth_map_in_range {A B : Type} (f : A -> B) (l : list A) (j : nat)
  (d : A) (d' : B) :
  (j < length l)%nat -> nth j (map f l) d' = f (nth j l d).
Proof.
  intros Hj. rewrite (nth_indep _ d' (f d)) by (rewrite length_map; exact Hj).
  apply map_nth.
Qed.

Lemma div_cells_map (f g : nat -> R) (l : list nat) :
  div_cells (map f l) (map g l) = map (fun i => f i / g i) l.
Proof.
  induction l as [|i l IH]; simpl; [reflexivity |]. rewrite IH. reflexivity.
Qed.

Lemma np_where_gt_ascending (a : list R) (c : R) :
  ascending (np_where_gt a c).
Proof. unfold ascending, np_where_gt. apply where_from_ascending. Qed.

Lemma ascending_compose (idxs idxs2 : list nat) :
  ascending idxs -> ascending idxs2 ->
  (forall j, In j idxs2 -> (j < length idxs)%nat) ->
  ascending (map (fun j => nth j idxs 0%nat) idxs2).
Proof.
  intros Ha Ha2 Hin k1 k2 i1 i2 Hk H1 H2.
  rewrite nth_error_map in H1, H2.
  destruct (nth_error idxs2 k1) as [j1|] eqn:E1; [| discriminate].
  destruct (nth_error idxs2 k2) as [j2|] eqn:E2; [| discriminate].
  simpl in H1, H2. inversion H1; inversion H2; subst.
  pose proof (Ha2 _ _ _ _ Hk E1 E2) as Hj.
  apply (Ha j1 j2); [assumption | |];
    apply nth_error_nth'; apply Hin; eapply nth_error_In; eassumption.
Qed.

(** The first largest cell of [map f l], for an ascending [l], is at the
    smallest index of [l] among those where [f] is largest. *)
Lemma first_max_map_ascending (f : nat -> R) (l : list nat) (k : nat) :
  ascending l -> first_max (map f l) k ->
  In (nth k l 0%nat) l /\
  forall i', In i' l ->
    f i' <= f (nth k l 0%nat) /\
    ((i' < nth k l 0)%nat -> f i' < f (nth k l 0%nat)).
Proof.
  intros Hasc Hfm.
  pose proof (first_max_in_range _ _ Hfm) as Hk. rewrite length_map in Hk.
  destruct Hfm as (m & Hm & Hall & Hbefore).
  pose proof (nth_error_nth' l 0%nat Hk) as Hik.
  rewrite nth_error_map, Hik in Hm. simpl in Hm. inversion Hm; subst m.
  split; [eapply nth_error_In; eassumption |].
  intros i' Hin. apply In_nth_error in Hin. destruct Hin as (k' & Hk').
  assert (Hfk' : nth_error (map f l) k' = Some (f i'))
    by (rewrite nth_error_map, Hk'; reflexivity).
  split; [eapply Hall; eassumption |].
  intros Hlt. apply (Hbefore k'); [| assumption].
  destruct (Nat.lt_trichotomy k' k) as [Hc | [Hc | Hc]]; [assumption | |].
  - subst k'. rewrite Hik in Hk'. inversion Hk'. lia.
  - pose proof (Hasc _ _ _ _ Hc Hik Hk'). lia.
Qed.

(** ** [find_p_core] fills an array of the length of its candidates *)

Lemma for_loop_preserves {S : Type} (P : S -> Prop)
  (body : nat -> S -> result S) :
  (forall i st st', body i st = Ret st' -> P st -> P st') ->
  forall range st st',
    for_loop body range st = Ret st' -> P st -> P st'.
Proof.
  intros Hbody. induction range as [|i range IH]; intros st st' H HP;
    simpl in H.
  - inversion H; subst. assumption.
  - bind_inv H. eapply IH; [eassumption |]. eapply Hbody; eassumption.
Qed.

Lemma find_p_core_length data possible_xmins possible_xmaxs pruns dfn gens
  ps :
  find_p_core data possible_xmins possible_xmaxs pruns dfn gens = Ret ps ->
  length ps = length possible_xmins.
Proof.
  unfold find_p_core. intros H.
  apply (for_loop_preserves
           (fun a => length a = length possible_xmins) _) in H.
  - assumption.
  - intros i st st' Hb Hl. unfold find_p_core_body in Hb.
    bind_inv Hb. bind_inv Hb. bind_inv Hb.
    apply set_item_ret in Hb. destruct Hb as (_ & Hb & _). congruence.
  - apply repeat_length.
Qed.

Lemma refine_ps_length cfg data possible_xmins possible_xmaxs possible_pqs
  pruns calc_p gens ps :
  length possible_xmins = length possible_pqs ->
  refine_ps cfg data possible_xmins possible_xmaxs possible_pqs pruns calc_p
    gens = Ret ps ->
  length ps = length possible_pqs.
Proof.
  intros Hl. unfold refine_ps. destruct calc_p; intros H.
  - apply find_p_core_length in H. congruence.
  - inversion H; reflexivity.
Qed.


(** ** The choice (lines 238-295) *)

Lemma possible_arrays b runs pqcrit :
  batch_len b runs ->
  let idxs := np_where_gt (attempted_pqs b) pqcrit in
  (forall i, In i idxs -> (i < runs)%nat) /\
  take_idx (attempted_xmins b) idxs
    = Ret (map (fun i => nth i (attempted_xmins b) 0) idxs) /\
  take_idx (attempted_xmaxs b) idxs
    = Ret (map (fun i => nth i (attempted_xmaxs b) 0) idxs) /\
  take_idx (attempted_alphas b) idxs
    = Ret (map (fun i => nth i (attempted_alphas b) 0) idxs) /\
  take_idx (attempted_pqs b) idxs
    = Ret (map (fun i => nth i (attempted_pqs b) 0) idxs).
Proof.
  intros (L1 & L2 & L3 & L4 & L5 & L6) idxs.
  assert (Hin : forall i, In i idxs -> (i < runs)%nat).
  { intros i Hi. apply np_where_gt_in_range in Hi. lia. }
  split; [assumption |].
  repeat split; apply take_idx_in_range; intros i Hi; apply Hin in Hi; lia.
Qed.

Lemma true_ps_refine cfg data b runs pqcrit pruns calc_p gens :
  batch_len b runs ->
  let idxs := np_where_gt (attempted_pqs b) pqcrit in
  true_ps cfg data b pqcrit pruns calc_p gens
  = refine_ps cfg data
      (map (fun i => nth i (attempted_xmins b) 0) idxs)
      (map (fun i => nth i (attempted_xmaxs b) 0) idxs)
      (map (fun i => nth i (attempted_pqs b) 0) idxs) pruns calc_p gens.
Proof.
  intros Hlen idxs.
  destruct (possible_arrays b runs pqcrit Hlen) as (_ & H1 & H2 & _ & H4).
  unfold true_ps. fold idxs. fold idxs in H1, H2, H4.
  rewrite H1, H2, H4. reflexivity.
Qed.

Lemma true_ps_length cfg data b runs pqcrit pruns calc_p gens ps :
  batch_len b runs ->
  true_ps cfg data b pqcrit pruns calc_p gens = Ret ps ->
  length ps = length (np_where_gt (attempted_pqs b) pqcrit).
Proof.
  intros Hlen H. rewrite (true_ps_refine _ _ _ _ _ _ _ _ Hlen) in H.
  apply refine_ps_length in H; rewrite !length_map in *; auto.
Qed.

(** Without the second filter the p-values are the approximate ones. *)
Lemma true_ps_no_calc cfg data b runs pqcrit pruns gens :
  batch_len b runs ->
  true_ps cfg data b pqcrit pruns false gens
  = Ret (map (fun i => nth i (attempted_pqs b) 0)
           (np_where_gt (attempted_pqs b) pqcrit)).
Proof.
  intros Hlen. rewrite (true_ps_refine _ _ _ _ _ _ _ _ Hlen). reflexivity.
Qed.

Lemma length_zero_eqb {A : Type} (l : list A) :
  (length l =? 0)%nat = match l with [] => true | _ => false end.
Proof. destruct l; reflexivity. Qed.

Lemma get_nth (a : list R) (i : nat) :
  (i < length a)%nat -> get a i = Ret (nth i a 0).
Proof.
  intros Hi. unfold get. rewrite (nth_error_nth' a 0 Hi). reflexivity.
Qed.

(** No trial passes [pqcrit]: the first largest cell of [attempted_pqs]. *)
Lemma select_no_candidate cfg data b runs pqcrit pcrit pruns calc_p gens :
  batch_len b runs -> (0 < runs)%nat ->
  np_where_gt (attempted_pqs b) pqcrit = [] ->
  exists i,
    first_max (attempted_pqs b) i /\
    select cfg data b pqcrit pcrit pruns calc_p gens = Ret (answer b i).
Proof.
  intros Hlen Hruns Hnone.
  pose proof Hlen as (L1 & L2 & L3 & L4 & L5 & L6).
  assert (Hne : attempted_pqs b <> [])
    by (intros E; rewrite E in L5; simpl in L5; lia).
  destruct (np_argmax_first_max _ Hne) as (i & Harg & Hmax).
  exists i. split; [assumption |].
  pose proof (first_max_in_range _ _ Hmax) as Hi.
  unfold select. cbv zeta. rewrite Hnone. cbn [length Nat.eqb].
  rewrite Harg. cbn [bind].
  rewrite !get_nth by lia. reflexivity.
Qed.

(** An empty batch has no largest cell: [np.argmax] raises. *)
Lemma select_empty_batch cfg data b pqcrit pcrit pruns calc_p gens :
  batch_len b 0 ->
  select cfg data b pqcrit pcrit pruns calc_p gens = Raise ValueError.
Proof.
  intros (_ & _ & _ & _ & L5 & _).
  destruct (attempted_pqs b) as [|v l] eqn:E; [| discriminate].
  unfold select. cbv zeta. rewrite E. reflexivity.
Qed.

(** Candidates pass [pqcrit], none passes [pcrit]: the first largest cell
    of [possible_ps]. *)
Lemma select_no_survivor cfg data b runs pqcrit pcrit pruns calc_p gens ps :
  batch_len b runs ->
  np_where_gt (attempted_pqs b) pqcrit <> [] ->
  true_ps cfg data b pqcrit pruns calc_p gens = Ret ps ->
  np_where_gt ps pcrit = [] ->
  exists j i,
    first_max ps j /\
    nth_error (np_where_gt (attempted_pqs b) pqcrit) j = Some i /\
    select cfg data b pqcrit pcrit pruns calc_p gens = Ret (answer b i).
Proof.
  intros Hlen Hsome Htrue Hnone.
  pose proof (true_ps_length _ _ _ _ _ _ _ _ _ Hlen Htrue) as Hpl.
  rewrite (true_ps_refine _ _ _ _ _ _ _ _ Hlen) in Htrue.
  destruct (possible_arrays b runs pqcrit Hlen)
    as (Hin & H1 & H2 & H3 & H4).
  cbv zeta in *.
  set (idxs := np_where_gt (attempted_pqs b) pqcrit) in *.
  assert (Hne : ps <> []).
  { intros E. rewrite E in Hpl. simpl in Hpl.
    destruct idxs; [congruence | discriminate]. }
  destruct (np_argmax_first_max _ Hne) as (j & Harg & Hmax).
  pose proof (first_max_in_range _ _ Hmax) as Hj. rewrite Hpl in Hj.
  exists j, (nth j idxs 0%nat).
  split; [assumption |]. split; [apply nth_error_nth'; assumption |].
  unfold select. cbv zeta. fold idxs.
  rewrite length_zero_eqb. destruct idxs as [|i0 idxs'] eqn:Eidxs;
    [congruence |].
  rewrite <- Eidxs in *. rewrite H1, H2, H3, H4. cbn [bind].
  rewrite Htrue. cbn [bind]. rewrite Hnone. cbn [length Nat.eqb].
  rewrite Harg. cbn [bind].
  rewrite !get_nth by (rewrite ?length_map; lia). cbn [bind].
  unfold answer.
  rewrite !(nth_map_in_range _ _ _ 0%nat) by assumption. reflexivity.
Qed.

(** Trials pass both filters: the first largest cell of their ratios. *)
Lemma select_survivors cfg data b runs pqcrit pcrit pruns calc_p gens ps :
  batch_len b runs ->
  true_ps cfg data b pqcrit pruns calc_p gens = Ret ps ->
  np_where_gt ps pcrit <> [] ->
  let surv :=
    map (fun j => nth j (np_where_gt (attempted_pqs b) pqcrit) 0%nat)
      (np_where_gt ps pcrit) in
  exists k,
    first_max (map (ratio b) surv) k /\
    select cfg data b pqcrit pcrit pruns calc_p gens
      = Ret (answer b (nth k surv 0%nat)).
Proof.
  intros Hlen Htrue Hsome surv.
  pose proof (true_ps_length _ _ _ _ _ _ _ _ _ Hlen Htrue) as Hpl.
  rewrite (true_ps_refine _ _ _ _ _ _ _ _ Hlen) in Htrue.
  destruct (possible_arrays b runs pqcrit Hlen)
    as (Hin & H1 & H2 & H3 & H4).
  cbv zeta in *.
  set (idxs := np_where_gt (attempted_pqs b) pqcrit) in *.
  set (idxs2 := np_where_gt ps pcrit) in *.
  assert (Hin2 : forall j, In j idxs2 -> (j < length idxs)%nat).
  { intros j Hj. apply np_where_gt_in_range in Hj. lia. }
  assert (Hidxs : idxs <> []).
  { intros E. destruct idxs2 as [|j l] eqn:E2; [congruence |].
    specialize (Hin2 j (or_introl eq_refl)). rewrite E in Hin2.
    simpl in Hin2. lia. }
  assert (Htake : forall (X : list R),
            take_idx (map (fun i => nth i X 0) idxs) idxs2
            = Ret (map (fun i => nth i X 0) surv)).
  { intros X. rewrite take_idx_in_range
      by (intros j Hj; rewrite length_map; apply Hin2; assumption).
    unfold surv. fold idxs idxs2. rewrite map_map. f_equal.
    apply map_ext_in. intros j Hj.
    apply (nth_map_in_range (fun i => nth i X 0) idxs j 0%nat 0).
    apply Hin2. assumption. }
  assert (Hne : map (ratio b) surv <> []).
  { unfold surv. fold idxs idxs2.
    destruct idxs2; [congruence | discriminate]. }
  destruct (np_argmax_first_max _ Hne) as (k & Harg & Hmax).
  pose proof (first_max_in_range _ _ Hmax) as Hk.
  rewrite length_map in Hk.
  assert (Hk2 : (k < length idxs2)%nat)
    by (unfold surv in Hk; rewrite length_map in Hk; exact Hk).
  exists k. split; [assumption |].
  unfold select. cbv zeta. fold idxs.
  rewrite length_zero_eqb. destruct idxs as [|i0 idxs'] eqn:Eidxs;
    [congruence |].
  rewrite <- Eidxs in *. rewrite H1, H2, H3, H4. cbn [bind].
  rewrite Htrue. cbn [bind]. fold idxs2.
  rewrite length_zero_eqb. destruct idxs2 as [|j0 idxs2'] eqn:Eidxs2;
    [congruence |].
  rewrite <- Eidxs2 in *.
  rewrite !Htake. cbn [bind].
  rewrite take_idx_in_range by (intros j Hj; rewrite Hpl; auto).
  cbn [bind]. unfold np_divide. rewrite !length_map, Nat.eqb_refl.
  cbn [bind]. rewrite div_cells_map. fold (ratio b) in *.
  change (fun i => nth i (attempted_xmaxs b) 0 / nth i (attempted_xmins b) 0)
    with (ratio b).
  rewrite Harg. cbn [bind].
  rewrite !get_nth by (rewrite ?length_map; lia). cbn [bind].
  unfold answer.
  rewrite !(nth_map_in_range _ _ _ 0%nat) by assumption. reflexivity.
Qed.


Lemma np_where_gt_nil (a : list R) (c : R) :
  np_where_gt a c = [] <->
  (forall i v, nth_error a i = Some v -> ~ v > c).
Proof.
  split.
  - intros Hnil i v Hi Hgt.
    assert (Hin : In i (np_where_gt a c))
      by (apply np_where_gt_spec; eauto).
    rewrite Hnil in Hin. destruct Hin.
  - intros Hnone. destruct (np_where_gt a c) as [|i l] eqn:E;
      [reflexivity |].
    assert (Hin : In i (np_where_gt a c)) by (rewrite E; left; reflexivity).
    apply np_where_gt_spec in Hin. destruct Hin as (v & Hv & Hgt).
    exfalso. eapply Hnone; eassumption.
Qed.

(** The survivors are the trials at the positions the second filter keeps. *)
Lemma survivor_in_surv b pqcrit ps pc i :
  length ps = length (np_where_gt (attempted_pqs b) pqcrit) ->
  survivor b pqcrit ps pc i <->
  In i (map (fun j => nth j (np_where_gt (attempted_pqs b) pqcrit) 0%nat)
          (np_where_gt ps pc)).
Proof.
  intros Hpl. unfold survivor. rewrite in_map_iff. split.
  - intros (j & p & Hj & Hp & Hgt). exists j. split.
    + apply (nth_error_nth _ _ 0%nat Hj).
    + apply np_where_gt_spec. eauto.
  - intros (j & Hj & Hin). apply np_where_gt_spec in Hin.
    destruct Hin as (p & Hp & Hgt). exists j, p.
    split; [| split; assumption].
    rewrite <- Hj. apply nth_error_nth'. rewrite <- Hpl.
    apply nth_error_Some. congruence.
Qed.

(** Without the second filter, the survivors are the trials whose
    approximate p-value exceeds [pqcrit]. *)
Lemma survivor_no_calc b runs pqcrit i :
  batch_len b runs ->
  let ps :=
    map (fun i => nth i (attempted_pqs b) 0)
      (np_where_gt (attempted_pqs b) pqcrit) in
  survivor b pqcrit ps pqcrit i <->
  exists q, nth_error (attempted_pqs b) i = Some q /\ q > pqcrit.
Proof.
  intros Hlen ps. unfold survivor. split.
  - intros (j & p & Hj & _ & _). apply nth_error_In in Hj.
    apply np_where_gt_spec. assumption.
  - intros (q & Hq & Hgt).
    assert (Hin : In i (np_where_gt (attempted_pqs b) pqcrit))
      by (apply np_where_gt_spec; eauto).
    apply In_nth_error in Hin. destruct Hin as (j & Hj).
    exists j, q. split; [assumption |]. split; [| assumption].
    unfold ps. rewrite nth_error_map, Hj. simpl. f_equal.
    apply (nth_error_nth _ _ 0 Hq).
Qed.

(** C1. When the call reaches the choice with the p-values [ps] of its
    candidates and some trial passes both filters, it returns
    [(xmin, xmax, alpha)] of a trial [i] that passed both, with the largest
    [xmax/xmin] among those that passed and the smallest index among these;
    with [calc_p] false the trials that passed are the trials with
    [attempted_pqs > pqcrit]. *)
Theorem widest_survivor_is_returned fuel h s gens x runs pqcrit pcrit pruns
  dist_type calc_p cfg data b ps :
  sweeps_to fuel h s x runs dist_type cfg data b ->
  let pc := final_pcrit pqcrit pcrit calc_p in
  true_ps cfg data b pqcrit pruns calc_p gens = Ret ps ->
  (exists i, survivor b pqcrit ps pc i) ->
  exists i,
    survivor b pqcrit ps pc i /\
    out_value
      (find_pl_montecarlo fuel h s gens x runs pqcrit pcrit pruns dist_type
         calc_p)
    = Ret (VTuple [nth i (attempted_xmins b) 0; nth i (attempted_xmaxs b) 0;
                   nth i (attempted_alphas b) 0]) /\
    (forall i', survivor b pqcrit ps pc i' ->
       ratio b i' <= ratio b i /\ ((i' < i)%nat -> ratio b i' < ratio b i)) /\
    (calc_p = false ->
     pc = pqcrit /\
     forall i', survivor b pqcrit ps pc i' <->
       exists q, nth_error (attempted_pqs b) i' = Some q /\ q > pqcrit).
Proof.
  intros Hsw pc Htrue (i0 & Hi0).
  rewrite (find_pl_montecarlo_select _ _ _ gens _ _ pqcrit pcrit pruns _
             calc_p _ _ _ Hsw).
  fold pc.
  destruct (sweeps_to_batch _ _ _ _ _ _ _ _ _ Hsw) as [Hlen _].
  pose proof (true_ps_length _ _ _ _ _ _ _ _ _ Hlen Htrue) as Hpl.
  assert (Hsome : np_where_gt ps pc <> []).
  { apply (survivor_in_surv _ _ _ _ _ Hpl) in Hi0.
    intros E. rewrite E in Hi0. destruct Hi0. }
  destruct (select_survivors cfg data b runs pqcrit pc pruns calc_p gens ps
              Hlen Htrue Hsome) as (k & Hmax & Hsel).
  cbv zeta in Hmax, Hsel.
  set (surv := map _ (np_where_gt ps pc)) in *.
  assert (Hasc : ascending surv).
  { apply ascending_compose; try apply np_where_gt_ascending.
    intros j Hj. apply np_where_gt_in_range in Hj. lia. }
  destruct (first_max_map_ascending _ _ _ Hasc Hmax) as (Hin & Hbest).
  exists (nth k surv 0%nat).
  split; [apply (survivor_in_surv _ _ _ _ _ Hpl); assumption |].
  split; [exact Hsel |]. split.
  - intros i' Hi'. apply Hbest.
    apply (survivor_in_surv _ _ _ _ _ Hpl). assumption.
  - intros ->. split; [reflexivity |]. intros i'.
    rewrite (true_ps_no_calc _ _ _ _ _ _ _ Hlen) in Htrue.
    inversion Htrue; subst ps. apply (survivor_no_calc b runs). assumption.
Qed.

(** C4, for a batch that is not empty.  When the call reaches the choice
    with [runs >= 1] and no trial has [attempted_pqs > pqcrit], it returns
    [(xmin, xmax, alpha)] of the trial at the first largest cell of
    [attempted_pqs]; when some trials have, their p-values are [ps] and none
    of these exceeds the final [pcrit], it returns the trial at the first
    largest cell of [ps] among them. *)
Theorem empty_candidate_set_fallbacks fuel h s gens x runs pqcrit pcrit pruns
  dist_type calc_p cfg data b :
  sweeps_to fuel h s x runs dist_type cfg data b ->
  let pc := final_pcrit pqcrit pcrit calc_p in
  let call :=
    find_pl_montecarlo fuel h s gens x runs pqcrit pcrit pruns dist_type
      calc_p in
  ((1 <= runs)%nat ->
   (forall i q, nth_error (attempted_pqs b) i = Some q -> ~ q > pqcrit) ->
   exists i,
     first_max (attempted_pqs b) i /\
     out_value call
     = Ret (VTuple [nth i (attempted_xmins b) 0; nth i (attempted_xmaxs b) 0;
                    nth i (attempted_alphas b) 0])) /\
  (forall ps,
     (exists i q, nth_error (attempted_pqs b) i = Some q /\ q > pqcrit) ->
     true_ps cfg data b pqcrit pruns calc_p gens = Ret ps ->
     (forall j p, nth_error ps j = Some p -> ~ p > pc) ->
     exists j i,
       first_max ps j /\
       nth_error (np_where_gt (attempted_pqs b) pqcrit) j = Some i /\
       out_value call
       = Ret (VTuple [nth i (attempted_xmins b) 0;
                      nth i (attempted_xmaxs b) 0;
                      nth i (attempted_alphas b) 0])).
Proof.
  intros Hsw pc call. unfold call.
  rewrite (find_pl_montecarlo_select _ _ _ gens _ _ pqcrit pcrit pruns _
             calc_p _ _ _ Hsw).
  fold pc.
  destruct (sweeps_to_batch _ _ _ _ _ _ _ _ _ Hsw) as [Hlen _].
  split.
  - intros Hruns Hnone. apply np_where_gt_nil in Hnone.
    apply (select_no_candidate cfg data b runs); assumption || lia.
  - intros ps (i & q & Hq & Hgt) Htrue Hnone.
    apply np_where_gt_nil in Hnone.
    apply (select_no_survivor cfg data b runs); try assumption.
    intros E. eapply (proj1 (np_where_gt_nil _ _) E); eassumption.
Qed.


(** ** The shape of [expfun] with 10 terms *)

(** C8, as the code has it.  [expfun(0) = 0]; from 0.6 on [expfun] never
    grows with its argument and lies between 0 and [2*exp(-2*x^2)], so that
    it tends to 0 for large arguments; it falls from 1 to 2, and
    [expfun(3) < 0.001]. *)
Theorem expfun10_decreases_to_zero :
  expfun10 0 = 0 /\
  (forall x y, 3 / 5 <= x -> x <= y -> expfun10 y <= expfun10 x) /\
  (forall x, 3 / 5 <= x -> 0 <= expfun10 x <= 2 * exp (-2 * x ^ 2)) /\
  (forall eps, 0 < eps ->
     exists X, forall x, X <= x -> Rabs (expfun10 x) < eps) /\
  expfun10 2 < expfun10 1 /\
  expfun10 3 < 0.001.
Proof.
  split; [apply expfun10_0 |].
  split; [apply expfun10_nonincreasing |].
  split; [apply expfun10_nonneg |].
  split; [apply expfun10_vanishes |].
  split; [apply expfun10_decreasing; lra | apply expfun10_3_small].
Qed.


(** * Further properties of the code *)

(** ** [expfun] for any number of terms (lines 15-21) *)

Lemma sum_1_to_ext (f g : nat -> R) (m : nat) :
  (forall i, (1 <= i <= m)%nat -> f i = g i) ->
  sum_1_to f m = sum_1_to g m.
Proof.
  induction m as [|m IH]; intros H; [reflexivity |]. simpl.
  rewrite IH by (intros i Hi; apply H; lia).
  rewrite (H (S m)) by lia. reflexivity.
Qed.

Lemma sum_1_to_shift (f : nat -> R) (m : nat) :
  sum_1_to f (S m) = f 1%nat + sum_1_to (fun i => f (S i)) m.
Proof.
  induction m as [|m IH]; [simpl; ring |].
  change (sum_1_to f (S (S m))) with (sum_1_to f (S m) + f (S (S m))).
  rewrite IH. simpl. ring.
Qed.

Lemma sum_1_to_opp (f : nat -> R) (m : nat) :
  sum_1_to (fun i => - f i) m = - sum_1_to f m.
Proof.
  induction m as [|m IH]; simpl; [ring |]. rewrite IH. ring.
Qed.

(** An alternating sum of terms that do not grow lies between 0 and its
    first term. *)
Lemma alternating_sum_bounds (m : nat) :
  forall a : nat -> R,
    (forall i, (1 <= i)%nat -> 0 <= a (S i) <= a i) ->
    0 <= sum_1_to (fun i => (-1) ^ (i - 1) * a i) m <= a 1%nat.
Proof.
  induction m as [|m IH]; intros a Ha.
  - simpl. pose proof (Ha 1%nat (le_n 1)). lra.
  - rewrite sum_1_to_shift.
    assert (Hshift :
      sum_1_to (fun i => (-1) ^ (S i - 1) * a (S i)) m
      = - sum_1_to (fun i => (-1) ^ (i - 1) * a (S i)) m).
    { rewrite <- sum_1_to_opp. apply sum_1_to_ext. intros i Hi.
      replace (S i - 1)%nat with (S (i - 1)) by lia. simpl. ring. }
    rewrite Hshift.
    pose proof (IH (fun i => a (S i)) (fun i Hi => Ha (S i) ltac:(lia)))
      as Hrec.
    cbv beta in Hrec.
    pose proof (Ha 1%nat (le_n 1)).
    change ((-1) ^ (1 - 1)) with 1. lra.
Qed.

Lemma expfun_range (x : R) (numterms : nat) :
  0 <= expfun x numterms <= 2 * exp (-2 * x ^ 2) /\ expfun x numterms <= 2.
Proof.
  rewrite expfun_sum.
  pose proof (alternating_sum_bounds numterms
                (fun i => exp (-2 * INR i ^ 2 * x ^ 2))) as H.
  cbv beta in H.
  assert (Hdec : forall i, (1 <= i)%nat ->
            0 <= exp (-2 * INR (S i) ^ 2 * x ^ 2)
              <= exp (-2 * INR i ^ 2 * x ^ 2)).
  { intros i Hi. split; [left; apply exp_pos |].
    assert (Hle : -2 * INR (S i) ^ 2 * x ^ 2 <= -2 * INR i ^ 2 * x ^ 2).
    { rewrite S_INR. pose proof (pos_INR i). pose proof (pow2_ge_0 x).
      nra. }
    destruct Hle as [Hlt | Heq];
      [left; apply exp_increasing; assumption | rewrite Heq; lra]. }
  specialize (H Hdec).
  replace (-2 * INR 1 ^ 2 * x ^ 2) with (-2 * x ^ 2) in H by (simpl; ring).
  assert (Hone : exp (-2 * x ^ 2) <= 1).
  { rewrite <- exp_0. pose proof (pow2_ge_0 x).
    destruct (Req_dec (x ^ 2) 0) as [Hz | Hnz].
    - rewrite Hz. replace (-2 * 0) with 0 by ring. lra.
    - left. apply exp_increasing. lra. }
  lra.
Qed.

(** X1. For every argument and every number of terms, [expfun] lies
    between 0 and [2*exp(-2*x^2)], hence between 0 and 2. *)
Theorem expfun_between_0_and_2 (x : R) (numterms : nat) :
  0 <= expfun x numterms <= 2 * exp (-2 * x ^ 2) /\ expfun x numterms <= 2.
Proof. apply expfun_range. Qed.

Lemma alternating_ones (m : nat) :
  sum_1_to (fun i => (-1) ^ (i - 1)) m = (1 - (-1) ^ m) / 2.
Proof.
  induction m as [|m IH]; [simpl; lra |].
  change (sum_1_to (fun i => (-1) ^ (i - 1)) (S m))
    with (sum_1_to (fun i => (-1) ^ (i - 1)) m + (-1) ^ (S m - 1)).
  rewrite IH. replace (S m - 1)%nat with m by lia. simpl. lra.
Qed.

(** X2. At 0 every term of the sum is [+1] or [-1]: [expfun(0, numterms)]
    is 0 for an even number of terms, the default 10 among them, and 2 for
    an odd one. *)
Theorem expfun_at_zero (numterms : nat) :
  expfun 0 numterms = if Nat.even numterms then 0 else 2.
Proof.
  rewrite expfun_sum.
  rewrite (sum_1_to_ext _ (fun i => (-1) ^ (i - 1))).
  - rewrite alternating_ones.
    destruct (Nat.even numterms) eqn:E.
    + apply Nat.even_spec in E. destruct E as (k & ->).
      rewrite pow_1_even. lra.
    + assert (Hodd : Nat.odd numterms = true)
        by (rewrite <- Nat.negb_even, E; reflexivity).
      apply Nat.odd_spec in Hodd. destruct Hodd as (k & ->).
      replace (2 * k + 1)%nat with (S (2 * k)) by lia.
      rewrite pow_1_odd. lra.
  - intros i _. replace (-2 * INR i ^ 2 * 0 ^ 2) with 0 by ring.
    rewrite exp_0. ring.
Qed.

(** ** The approximate p-value as a function of the distance (230-231) *)

(** X3. For a sample of [n >= 1] points, a larger distance never gives a
    larger approximate p-value, once the argument handed to [expfun] is at
    least 0.6. *)
Theorem approx_pq_never_grows_with_distance (n : nat) (d1 d2 : R) :
  (1 <= n)%nat -> d1 <= d2 ->
  3 / 5 <= d1 * sqrt (INR n) + 0.17 / sqrt (INR n)
           + (d1 * sqrt (INR n) - 1) / (4 * INR n) ->
  approx_pq d2 n <= approx_pq d1 n.
Proof.
  intros Hn Hd Harg. unfold approx_pq. cbv zeta.
  assert (Hr : 1 <= INR n) by (apply (le_INR 1); assumption).
  assert (Hs : 0 < sqrt (INR n)) by (apply sqrt_lt_R0; lra).
  assert (Hz : d1 * sqrt (INR n) <= d2 * sqrt (INR n))
    by (apply Rmult_le_compat_r; [left |]; assumption).
  apply expfun10_nonincreasing; [assumption |].
  assert (Hq : (d1 * sqrt (INR n) - 1) / (4 * INR n)
               <= (d2 * sqrt (INR n) - 1) / (4 * INR n)).
  { apply Rmult_le_compat_r; [left; apply Rinv_0_lt_compat; lra | lra]. }
  lra.
Qed.


(** ** What a finished sweep recorded and read (lines 198-235) *)

Lemma slice_length (a : list R) (i j : nat) :
  (j < length a)%nat -> length (slice a i (j + 1)) = (j + 1 - i)%nat.
Proof.
  intros Hj. unfold slice. rewrite length_firstn, length_skipn. lia.
Qed.

(** X4. In the batch of a sweep that ended, cell [i] of [attempted_ns] is
    [xmax_idx - xmin_idx + 1] for the indices of the trial, which lie in the
    data: every recorded sample size is at least 11 and at most the number
    of data. *)
Theorem recorded_sample_size cfg data log_xmin log_range fuel runs s b s' i :
  trial_sweep cfg data log_xmin log_range fuel runs s = Ret (b, s') ->
  (i < runs)%nat ->
  exists xmin_idx xmax_idx,
    nth_error (attempted_xmins b) i = nth_error data xmin_idx /\
    nth_error (attempted_xmaxs b) i = nth_error data xmax_idx /\
    (xmin_idx + 10 <= xmax_idx < length data)%nat /\
    nth_error (attempted_ns b) i = Some (INR (xmax_idx - xmin_idx + 1)) /\
    (11 <= xmax_idx - xmin_idx + 1 <= length data)%nat.
Proof.
  intros Hsweep Hi.
  destruct (trial_sweep_spec _ _ _ _ _ _ _ _ _ Hsweep) as [_ Hcells].
  destruct (Hcells i Hi) as (t & [Hmin Hmax] & Hacc & Hcell).
  apply rejected_false in Hacc. destruct Hacc as [Hidx _].
  unfold cell, recorded in Hcell. injection Hcell as Hx HX _ Hn _ _.
  assert (Hlt : (trial_xmax_idx t < length data)%nat)
    by (apply nth_error_Some; congruence).
  exists (trial_xmin_idx t), (trial_xmax_idx t).
  split; [congruence |]. split; [congruence |]. split; [lia |].
  split; [| lia].
  rewrite Hn. unfold trimmed_of. rewrite slice_length by assumption.
  do 2 f_equal. lia.
Qed.

(** X5. In the batch of a sweep that ended, every cell of [attempted_pqs]
    lies between 0 and 2. *)
Theorem recorded_pq_range cfg data log_xmin log_range fuel runs s b s' i q :
  trial_sweep cfg data log_xmin log_range fuel runs s = Ret (b, s') ->
  nth_error (attempted_pqs b) i = Some q ->
  0 <= q <= 2.
Proof.
  intros Hsweep Hq.
  destruct (trial_sweep_spec _ _ _ _ _ _ _ _ _ Hsweep)
    as [(_ & _ & _ & _ & L5 & _) Hcells].
  assert (Hi : (i < runs)%nat)
    by (rewrite <- L5; apply nth_error_Some; congruence).
  destruct (Hcells i Hi) as (t & _ & _ & Hcell).
  unfold cell, recorded in Hcell. injection Hcell as _ _ _ _ Hpq _.
  rewrite Hq in Hpq. injection Hpq as ->.
  unfold approx_pq, expfun10. cbv zeta.
  match goal with
  | |- 0 <= expfun ?z 10 <= 2 => pose proof (expfun_range z 10)
  end.
  lra.
Qed.

Lemma draw_trial_cursor cfg data log_xmin log_range s t s' :
  draw_trial cfg data log_xmin log_range s = Ret (t, s') -> s' = S (S s).
Proof. intros H. apply draw_trial_ret in H. apply H. Qed.

Lemma redraw_cursor cfg data log_xmin log_range fuel :
  forall t s t' s',
    redraw cfg data log_xmin log_range fuel t s = Ret (t', s') ->
    exists k, s' = (s + 2 * k)%nat.
Proof.
  induction fuel as [|fuel IH]; intros t s t' s' H; simpl in H.
  - destruct (rejected t); [discriminate |].
    inversion H; subst. exists 0%nat. lia.
  - destruct (rejected t).
    + bind_inv H. destruct r as [t1 s1].
      apply draw_trial_cursor in Hr. subst s1. cbn [fst snd] in H.
      destruct (IH _ _ _ _ H) as (k & ->). exists (S k). lia.
    + inversion H; subst. exists 0%nat. lia.
Qed.

Lemma trial_loop_cursor cfg data log_xmin log_range fuel m :
  forall k b0 s0 b s,
    for_loop (trial_body cfg data log_xmin log_range fuel) (seq k m) (b0, s0)
      = Ret (b, s) ->
    exists j, s = (s0 + 2 * m + 2 * j)%nat.
Proof.
  induction m as [|m IH]; intros k b0 s0 b s H; simpl in H.
  - inversion H; subst. exists 0%nat. lia.
  - bind_inv H. destruct r as [b1 s1].
    unfold trial_body in Hr. simpl in Hr.
    bind_inv Hr. destruct r as [t s2].
    bind_inv Hr. inversion Hr; subst; clear Hr.
    unfold generate_trial in Hr0. bind_inv Hr0. destruct r as [t0 s3].
    apply draw_trial_cursor in Hr. subst s3. cbn [fst snd] in Hr0.
    apply redraw_cursor in Hr0. destruct Hr0 as (j1 & Hj1).
    destruct (IH _ _ _ _ _ H) as (j2 & ->).
    exists (j1 + j2)%nat. simpl. lia.
Qed.

(** X6. A sweep that ended read the random tape two numbers at a time, two
    for each of the [runs] trials and two for each rejected draw: the cursor
    moved by [2*runs + 2*k] for some [k]. *)
Theorem sweep_reads_tape_in_pairs cfg data log_xmin log_range fuel runs s b
  s' :
  trial_sweep cfg data log_xmin log_range fuel runs s = Ret (b, s') ->
  exists k, s' = (s + 2 * runs + 2 * k)%nat.
Proof. unfold trial_sweep. apply trial_loop_cursor. Qed.


(** ** [find_true_p] and its error bar (lines 46-69) *)

Lemma true_p_of_range x xmin xmax runs dfn g :
  (1 <= runs)%nat -> 0 <= true_p_of x xmin xmax runs dfn g <= 1.
Proof.
  intros Hruns. unfold true_p_of. cbv zeta.
  match goal with
  | |- 0 <= INR ?c / _ <= 1 =>
      assert (Hc : 0 <= INR c <= INR runs)
        by (split; [apply pos_INR | apply le_INR, worse_count_le]);
      set (count := c) in *
  end.
  assert (Hr : 1 <= INR runs) by (apply (le_INR 1); assumption).
  split.
  - apply Rmult_le_pos; [lra |]. left. apply Rinv_0_lt_compat. lra.
  - apply Rmult_le_reg_r with (INR runs); [lra |].
    unfold Rdiv. rewrite Rmult_assoc, Rinv_l by lra. lra.
Qed.

Lemma find_true_p_closed x xmin xmax runs dfn g :
  (1 <= runs)%nat ->
  exists g',
    find_true_p x xmin xmax runs dfn g
    = Ret (true_p_of x xmin xmax runs dfn g,
           sqrt (true_p_of x xmin xmax runs dfn g
                 * (1 - true_p_of x xmin xmax runs dfn g) / INR runs),
           g').
Proof.
  intros Hruns. unfold find_true_p, true_p_of. cbv zeta.
  rewrite synth_loop_count.
  destruct runs as [|runs]; [lia |]. eexists. reflexivity.
Qed.

Lemma find_true_p_zero_runs x xmin xmax dfn g :
  find_true_p x xmin xmax 0 dfn g = Raise ZeroDivisionError.
Proof. reflexivity. Qed.

Lemma half_inv_sqrt (r : R) :
  0 < r -> sqrt (1 / (4 * r)) = 1 / (2 * sqrt r).
Proof.
  intros Hr. assert (Hs : 0 < sqrt r) by (apply sqrt_lt_R0; assumption).
  apply sqrt_lem_1.
  - apply Rmult_le_pos; [lra |]. left. apply Rinv_0_lt_compat. lra.
  - apply Rmult_le_pos; [lra |]. left. apply Rinv_0_lt_compat. lra.
  - replace (1 / (2 * sqrt r) * (1 / (2 * sqrt r)))
      with (1 / (4 * (sqrt r * sqrt r))) by (field; lra).
    rewrite sqrt_sqrt by lra. reflexivity.
Qed.

(** X7. For [runs >= 1] the [sigma_p] that [find_true_p] returns squares to
    [p*(1-p)/runs], is at most [1/(2*sqrt(runs))], and is 0 exactly when [p]
    is 0 or 1. *)
Theorem find_true_p_error_bar x xmin xmax runs dfn g :
  (1 <= runs)%nat ->
  exists p sigp g',
    find_true_p x xmin xmax runs dfn g = Ret (p, sigp, g') /\
    sigp * sigp = p * (1 - p) / INR runs /\
    sigp <= 1 / (2 * sqrt (INR runs)) /\
    (sigp = 0 <-> p = 0 \/ p = 1).
Proof.
  intros Hruns.
  destruct (find_true_p_closed x xmin xmax runs dfn g Hruns) as (g' & Hret).
  pose proof (true_p_of_range x xmin xmax runs dfn g Hruns) as Hp.
  set (p := true_p_of x xmin xmax runs dfn g) in *.
  assert (Hr : 1 <= INR runs) by (apply (le_INR 1); assumption).
  assert (Hinv : 0 < / INR runs) by (apply Rinv_0_lt_compat; lra).
  assert (Hq : 0 <= p * (1 - p) / INR runs).
  { apply Rmult_le_pos; [nra | lra]. }
  exists p, (sqrt (p * (1 - p) / INR runs)), g'.
  split; [exact Hret |]. split; [apply sqrt_sqrt; assumption |]. split.
  - rewrite <- half_inv_sqrt by lra. apply sqrt_le_1_alt.
    assert (Hquarter : p * (1 - p) <= 1 / 4)
      by (pose proof (pow2_ge_0 (p - 1 / 2)); nra).
    replace (1 / (4 * INR runs)) with (1 / 4 * / INR runs) by (field; lra).
    apply Rmult_le_compat_r; lra.
  - split.
    + intros Hz. apply sqrt_eq_0 in Hz; [| assumption].
      assert (Hprod : p * (1 - p) = 0).
      { unfold Rdiv in Hz. apply Rmult_integral in Hz.
        destruct Hz as [Hz | Hz]; [assumption | lra]. }
      apply Rmult_integral in Hprod. destruct Hprod; [left | right]; lra.
    + intros [Hz | Hz]; rewrite Hz;
        [replace (0 * (1 - 0) / INR runs) with 0 by (unfold Rdiv; ring)
        | replace (1 * (1 - 1) / INR runs) with 0 by (unfold Rdiv; ring)];
        apply sqrt_0.
Qed.


(** ** [find_p_core] (lines 72-83) *)

(** A loop whose iteration [i] stores [f i] in cell [i] fills the cells of
    its range and leaves the others. *)
Lemma for_loop_fills (n : nat) (f : nat -> R)
  (body : nat -> list R -> result (list R)) :
  (forall i a, (i < n)%nat -> length a = n ->
     body i a = set_item a i (f i)) ->
  forall m k a,
    (k + m <= n)%nat -> length a = n ->
    exists a',
      for_loop body (seq k m) a = Ret a' /\ length a' = n /\
      (forall i, (k <= i < k + m)%nat -> nth_error a' i = Some (f i)) /\
      (forall i, (i < k \/ k + m <= i)%nat ->
         nth_error a' i = nth_error a i).
Proof.
  intros Hbody. induction m as [|m IH]; intros k a Hk Hlen.
  - exists a. simpl. repeat split; try assumption; intros; lia.
  - simpl. rewrite Hbody by lia.
    destruct (set_item_in_range a k (f k) ltac:(lia)) as (a1 & Ha1).
    rewrite Ha1. cbn [bind].
    apply set_item_ret in Ha1. destruct Ha1 as (_ & Hl1 & Hn1 & Ho1).
    destruct (IH (S k) a1 ltac:(lia) ltac:(lia))
      as (a' & Hrun & Hl' & Hnew & Hold).
    exists a'. split; [assumption |]. split; [assumption |]. split.
    + intros i Hi. destruct (Nat.eq_dec i k) as [-> | Hne].
      * rewrite Hold by lia. assumption.
      * apply Hnew. lia.
    + intros i Hi. rewrite Hold by lia. apply Ho1. lia.
Qed.

Lemma find_p_core_body_stores data possible_xmins possible_xmaxs pruns dfn
  gens i a :
  (1 <= pruns)%nat ->
  length possible_xmaxs = length possible_xmins ->
  (i < length possible_xmins)%nat ->
  find_p_core_body data possible_xmins possible_xmaxs pruns dfn gens i a
  = set_item a i
      (candidate_p data possible_xmins possible_xmaxs pruns dfn gens i).
Proof.
  intros Hp Hlen Hi. unfold find_p_core_body, candidate_p. cbv zeta.
  rewrite !get_nth by lia. cbn [bind].
  match goal with
  | |- bind (find_true_p ?x ?a ?b _ _ ?g) _ = _ =>
      destruct (find_true_p_closed x a b pruns dfn g Hp) as (g' & ->)
  end.
  reflexivity.
Qed.

Lemma find_p_core_cells data possible_xmins possible_xmaxs pruns dfn gens :
  (1 <= pruns)%nat ->
  length possible_xmaxs = length possible_xmins ->
  exists ps,
    find_p_core data possible_xmins possible_xmaxs pruns dfn gens = Ret ps /\
    length ps = length possible_xmins /\
    forall i, (i < length possible_xmins)%nat ->
      nth_error ps i
      = Some (candidate_p data possible_xmins possible_xmaxs pruns dfn gens
                i).
Proof.
  intros Hp Hlen. unfold find_p_core. cbv zeta. rewrite repeat_length.
  destruct (for_loop_fills (length possible_xmins)
              (candidate_p data possible_xmins possible_xmaxs pruns dfn gens)
              (find_p_core_body data possible_xmins possible_xmaxs pruns dfn
                 gens)
              (fun i a Hi _ =>
                 find_p_core_body_stores data possible_xmins possible_xmaxs
                   pruns dfn gens i a Hp Hlen Hi)
              (length possible_xmins) 0%nat
              (repeat 0 (length possible_xmins)) ltac:(lia)
              (repeat_length 0 (length possible_xmins)))
    as (ps & Hrun & Hl & Hnew & _).
  exists ps. split; [assumption |]. split; [assumption |].
  intros i Hi. apply Hnew. lia.
Qed.

(** X8. With [pruns >= 1] and as many [possible_xmaxs] as [possible_xmins],
    [find_p_core] returns one p-value per candidate: cell [i] is the [p]
    that [find_true_p] returns for candidate [i] on the data between its
    nearest indices, from the generator state of iteration [i], and lies
    between 0 and 1. *)
Theorem find_p_core_one_p_per_candidate data possible_xmins possible_xmaxs
  pruns dfn gens :
  (1 <= pruns)%nat ->
  length possible_xmaxs = length possible_xmins ->
  exists ps,
    find_p_core data possible_xmins possible_xmaxs pruns dfn gens = Ret ps /\
    length ps = length possible_xmins /\
    forall i, (i < length possible_xmins)%nat ->
      let xmin := nth i possible_xmins 0 in
      let xmax := nth i possible_xmaxs 0 in
      let trimmed :=
        slice data (find_nearest_idx data xmin)
          (find_nearest_idx data xmax + 1) in
      exists p sigp g',
        nth_error ps i = Some p /\
        find_true_p trimmed xmin xmax pruns dfn (gens i)
          = Ret (p, sigp, g') /\
        0 <= p <= 1.
Proof.
  intros Hp Hlen.
  destruct (find_p_core_cells data possible_xmins possible_xmaxs pruns dfn
              gens Hp Hlen) as (ps & Hrun & Hl & Hcells).
  exists ps. split; [assumption |]. split; [assumption |].
  intros i Hi. cbv zeta.
  match goal with
  | |- exists p sigp g', _ /\ find_true_p ?x ?a ?b _ _ ?g = _ /\ _ =>
      destruct (find_true_p_closed x a b pruns dfn g Hp) as (g' & Hret);
      pose proof (true_p_of_range x a b pruns dfn g Hp) as Hrange
  end.
  eexists _, _, g'. split; [apply Hcells; assumption |].
  split; [exact Hret | exact Hrange].
Qed.


(** ** The order of the input data does not matter (lines 40, 152) *)

Lemma sorted_perm_eq (l1 : list R) :
  forall l2,
    StronglySorted Rle l1 -> StronglySorted Rle l2 -> Permutation l1 l2 ->
    l1 = l2.
Proof.
  induction l1 as [|a l1 IH]; intros l2 Hs1 Hs2 Hperm.
  - apply Permutation_nil in Hperm. congruence.
  - destruct l2 as [|b l2];
      [apply Permutation_sym, Permutation_nil in Hperm; discriminate |].
    inversion Hs1 as [| ? ? Hs1' Hall1]; subst.
    inversion Hs2 as [| ? ? Hs2' Hall2]; subst.
    rewrite Forall_forall in Hall1, Hall2.
    assert (Hab : a <= b).
    { assert (Hin : In b (a :: l1))
        by (eapply Permutation_in;
            [apply Permutation_sym; eassumption | left; reflexivity]).
      destruct Hin as [-> | Hin]; [lra | apply Hall1; assumption]. }
    assert (Hba : b <= a).
    { assert (Hin : In a (b :: l2))
        by (eapply Permutation_in; [eassumption | left; reflexivity]).
      destruct Hin as [-> | Hin]; [lra | apply Hall2; assumption]. }
    assert (a = b) by lra. subst b. f_equal.
    apply IH; try assumption. eapply Permutation_cons_inv. eassumption.
Qed.

Lemma np_sort_of_permutation (a b : list R) :
  Permutation a b -> np_sort a = np_sort b.
Proof.
  intros Hperm. apply sorted_perm_eq; try apply np_sort_sorted.
  apply perm_trans with a; [apply Permutation_sym, np_sort_perm |].
  apply perm_trans with b; [assumption | apply np_sort_perm].
Qed.

Lemma find_p_wrap_sorted h g x xmin xmax runs raw :
  heap_get h x = Ret raw ->
  find_p_wrap h g x xmin xmax runs false
  = {| out_value :=
         r <- find_true_p (np_sort raw) xmin xmax runs find_d_sorted g ;;
         Ret (VTuple [fst (fst r); snd (fst r)]);
       out_heap := h ++ [np_sort raw];
       out_printed := [] |}.
Proof.
  intros H. unfold find_p_wrap. cbn [negb].
  rewrite (np_sort_new_ret _ _ _ H), heap_get_new. reflexivity.
Qed.

(** X9. [find_p_wrap] with [discrete] true prints its message and returns
    [-1] without touching the heap.  With [discrete] false, on an array
    [raw]: for [runs >= 1] it returns the pair [(p, sigma_p)] that
    [find_true_p] gives on the sorted copy, with [p] between 0 and 1, prints
    nothing and leaves the sorted copy as the one new array; for [runs = 0]
    it raises [ZeroDivisionError]. *)
Theorem find_p_wrap_outcomes h g x xmin xmax runs raw :
  heap_get h x = Ret raw ->
  (out_value (find_p_wrap h g x xmin xmax runs true) = Ret (VInt (-1)) /\
   out_printed (find_p_wrap h g x xmin xmax runs true) = [msg_wrap] /\
   out_heap (find_p_wrap h g x xmin xmax runs true) = h) /\
  ((1 <= runs)%nat ->
   exists p sigp g',
     find_true_p (np_sort raw) xmin xmax runs find_d_sorted g
       = Ret (p, sigp, g') /\
     out_value (find_p_wrap h g x xmin xmax runs false)
       = Ret (VTuple [p; sigp]) /\
     0 <= p <= 1 /\
     out_printed (find_p_wrap h g x xmin xmax runs false) = [] /\
     out_heap (find_p_wrap h g x xmin xmax runs false)
       = h ++ [np_sort raw]) /\
  (runs = 0%nat ->
   out_value (find_p_wrap h g x xmin xmax runs false)
     = Raise ZeroDivisionError).
Proof.
  intros Hraw. split; [repeat split |].
  rewrite (find_p_wrap_sorted _ _ _ _ _ _ _ Hraw). cbn [out_value out_heap
    out_printed]. split.
  - intros Hruns.
    destruct (find_true_p_closed (np_sort raw) xmin xmax runs find_d_sorted g
                Hruns) as (g' & Hret).
    pose proof (true_p_of_range (np_sort raw) xmin xmax runs find_d_sorted g
                  Hruns) as Hp.
    eexists _, _, g'. split; [exact Hret |]. rewrite Hret.
    split; [reflexivity |]. split; [exact Hp |]. split; reflexivity.
  - intros ->. rewrite find_true_p_zero_runs. reflexivity.
Qed.

(** X10. [find_p_wrap] does not need sorted data: on two arrays with the
    same values in any order it returns the same value and prints the
    same. *)
Theorem find_p_wrap_ignores_order h1 h2 g x1 x2 xmin xmax runs discrete raw1
  raw2 :
  heap_get h1 x1 = Ret raw1 -> heap_get h2 x2 = Ret raw2 ->
  Permutation raw1 raw2 ->
  out_value (find_p_wrap h1 g x1 xmin xmax runs discrete)
  = out_value (find_p_wrap h2 g x2 xmin xmax runs discrete) /\
  out_printed (find_p_wrap h1 g x1 xmin xmax runs discrete)
  = out_printed (find_p_wrap h2 g x2 xmin xmax runs discrete).
Proof.
  intros H1 H2 Hperm. destruct discrete; [split; reflexivity |].
  rewrite (find_p_wrap_sorted _ _ _ _ _ _ _ H1),
    (find_p_wrap_sorted _ _ _ _ _ _ _ H2).
  rewrite (np_sort_of_permutation _ _ Hperm). split; reflexivity.
Qed.

(** X11. [find_pl_montecarlo] sees its data only through the sorted copy: on
    two arrays with the same values in any order, and the same other
    arguments and random tape, it returns or raises the same and prints the
    same. *)
Theorem find_pl_montecarlo_ignores_order fuel h1 h2 s gens x1 x2 runs pqcrit
  pcrit pruns dist_type calc_p raw1 raw2 :
  heap_get h1 x1 = Ret raw1 -> heap_get h2 x2 = Ret raw2 ->
  Permutation raw1 raw2 ->
  out_value
    (find_pl_montecarlo fuel h1 s gens x1 runs pqcrit pcrit pruns dist_type
       calc_p)
  = out_value
      (find_pl_montecarlo fuel h2 s gens x2 runs pqcrit pcrit pruns dist_type
         calc_p) /\
  out_printed
    (find_pl_montecarlo fuel h1 s gens x1 runs pqcrit pcrit pruns dist_type
       calc_p)
  = out_printed
      (find_pl_montecarlo fuel h2 s gens x2 runs pqcrit pcrit pruns dist_type
         calc_p).
Proof.
  intros H1 H2 Hperm.
  rewrite (find_pl_montecarlo_sorted _ _ _ _ _ _ _ _ _ _ _ _ H1),
    (find_pl_montecarlo_sorted _ _ _ _ _ _ _ _ _ _ _ _ H2).
  rewrite (np_sort_of_permutation _ _ Hperm).
  destruct (configure dist_type); [| split; reflexivity].
  destruct (_ && _); split; reflexivity.
Qed.

(** ** Empty data, no runs (lines 185-191, 242-243) *)

Lemma configure_some (dist_type : string) :
  (dist_type = "KS" \/ dist_type = "AD" \/ dist_type = "discrete")%string ->
  exists cfg, configure dist_type = Some cfg.
Proof.
  intros [-> | [-> | ->]]; eexists; reflexivity.
Qed.

Lemma guard_passes (dist_type : string) (raw : list R) :
  (dist_type = "discrete"%string -> forall v, In v raw -> 1 <= v) ->
  String.eqb dist_type "discrete" && np_any_lt (np_sort raw) 1 = false.
Proof.
  intros Hguard. destruct (String.eqb dist_type "discrete") eqn:E;
    [| reflexivity].
  apply String.eqb_eq in E. cbn [andb].
  destruct (np_any_lt (np_sort raw) 1) eqn:Eany; [| reflexivity].
  apply np_any_lt_true in Eany. destruct Eany as (v & Hin & Hv).
  assert (Hraw : In v raw)
    by (eapply Permutation_in;
        [apply Permutation_sym, np_sort_perm | assumption]).
  pose proof (Hguard E v Hraw). lra.
Qed.

(** X12. On an empty array and with a [dist_type] that is accepted,
    [find_pl_montecarlo] raises [IndexError] (at [data[0]], line 191) and
    prints nothing; it does not return the list [[0, 0, 1]]. *)
Theorem empty_data_raises_index_error fuel h s gens x runs pqcrit pcrit pruns
  dist_type calc_p :
  heap_get h x = Ret [] ->
  (dist_type = "KS" \/ dist_type = "AD" \/ dist_type = "discrete")%string ->
  out_value
    (find_pl_montecarlo fuel h s gens x runs pqcrit pcrit pruns dist_type
       calc_p) = Raise IndexError /\
  out_printed
    (find_pl_montecarlo fuel h s gens x runs pqcrit pcrit pruns dist_type
       calc_p) = [].
Proof.
  intros Hraw Hvalid.
  rewrite (find_pl_montecarlo_sorted _ _ _ _ _ _ _ _ _ _ _ _ Hraw).
  destruct (configure_some _ Hvalid) as (cfg & ->).
  rewrite guard_passes by (intros _ v []). split; reflexivity.
Qed.

Lemma np_sort_nonempty (raw : list R) : raw <> [] -> np_sort raw <> [].
Proof.
  intros Hne E. apply Hne. apply length_zero_iff_nil.
  rewrite <- np_sort_length, E. reflexivity.
Qed.

(** X13. With [runs = 0], on an array that is not empty and passes the
    checks of lines 163-182, [find_pl_montecarlo] raises [ValueError]: the
    arrays of trials are empty and line 243 asks for their largest cell. *)
Theorem zero_runs_raises_value_error fuel h s gens x pqcrit pcrit pruns
  dist_type calc_p raw :
  heap_get h x = Ret raw -> raw <> [] ->
  (dist_type = "KS" \/ dist_type = "AD" \/ dist_type = "discrete")%string ->
  (dist_type = "discrete"%string -> forall v, In v raw -> 1 <= v) ->
  out_value
    (find_pl_montecarlo fuel h s gens x 0 pqcrit pcrit pruns dist_type
       calc_p) = Raise ValueError.
Proof.
  intros Hraw Hne Hvalid Hguard.
  rewrite (find_pl_montecarlo_sorted _ _ _ _ _ _ _ _ _ _ _ _ Hraw).
  destruct (configure_some _ Hvalid) as (cfg & ->).
  rewrite (guard_passes _ _ Hguard). cbn [out_value].
  unfold search, sweep.
  destruct (np_sort raw) as [|d0 rest] eqn:E;
    [exfalso; eapply np_sort_nonempty; eassumption |].
  cbn [get nth_error bind]. unfold trial_sweep. cbn [seq for_loop bind fst].
  apply select_empty_batch. apply init_batch_len.
Qed.


(** ** With [calc_p] false (lines 160-161, 260-263) *)

(** X14. With [calc_p] false the call never looks at [pcrit], [pruns] or the
    generator states of [find_p_core]: changing them changes nothing of
    what the call returns, prints or leaves in the heap. *)
Theorem calc_p_false_ignores_pcrit_and_pruns fuel h s gens gens' x runs
  pqcrit pcrit pcrit' pruns pruns' dist_type :
  find_pl_montecarlo fuel h s gens x runs pqcrit pcrit pruns dist_type false
  = find_pl_montecarlo fuel h s gens' x runs pqcrit pcrit' pruns' dist_type
      false.
Proof.
  unfold find_pl_montecarlo.
  destruct (np_sort_new h x) as [[sorted h1] | e |]; reflexivity.
Qed.

(** ** The recorded distance is never read (lines 169-170, 219) *)

Lemma set_item_forget (a1 : list R) :
  forall a2 i v1 v2,
    map (fun _ => 0) a1 = map (fun _ => 0) a2 ->
    result_map (map (fun _ => 0)) (set_item a1 i v1)
    = result_map (map (fun _ => 0)) (set_item a2 i v2).
Proof.
  induction a1 as [|w1 a1 IH]; intros a2 i v1 v2 H;
    destruct a2 as [|w2 a2]; try discriminate; [reflexivity |].
  simpl in H. injection H as H.
  destruct i as [|i]; simpl.
  - rewrite H. reflexivity.
  - specialize (IH a2 i v1 v2 H).
    destruct (set_item a1 i v1), (set_item a2 i v2); simpl in *;
      try discriminate; try assumption.
    injection IH as IH. rewrite IH. reflexivity.
Qed.

Lemma generate_trial_with_distfun cfg f data log_xmin log_range fuel s :
  generate_trial (with_distfun cfg f) data log_xmin log_range fuel s
  = generate_trial cfg data log_xmin log_range fuel s.
Proof. reflexivity. Qed.

Lemma record_trial_with_distfun cfg f data i t b1 b2 :
  forget_ds b1 = forget_ds b2 ->
  result_map forget_ds (record_trial (with_distfun cfg f) data i t b1)
  = result_map forget_ds (record_trial cfg data i t b2).
Proof.
  destruct b1 as [x1 X1 a1 n1 q1 d1], b2 as [x2 X2 a2 n2 q2 d2].
  unfold forget_ds. cbn [attempted_xmins attempted_xmaxs attempted_alphas
    attempted_ns attempted_pqs attempted_ds].
  intros H. injection H as -> -> -> -> -> Hd.
  unfold record_trial.
  cbn [attempted_xmins attempted_xmaxs attempted_alphas attempted_ns
       attempted_pqs attempted_ds with_distfun brent dfun distfun].
  set (trimmed := trimmed_of data t).
  set (alpha_hat := brent cfg trimmed).
  assert (Hds :
    result_map (map (fun _ => 0))
      (if Rgtb alpha_hat 1 then set_item d1 i (f trimmed alpha_hat)
       else Ret d1)
    = result_map (map (fun _ => 0))
        (if Rgtb alpha_hat 1
         then set_item d2 i (distfun cfg trimmed alpha_hat)
         else Ret d2)).
  { destruct (Rgtb alpha_hat 1);
      [apply set_item_forget; assumption | simpl; congruence]. }
  destruct (if Rgtb alpha_hat 1 then set_item d1 i (f trimmed alpha_hat)
            else Ret d1) as [ds1 | e1 |];
    destruct (if Rgtb alpha_hat 1
              then set_item d2 i (distfun cfg trimmed alpha_hat)
              else Ret d2) as [ds2 | e2 |];
    simpl in Hds; try discriminate; try (injection Hds as Hds);
    cbn [bind result_map]; try congruence.
  repeat match goal with
  | |- context [set_item ?a ?j ?v] =>
      destruct (set_item a j v); cbn [bind result_map]; try reflexivity
  end.
  unfold forget_ds. cbn [attempted_xmins attempted_xmaxs attempted_alphas
    attempted_ns attempted_pqs attempted_ds]. rewrite Hds. reflexivity.
Qed.

Lemma result_map_eq_ret {A B : Type} (F : A -> B) (r1 r2 : result A) :
  result_map F r1 = result_map F r2 ->
  match r1, r2 with
  | Ret a1, Ret a2 => F a1 = F a2
  | Raise e1, Raise e2 => e1 = e2
  | Diverge, Diverge => True
  | _, _ => False
  end.
Proof.
  destruct r1, r2; simpl; intros H; try discriminate; try exact I;
    injection H; auto.
Qed.

Lemma for_loop_result_map {S T : Type} (F : S -> T)
  (body1 body2 : nat -> S -> result S) :
  (forall i st1 st2, F st1 = F st2 ->
     result_map F (body1 i st1) = result_map F (body2 i st2)) ->
  forall range st1 st2,
    F st1 = F st2 ->
    result_map F (for_loop body1 range st1)
    = result_map F (for_loop body2 range st2).
Proof.
  intros Hbody. induction range as [|i range IH]; intros st1 st2 HF.
  - simpl. rewrite HF. reflexivity.
  - cbn [for_loop]. specialize (Hbody i st1 st2 HF).
    apply result_map_eq_ret in Hbody.
    destruct (body1 i st1), (body2 i st2); try contradiction;
      cbn [bind result_map].
    + apply IH. assumption.
    + rewrite Hbody. reflexivity.
    + reflexivity.
Qed.

Lemma trial_sweep_with_distfun cfg f data log_xmin log_range fuel runs s :
  result_map (fun st => (forget_ds (fst st), snd st))
    (trial_sweep (with_distfun cfg f) data log_xmin log_range fuel runs s)
  = result_map (fun st => (forget_ds (fst st), snd st))
      (trial_sweep cfg data log_xmin log_range fuel runs s).
Proof.
  unfold trial_sweep. apply for_loop_result_map; [| reflexivity].
  intros i [b1 s1] [b2 s2] H.
  pose proof (f_equal fst H) as Hb. pose proof (f_equal snd H) as Hs.
  cbn [fst snd] in Hb, Hs. subst s1. clear H.
  unfold trial_body. cbn [fst snd].
  rewrite generate_trial_with_distfun.
  destruct (generate_trial cfg data log_xmin log_range fuel s2)
    as [[t s3] | e |]; try reflexivity.
  cbn [bind fst snd].
  pose proof (record_trial_with_distfun cfg f data i t b1 b2 Hb) as Hrec.
  apply result_map_eq_ret in Hrec.
  destruct (record_trial (with_distfun cfg f) data i t b1),
    (record_trial cfg data i t b2); try contradiction;
    cbn [bind result_map fst snd]; congruence.
Qed.

Lemma select_forget_ds cfg f data b1 b2 pqcrit pcrit pruns calc_p gens :
  forget_ds b1 = forget_ds b2 ->
  select (with_distfun cfg f) data b1 pqcrit pcrit pruns calc_p gens
  = select cfg data b2 pqcrit pcrit pruns calc_p gens.
Proof.
  destruct b1 as [x1 X1 a1 n1 q1 d1], b2 as [x2 X2 a2 n2 q2 d2].
  unfold forget_ds. cbn [attempted_xmins attempted_xmaxs attempted_alphas
    attempted_ns attempted_pqs attempted_ds].
  intros H. injection H as -> -> -> -> -> _. reflexivity.
Qed.

Lemma search_with_distfun cfg f data fuel s gens runs pqcrit pcrit pruns
  calc_p :
  search (with_distfun cfg f) data fuel s gens runs pqcrit pcrit pruns calc_p
  = search cfg data fuel s gens runs pqcrit pcrit pruns calc_p.
Proof.
  unfold search, sweep. destruct (get data 0) as [d0 | e |]; try reflexivity.
  cbn [bind].
  pose proof (trial_sweep_with_distfun cfg f data (ln d0)
                (ln (last data 0) - ln d0) fuel runs s) as H.
  apply result_map_eq_ret in H.
  destruct (trial_sweep (with_distfun cfg f) data (ln d0)
              (ln (last data 0) - ln d0) fuel runs s) as [[b1 s1] | e1 |],
    (trial_sweep cfg data (ln d0) (ln (last data 0) - ln d0) fuel runs s)
      as [[b2 s2] | e2 |]; try contradiction; cbn [bind fst];
    try congruence.
  pose proof (f_equal fst H) as Hb. cbn [fst snd] in Hb.
  apply select_forget_ds. assumption.
Qed.

(** X15. The distance chosen by [dist_type = 'AD'] is stored in
    [attempted_ds] and never read: for every input, [find_pl_montecarlo]
    with [dist_type = 'AD'] returns, raises, prints and leaves in the heap
    exactly what it does with [dist_type = 'KS']. *)
Theorem AD_gives_the_result_of_KS fuel h s gens x runs pqcrit pcrit pruns
  calc_p :
  find_pl_montecarlo fuel h s gens x runs pqcrit pcrit pruns "AD" calc_p
  = find_pl_montecarlo fuel h s gens x runs pqcrit pcrit pruns "KS" calc_p.
Proof.
  unfold find_pl_montecarlo.
  destruct (np_sort_new h x) as [[sorted h1] | e |]; try reflexivity.
  change (configure "AD")
    with (Some (with_distfun
                  {| distfun := find_d_sorted; dfun := find_d_sorted;
                     brent := brent_findmin;
                     nearest_first := find_nearest_idx;
                     nearest_last := find_nearest_idx |} find_ad_sorted)).
  change (configure "KS")
    with (Some {| distfun := find_d_sorted; dfun := find_d_sorted;
                  brent := brent_findmin;
                  nearest_first := find_nearest_idx;
                  nearest_last := find_nearest_idx |}).
  destruct (heap_get h1 sorted) as [a | e |]; try reflexivity.
  change (String.eqb "AD" "discrete") with false.
  change (String.eqb "KS" "discrete") with false.
  cbn [andb]. rewrite search_with_distfun. reflexivity.
Qed.


(** ** What the call can return (lines 177-182, 238-295) *)

Lemma true_ps_total cfg data b runs pqcrit pruns calc_p gens :
  batch_len b runs -> (calc_p = true -> (1 <= pruns)%nat) ->
  exists ps, true_ps cfg data b pqcrit pruns calc_p gens = Ret ps.
Proof.
  intros Hlen Hpruns. rewrite (true_ps_refine _ _ _ _ _ _ _ _ Hlen).
  unfold refine_ps. destruct calc_p; [| eauto].
  destruct (find_p_core_cells data
              (map (fun i => nth i (attempted_xmins b) 0)
                 (np_where_gt (attempted_pqs b) pqcrit))
              (map (fun i => nth i (attempted_xmaxs b) 0)
                 (np_where_gt (attempted_pqs b) pqcrit))
              pruns (dfun cfg) gens (Hpruns eq_refl))
    as (ps & Hps & _); [rewrite !length_map; reflexivity | eauto].
Qed.

Lemma select_ret_true_ps cfg data b runs pqcrit pcrit pruns calc_p gens v :
  batch_len b runs ->
  np_where_gt (attempted_pqs b) pqcrit <> [] ->
  select cfg data b pqcrit pcrit pruns calc_p gens = Ret v ->
  exists ps, true_ps cfg data b pqcrit pruns calc_p gens = Ret ps.
Proof.
  intros Hlen Hsome Hsel.
  rewrite (true_ps_refine _ _ _ _ _ _ _ _ Hlen).
  destruct (possible_arrays b runs pqcrit Hlen) as (_ & H1 & H2 & H3 & H4).
  cbv zeta in *. unfold select in Hsel. cbv zeta in Hsel.
  rewrite length_zero_eqb in Hsel.
  destruct (np_where_gt (attempted_pqs b) pqcrit) as [|i0 idxs'] eqn:E;
    [congruence |].
  rewrite H1, H2, H3, H4 in Hsel. cbn [bind] in Hsel.
  bind_inv Hsel. eauto.
Qed.

(** Whatever [select] returns is the tuple of one of the trials. *)
Lemma select_picks_a_trial cfg data b runs pqcrit pcrit pruns calc_p gens :
  batch_len b runs -> (1 <= runs)%nat ->
  (np_where_gt (attempted_pqs b) pqcrit <> [] ->
   exists ps, true_ps cfg data b pqcrit pruns calc_p gens = Ret ps) ->
  exists i,
    (i < runs)%nat /\
    select cfg data b pqcrit pcrit pruns calc_p gens = Ret (answer b i).
Proof.
  intros Hlen Hruns Htrue.
  pose proof Hlen as (_ & _ & _ & _ & L5 & _).
  destruct (np_where_gt (attempted_pqs b) pqcrit) as [|i0 idxs'] eqn:E.
  - destruct (select_no_candidate cfg data b runs pqcrit pcrit pruns calc_p
                gens Hlen ltac:(lia) E) as (i & Hmax & Hsel).
    exists i. split; [| assumption].
    apply first_max_in_range in Hmax. lia.
  - destruct (Htrue ltac:(discriminate)) as (ps & Hps).
    pose proof (true_ps_length _ _ _ _ _ _ _ _ _ Hlen Hps) as Hpl.
    rewrite E in Hpl.
    assert (Hin : forall i, In i (i0 :: idxs') -> (i < runs)%nat).
    { intros i Hi. rewrite <- E in Hi. apply np_where_gt_in_range in Hi.
      lia. }
    destruct (np_where_gt ps pcrit) as [|j0 idxs2'] eqn:E2.
    + destruct (select_no_survivor cfg data b runs pqcrit pcrit pruns calc_p
                  gens ps Hlen ltac:(rewrite E; discriminate) Hps E2)
        as (j & i & _ & Hj & Hsel).
      exists i. split; [| assumption].
      rewrite E in Hj. apply Hin. eapply nth_error_In. eassumption.
    + destruct (select_survivors cfg data b runs pqcrit pcrit pruns calc_p
                  gens ps Hlen Hps ltac:(rewrite E2; discriminate))
        as (k & Hmax & Hsel).
      cbv zeta in Hmax, Hsel. rewrite E, E2 in Hmax, Hsel.
      eexists. split; [| exact Hsel].
      apply first_max_in_range in Hmax. rewrite length_map in Hmax.
      pose proof (nth_error_nth' _ 0%nat Hmax) as Hk.
      apply nth_error_In in Hk. apply in_map_iff in Hk.
      destruct Hk as (j & Hj & Hjin). rewrite <- Hj.
      assert (Hjl : (j < length (i0 :: idxs'))%nat).
      { rewrite <- Hpl. rewrite <- E2 in Hjin.
        apply np_where_gt_in_range in Hjin. assumption. }
      apply Hin. apply nth_In. assumption.
Qed.

Lemma select_ret_trial cfg data b runs pqcrit pcrit pruns calc_p gens v :
  batch_len b runs ->
  select cfg data b pqcrit pcrit pruns calc_p gens = Ret v ->
  exists i, (i < runs)%nat /\ v = answer b i.
Proof.
  intros Hlen Hsel.
  destruct runs as [|runs].
  - rewrite (select_empty_batch _ _ _ _ _ _ _ _ Hlen) in Hsel. discriminate.
  - destruct (select_picks_a_trial cfg data b (S runs) pqcrit pcrit pruns
                calc_p gens Hlen ltac:(lia)) as (i & Hi & Hret).
    + intros Hsome. eapply select_ret_true_ps; eassumption.
    + exists i. split; [assumption | congruence].
Qed.

Lemma answer_of_recorded cfg data b i t :
  cell b i = recorded cfg data t ->
  answer b i
  = VTuple [trial_xmin t; trial_xmax t; brent cfg (trimmed_of data t)].
Proof.
  unfold cell, recorded, answer. intros H. injection H as Hx HX Ha _ _ _.
  rewrite (nth_error_nth _ _ 0 Hx), (nth_error_nth _ _ 0 HX),
    (nth_error_nth _ _ 0 Ha). reflexivity.
Qed.

(** The tuple of a trial of the batch, with what the trial satisfies. *)
Lemma answer_is_valid_range cfg data runs b i :
  (batch_len b runs /\
   forall i, (i < runs)%nat ->
     exists t, snapped data t /\ rejected t = false /\
               cell b i = recorded cfg data t) ->
  (i < runs)%nat ->
  exists xmin_idx xmax_idx xmin xmax,
    nth_error data xmin_idx = Some xmin /\
    nth_error data xmax_idx = Some xmax /\
    (Z.of_nat xmax_idx - Z.of_nat xmin_idx >= 10)%Z /\
    xmax >= 2 * xmin /\
    answer b i
    = VTuple [xmin; xmax; brent cfg (slice data xmin_idx (xmax_idx + 1))].
Proof.
  intros [_ Hcells] Hi.
  destruct (Hcells i Hi) as (t & [Hmin Hmax] & Hacc & Hcell).
  apply rejected_false in Hacc. destruct Hacc as [Hidx Hval].
  exists (trial_xmin_idx t), (trial_xmax_idx t), (trial_xmin t),
    (trial_xmax t).
  repeat split; try assumption.
  apply (answer_of_recorded cfg data). assumption.
Qed.

(** X16. Once the sweep has ended, with [runs >= 1] and, when [calc_p] is
    true, [pruns >= 1], the call returns without raising, and what it returns
    is a tuple [(xmin, xmax, alpha)] of one of the trials: [xmin] and [xmax]
    are data at two indices at least 10 apart, [xmax >= 2*xmin], and [alpha]
    is the fit of the data between the two indices. *)
Theorem finished_sweep_returns_a_trial fuel h s gens x runs pqcrit pcrit
  pruns dist_type calc_p cfg data b :
  sweeps_to fuel h s x runs dist_type cfg data b ->
  (1 <= runs)%nat -> (calc_p = true -> (1 <= pruns)%nat) ->
  exists xmin_idx xmax_idx xmin xmax,
    nth_error data xmin_idx = Some xmin /\
    nth_error data xmax_idx = Some xmax /\
    (Z.of_nat xmax_idx - Z.of_nat xmin_idx >= 10)%Z /\
    xmax >= 2 * xmin /\
    out_value
      (find_pl_montecarlo fuel h s gens x runs pqcrit pcrit pruns dist_type
         calc_p)
    = Ret (VTuple [xmin; xmax;
                   brent cfg (slice data xmin_idx (xmax_idx + 1))]).
Proof.
  intros Hsw Hruns Hpruns.
  rewrite (find_pl_montecarlo_select _ _ _ gens _ _ pqcrit pcrit pruns _
             calc_p _ _ _ Hsw).
  pose proof (sweeps_to_batch _ _ _ _ _ _ _ _ _ Hsw) as Hbatch.
  destruct (select_picks_a_trial cfg data b runs pqcrit
              (final_pcrit pqcrit pcrit calc_p) pruns calc_p gens
              (proj1 Hbatch) Hruns) as (i & Hi & Hsel).
  - intros _. eapply true_ps_total; [apply Hbatch | assumption].
  - destruct (answer_is_valid_range cfg data runs b i Hbatch Hi)
      as (xi & xa & xmin & xmax & H1 & H2 & H3 & H4 & Hans).
    exists xi, xa, xmin, xmax. rewrite Hsel, Hans. auto.
Qed.

(** X17. Whatever the arguments, a value that [find_pl_montecarlo] returns
    is either the list [[0, 0, 1]], with one of the two messages printed, or,
    with nothing printed, the tuple [(xmin, xmax, alpha)] of a trial on the
    sorted data: two data at indices at least 10 apart with
    [xmax >= 2*xmin], and the fit of the data between them. *)
Theorem returned_value_is_defaults_or_a_trial fuel h s gens x runs pqcrit
  pcrit pruns dist_type calc_p v :
  let call :=
    find_pl_montecarlo fuel h s gens x runs pqcrit pcrit pruns dist_type
      calc_p in
  out_value call = Ret v ->
  (v = VList [0; 0; 1] /\
   (out_printed call = [msg_dist_type] \/ out_printed call = [msg_discrete]))
  \/
  (out_printed call = [] /\
   exists raw cfg xmin_idx xmax_idx xmin xmax,
     heap_get h x = Ret raw /\ configure dist_type = Some cfg /\
     nth_error (np_sort raw) xmin_idx = Some xmin /\
     nth_error (np_sort raw) xmax_idx = Some xmax /\
     (Z.of_nat xmax_idx - Z.of_nat xmin_idx >= 10)%Z /\
     xmax >= 2 * xmin /\
     v = VTuple [xmin; xmax;
                 brent cfg (slice (np_sort raw) xmin_idx (xmax_idx + 1))]).
Proof.
  intros call. unfold call. clear call.
  destruct (heap_get h x) as [raw | e |] eqn:Hraw.
  2, 3: unfold find_pl_montecarlo, np_sort_new; rewrite Hraw;
    cbn [bind out_value]; discriminate.
  rewrite (find_pl_montecarlo_sorted _ _ _ _ _ _ _ _ _ _ _ _ Hraw).
  destruct (configure dist_type) as [cfg |] eqn:Hcfg.
  2: { cbn [out_value out_printed]. intros Hv. left.
       split; [unfold defaults in Hv; congruence | left; reflexivity]. }
  destruct (String.eqb dist_type "discrete" && np_any_lt (np_sort raw) 1)
    eqn:Hguard; cbn [out_value out_printed].
  - intros Hv. left.
    split; [unfold defaults in Hv; congruence | right; reflexivity].
  - intros Hv. right. split; [reflexivity |].
    unfold search in Hv. bind_inv Hv. destruct r as [b s'].
    cbn [fst] in Hv.
    assert (Hsw : sweeps_to fuel h s x runs dist_type cfg (np_sort raw) b).
    { exists raw, s'. repeat split; assumption. }
    pose proof (sweeps_to_batch _ _ _ _ _ _ _ _ _ Hsw) as Hbatch.
    destruct (select_ret_trial _ _ _ _ _ _ _ _ _ _ (proj1 Hbatch) Hv)
      as (i & Hi & ->).
    destruct (answer_is_valid_range cfg (np_sort raw) runs b i Hbatch Hi)
      as (xi & xa & xmin & xmax & H1 & H2 & H3 & H4 & Hans).
    exists raw, cfg, xi, xa, xmin, xmax. rewrite Hans.
    repeat split; assumption.
Qed.

End Montecarlo.

(** * Concrete runs *)

(** ** A small run: eleven data, one trial *)

Lemma toy_configure :
  configure toy_nearest toy_nearest_discrete toy_distance toy_distance
    toy_distance toy_brent toy_brent "discrete" = Some toy_cfg.
Proof. reflexivity. Qed.

Lemma eleven_sorted : StronglySorted Rle eleven.
Proof.
  unfold eleven.
  repeat (constructor; [| repeat (constructor; try lra)]). constructor.
Qed.

Lemma toy_draw_trial (lx lr : R) (s : nat) :
  draw_trial toy_tape toy_cfg eleven lx lr s = Ret (toy_draw, S (S s)).
Proof. reflexivity. Qed.

Lemma toy_draw_accepted : rejected toy_draw = false.
Proof.
  unfold rejected, toy_draw; simpl.
  apply Rltb_false. lra.
Qed.

Lemma toy_generate (lx lr : R) (fuel s : nat) :
  generate_trial toy_tape toy_cfg eleven lx lr fuel s
  = Ret (toy_draw, S (S s)).
Proof.
  unfold generate_trial. rewrite toy_draw_trial. cbn [bind fst snd].
  destruct fuel; cbn [redraw]; rewrite toy_draw_accepted; reflexivity.
Qed.

Lemma toy_record :
  record_trial toy_cfg eleven 0 toy_draw (init_batch 1) = Ret toy_batch.
Proof.
  unfold record_trial.
  change (trimmed_of eleven toy_draw) with eleven.
  change (brent toy_cfg eleven) with 2.
  assert (H21 : Rgtb 2 1 = true) by (apply Rgtb_true; lra).
  unfold trial_tmpd. rewrite H21.
  reflexivity.
Qed.

Lemma toy_trial_sweep (lx lr : R) (fuel s : nat) :
  trial_sweep toy_tape toy_cfg eleven lx lr fuel 1 s
  = Ret (toy_batch, S (S s)).
Proof.
  unfold trial_sweep. cbn [seq for_loop]. unfold trial_body.
  cbn [fst snd]. rewrite toy_generate. cbn [bind fst snd].
  rewrite toy_record. reflexivity.
Qed.


(** C8, at two points: [expfun] falls from 1 to 2, and [expfun(3)] is far
    below 0.999. *)
Lemma expfun10_falls_between_1_and_2 :
  (0 <= 1 <= 2 /\ 2 <= 2 /\ expfun10 2 < expfun10 1) /\
  ~ expfun10 3 > 0.999.
Proof.
  split.
  - split; [lra |]. split; [lra |]. apply expfun10_decreasing; lra.
  - pose proof expfun10_3_small. lra.
Qed.

(** C8 between 1 and 2, and the bounds at 3. *)
Lemma expfun10_decreases_witness :
  (3 / 5 <= 1 /\ 1 <= 2 /\ expfun10 2 <= expfun10 1) /\
  (3 / 5 <= 3 /\ 0 <= expfun10 3 <= 2 * exp (-2 * 3 ^ 2)) /\
  (0 < 1 / 2 /\ exists X, forall x, X <= x -> Rabs (expfun10 x) < 1 / 2).
Proof.
  destruct expfun10_decreases_to_zero as (_ & Hdec & Hb & Hlim & _).
  split; [| split].
  - split; [lra |]. split; [lra |]. apply Hdec; lra.
  - split; [lra |]. apply Hb. lra.
  - split; [lra |]. apply Hlim. lra.
Defined.




(** The collaborators of the small run, applied. *)
Abbreviation toy_find_pl_montecarlo :=
  (find_pl_montecarlo toy_nearest toy_nearest_discrete toy_distance
     toy_distance toy_distance toy_brent toy_brent unit toy_pl_gen toy_tape).

Abbreviation toy_sweeps_to :=
  (sweeps_to toy_nearest toy_nearest_discrete toy_distance toy_distance
     toy_distance toy_brent toy_brent toy_tape).

Abbreviation toy_true_ps := (true_ps toy_nearest toy_brent unit toy_pl_gen).

Lemma eleven_np_sort : np_sort eleven = eleven.
Proof. apply np_sort_id, eleven_sorted. Qed.

Lemma eleven_no_datum_below_1 : np_any_lt eleven 1 = false.
Proof.
  destruct (np_any_lt eleven 1) eqn:E; [| reflexivity].
  apply np_any_lt_true in E. destruct E as (v & Hin & Hv).
  unfold eleven in Hin. simpl in Hin.
  repeat (destruct Hin as [<- | Hin]; [lra |]). destruct Hin.
Qed.

Lemma toy_sweep (fuel s : nat) :
  sweep toy_tape toy_cfg eleven fuel 1 s = Ret (toy_batch, S (S s)).
Proof.
  unfold sweep. change (get eleven 0) with (Ret 1 : result R).
  cbn [bind]. apply toy_trial_sweep.
Qed.

Lemma toy_reaches_choice (fuel s : nat) :
  toy_sweeps_to fuel [eleven] s 0%nat 1%nat "discrete"%string toy_cfg eleven
    toy_batch.
Proof.
  exists eleven, (S (S s)).
  split; [reflexivity |]. split; [symmetry; apply eleven_np_sort |].
  split; [apply toy_configure |].
  split; [rewrite eleven_no_datum_below_1; reflexivity | apply toy_sweep].
Qed.

(** The approximate p-value of the one trial of the small run. *)
Lemma toy_pq_bounds : 0 < approx_pq 1 11 <= 6 / 5.
Proof.
  unfold approx_pq. cbv zeta.
  replace (INR 11) with 11 by (simpl; lra).
  assert (Hs : 1 <= sqrt 11).
  { rewrite <- sqrt_1 at 1. apply sqrt_le_1_alt. lra. }
  assert (H1 : 0 <= 0.17 / sqrt 11).
  { apply Rmult_le_pos; [lra |]. left. apply Rinv_0_lt_compat. lra. }
  assert (H2 : 0 <= (1 * sqrt 11 - 1) / (4 * 11)).
  { apply Rmult_le_pos; [lra |]. left. apply Rinv_0_lt_compat. lra. }
  set (z := 1 * sqrt 11 + 0.17 / sqrt 11 + (1 * sqrt 11 - 1) / (4 * 11)).
  assert (Hz : 3 / 5 <= z) by (unfold z; lra).
  pose proof (expfun10_bounds z Hz) as [Hpos Hup].
  pose proof (exp_neg_small z Hz) as [_ Hexp].
  split; lra.
Qed.

Lemma toy_candidates_at_0 : np_where_gt (attempted_pqs toy_batch) 0 = [0%nat].
Proof.
  unfold np_where_gt, toy_batch. cbn [attempted_pqs map where_from].
  assert (H : Rgtb (approx_pq 1 11) 0 = true)
    by (apply Rgtb_true; pose proof toy_pq_bounds; lra).
  rewrite H. reflexivity.
Qed.

Lemma toy_candidates_at_2 : np_where_gt (attempted_pqs toy_batch) 2 = [].
Proof.
  unfold np_where_gt, toy_batch. cbn [attempted_pqs map where_from].
  assert (H : Rgtb (approx_pq 1 11) 2 = false)
    by (apply Rgtb_false; pose proof toy_pq_bounds; lra).
  rewrite H. reflexivity.
Qed.

Lemma toy_true_ps_no_calc :
  toy_true_ps toy_cfg eleven toy_batch 0 1%nat false toy_gens
  = Ret [approx_pq 1 11].
Proof.
  unfold true_ps. rewrite toy_candidates_at_0. reflexivity.
Qed.

Lemma toy_true_ps_calc :
  toy_true_ps toy_cfg eleven toy_batch 0 1%nat true toy_gens
  = Ret [INR 1 / INR 1].
Proof.
  unfold true_ps. rewrite toy_candidates_at_0.
  cbn [take_idx toy_batch attempted_xmins attempted_xmaxs attempted_pqs get
       nth_error bind].
  unfold refine_ps, find_p_core. cbn [length repeat seq for_loop].
  unfold find_p_core_body. cbn [get nth_error bind].
  unfold find_true_p. cbn [synth_loop toy_pl_gen].
  unfold toy_cfg at 1 2. cbn [dfun]. unfold toy_distance at 1 2.
  assert (H : Rgeb 1 1 = true) by (apply Rgeb_true; lra).
  rewrite H. reflexivity.
Qed.

(** ** The claims on the small run *)

(** C1 on the small run with [calc_p] false and [pqcrit = 0]: the one trial
    passes and is returned. *)
Lemma widest_survivor_witness :
  toy_sweeps_to 0%nat [eleven] 0%nat 0%nat 1%nat "discrete"%string toy_cfg
    eleven toy_batch /\
  toy_true_ps toy_cfg eleven toy_batch 0 1%nat false toy_gens
    = Ret [approx_pq 1 11] /\
  (exists i,
     survivor toy_batch 0 [approx_pq 1 11] (final_pcrit 0 (1 / 4) false) i) /\
  exists i,
    survivor toy_batch 0 [approx_pq 1 11] (final_pcrit 0 (1 / 4) false) i /\
    out_value
      (toy_find_pl_montecarlo 0%nat [eleven] 0%nat toy_gens 0%nat 1%nat 0
         (1 / 4) 1%nat "discrete"%string false)
    = Ret (VTuple [nth i (attempted_xmins toy_batch) 0;
                   nth i (attempted_xmaxs toy_batch) 0;
                   nth i (attempted_alphas toy_batch) 0]).
Proof.
  assert (Hsurv : exists i,
            survivor toy_batch 0 [approx_pq 1 11]
              (final_pcrit 0 (1 / 4) false) i).
  { exists 0%nat, 0%nat, (approx_pq 1 11).
    rewrite toy_candidates_at_0. split; [reflexivity |].
    split; [reflexivity |]. unfold final_pcrit. cbn [negb].
    pose proof toy_pq_bounds. lra. }
  split; [apply toy_reaches_choice |].
  split; [apply toy_true_ps_no_calc |].
  split; [exact Hsurv |].
  destruct (widest_survivor_is_returned toy_nearest toy_nearest_discrete
              toy_distance toy_distance toy_distance toy_brent toy_brent
              unit toy_pl_gen toy_tape 0%nat [eleven] 0%nat toy_gens 0%nat
              1%nat 0 (1 / 4) 1%nat "discrete"%string false toy_cfg eleven
              toy_batch [approx_pq 1 11] (toy_reaches_choice 0 0)
              toy_true_ps_no_calc Hsurv) as (i & Hi & Hout & _).
  exists i. split; assumption.
Defined.

(** C2 on the small run. *)
Lemma recorded_trials_bounds_witness :
  trial_sweep toy_tape toy_cfg eleven 0 1 0%nat 1%nat 0%nat
    = Ret (toy_batch, 2%nat) /\
  (0 < 1)%nat /\
  exists xmin_idx xmax_idx xmin xmax,
    nth_error eleven xmin_idx = Some xmin /\
    nth_error eleven xmax_idx = Some xmax /\
    nth_error (attempted_xmins toy_batch) 0 = Some xmin /\
    nth_error (attempted_xmaxs toy_batch) 0 = Some xmax /\
    (Z.of_nat xmax_idx - Z.of_nat xmin_idx >= 10)%Z /\
    xmax >= 2 * xmin.
Proof.
  split; [apply toy_trial_sweep |]. split; [lia |].
  apply (recorded_trials_satisfy_bounds toy_tape toy_cfg eleven 0 1 0%nat
           1%nat 0%nat toy_batch 2%nat 0%nat (toy_trial_sweep 0 1 0 0)).
  lia.
Defined.

(** C3 on eleven equal data, where no draw passes, and on the small run,
    where the pair of the first and the last index passes and the first
    draw is returned. *)
Lemma rejection_loop_witness :
  let ones := repeat 1 11 in
  (snaps_in_range toy_cfg (np_sort ones) /\
   ((length ones < 11)%nat \/
    last (np_sort ones) 0 < 2 * hd 0 (np_sort ones)) /\
   generate_trial toy_tape toy_cfg (np_sort ones) 0 1 5 0 = Diverge) /\
  ((11 <= length eleven)%nat /\
   last (np_sort eleven) 0 >= 2 * hd 0 (np_sort eleven) /\
   rejected {| trial_xmin_idx := 0;
               trial_xmax_idx := length (np_sort eleven) - 1;
               trial_xmin := hd 0 (np_sort eleven);
               trial_xmax := last (np_sort eleven) 0 |} = false) /\
  ((0 <= 5)%nat /\
   draw_trial toy_tape toy_cfg (np_sort eleven) 0 1 (0 + 2 * 0)
     = Ret (toy_draw, S (S (0 + 2 * 0))) /\
   rejected toy_draw = false /\
   generate_trial toy_tape toy_cfg (np_sort eleven) 0 1 5 0
     = Ret (toy_draw, S (S (0 + 2 * 0)))).
Proof.
  cbv zeta.
  assert (Hones : np_sort (repeat 1 11) = repeat 1 11).
  { apply np_sort_id. simpl.
    repeat (constructor; [| repeat (constructor; try lra)]). constructor. }
  assert (Hrange : snaps_in_range toy_cfg (np_sort (repeat 1 11))).
  { intros v. rewrite np_sort_length, repeat_length.
    change (nearest_first toy_cfg (np_sort (repeat 1 11)) v) with 0%nat.
    change (nearest_last toy_cfg (np_sort (repeat 1 11)) v) with 10%nat.
    lia. }
  assert (Hnarrow : (length (repeat 1 11) < 11)%nat \/
            last (np_sort (repeat 1 11)) 0
            < 2 * hd 0 (np_sort (repeat 1 11))).
  { right. rewrite Hones. simpl. lra. }
  assert (Hlen : (11 <= length eleven)%nat) by (simpl; lia).
  assert (Hwide : last (np_sort eleven) 0 >= 2 * hd 0 (np_sort eleven)).
  { rewrite eleven_np_sort. simpl. lra. }
  assert (Hdraw : draw_trial toy_tape toy_cfg (np_sort eleven) 0 1 (0 + 2 * 0)
                  = Ret (toy_draw, S (S (0 + 2 * 0)))).
  { rewrite eleven_np_sort. apply toy_draw_trial. }
  destruct (rejection_loop_termination toy_tape toy_cfg (repeat 1 11) 0 1)
    as (Hdiv & _ & _).
  destruct (rejection_loop_termination toy_tape toy_cfg eleven 0 1)
    as (_ & Hacc & Hexit).
  split; [| split].
  - split; [exact Hrange |]. split; [exact Hnarrow |].
    apply Hdiv; assumption.
  - split; [exact Hlen |]. split; [exact Hwide |]. apply Hacc; assumption.
  - split; [lia |]. split; [exact Hdraw |].
    split; [exact toy_draw_accepted |].
    apply (Hexit 5%nat 0%nat 0%nat toy_draw);
      [lia | intros j Hj; lia | exact Hdraw | exact toy_draw_accepted].
Defined.

(** C3 as stated fails on ten data whose largest is ten times the
    smallest: whatever the collaborators (returning indices of the data),
    the tape and the fuel, no draw is accepted. *)
Lemma ten_points_never_accepted :
  let x := [1; 2; 3; 4; 5; 6; 7; 8; 9; 10] in
  (10 <= length x)%nat /\
  last (np_sort x) 0 / hd 0 (np_sort x) >= 2 /\
  forall (U : nat -> R) cfg log_xmin log_range fuel s,
    snaps_in_range cfg (np_sort x) ->
    generate_trial U cfg (np_sort x) log_xmin log_range fuel s = Diverge.
Proof.
  cbv zeta.
  assert (Hsorted : np_sort [1; 2; 3; 4; 5; 6; 7; 8; 9; 10]
                    = [1; 2; 3; 4; 5; 6; 7; 8; 9; 10]).
  { apply np_sort_id.
    repeat (constructor; [| repeat (constructor; try lra)]). constructor. }
  split; [simpl; lia |]. split; [rewrite Hsorted; simpl; lra |].
  intros U cfg log_xmin log_range fuel s Hrange.
  apply generate_trial_diverges; [assumption |].
  intros t Hsnap. eapply short_or_narrow_rejected;
    [apply np_sort_sorted | eassumption |].
  left. rewrite np_sort_length. simpl. lia.
Qed.

(** C4 on the small run: with [pqcrit = 2] no trial passes the first
    filter; with [pqcrit = 0], [pcrit = 2] and [calc_p] true the one trial
    passes the first filter and not the second. *)
Lemma empty_candidate_set_witness :
  toy_sweeps_to 0%nat [eleven] 0%nat 0%nat 1%nat "discrete"%string toy_cfg
    eleven toy_batch /\
  ((1 <= 1)%nat /\
   (forall i q, nth_error (attempted_pqs toy_batch) i = Some q -> ~ q > 2) /\
   exists i,
     first_max (attempted_pqs toy_batch) i /\
     out_value
       (toy_find_pl_montecarlo 0%nat [eleven] 0%nat toy_gens 0%nat 1%nat 2
          (1 / 4) 1%nat "discrete"%string true)
     = Ret (VTuple [nth i (attempted_xmins toy_batch) 0;
                    nth i (attempted_xmaxs toy_batch) 0;
                    nth i (attempted_alphas toy_batch) 0])) /\
  ((exists i q, nth_error (attempted_pqs toy_batch) i = Some q /\ q > 0) /\
   toy_true_ps toy_cfg eleven toy_batch 0 1%nat true toy_gens
     = Ret [INR 1 / INR 1] /\
   (forall j p, nth_error [INR 1 / INR 1] j = Some p ->
      ~ p > final_pcrit 0 2 true) /\
   exists j i,
     first_max [INR 1 / INR 1] j /\
     nth_error (np_where_gt (attempted_pqs toy_batch) 0) j = Some i /\
     out_value
       (toy_find_pl_montecarlo 0%nat [eleven] 0%nat toy_gens 0%nat 1%nat 0
          2 1%nat "discrete"%string true)
     = Ret (VTuple [nth i (attempted_xmins toy_batch) 0;
                    nth i (attempted_xmaxs toy_batch) 0;
                    nth i (attempted_alphas toy_batch) 0])).
Proof.
  assert (Hnone : forall i q,
            nth_error (attempted_pqs toy_batch) i = Some q -> ~ q > 2).
  { apply np_where_gt_nil, toy_candidates_at_2. }
  assert (Hsome : exists i q,
            nth_error (attempted_pqs toy_batch) i = Some q /\ q > 0).
  { exists 0%nat, (approx_pq 1 11). split; [reflexivity |].
    pose proof toy_pq_bounds. lra. }
  assert (Hps : forall j p, nth_error [INR 1 / INR 1] j = Some p ->
            ~ p > final_pcrit 0 2 true).
  { intros j p Hp. destruct j as [|j]; [| destruct j; discriminate].
    injection Hp as <-. unfold final_pcrit. cbn [negb].
    change (INR 1) with 1. lra. }
  split; [apply toy_reaches_choice |]. split.
  - split; [lia |]. split; [exact Hnone |].
    apply (proj1 (empty_candidate_set_fallbacks toy_nearest
                    toy_nearest_discrete toy_distance toy_distance
                    toy_distance toy_brent toy_brent unit toy_pl_gen toy_tape
                    0%nat [eleven] 0%nat toy_gens 0%nat 1%nat 2 (1 / 4) 1%nat
                    "discrete"%string true toy_cfg eleven toy_batch
                    (toy_reaches_choice 0 0)));
      [lia | exact Hnone].
  - split; [exact Hsome |]. split; [apply toy_true_ps_calc |].
    split; [exact Hps |].
    apply (proj2 (empty_candidate_set_fallbacks toy_nearest
                    toy_nearest_discrete toy_distance toy_distance
                    toy_distance toy_brent toy_brent unit toy_pl_gen toy_tape
                    0%nat [eleven] 0%nat toy_gens 0%nat 1%nat 0 2 1%nat
                    "discrete"%string true toy_cfg eleven toy_batch
                    (toy_reaches_choice 0 0)) [INR 1 / INR 1]);
      [exact Hsome | apply toy_true_ps_calc | exact Hps].
Defined.

(** C4 as stated fails for [runs = 0]: the call reaches the choice with an
    empty batch, no trial has [attempted_pqs > pqcrit], and [np.argmax]
    raises [ValueError]. *)
Lemma empty_batch_raises :
  toy_sweeps_to 0%nat [eleven] 0%nat 0%nat 0%nat "discrete"%string toy_cfg
    eleven (init_batch 0) /\
  (forall i q,
     nth_error (attempted_pqs (init_batch 0)) i = Some q -> ~ q > 0.35) /\
  out_value
    (toy_find_pl_montecarlo 0%nat [eleven] 0%nat toy_gens 0%nat 0%nat 0.35
       0.25 100%nat "discrete"%string true)
  = Raise ValueError.
Proof.
  assert (Hreach : toy_sweeps_to 0%nat [eleven] 0%nat 0%nat 0%nat
                     "discrete"%string toy_cfg eleven (init_batch 0)).
  { exists eleven, 0%nat.
    split; [reflexivity |]. split; [symmetry; apply eleven_np_sort |].
    split; [apply toy_configure |].
    split; [rewrite eleven_no_datum_below_1; reflexivity | reflexivity]. }
  split; [exact Hreach |]. split.
  - intros [|i] q H; discriminate.
  - rewrite (find_pl_montecarlo_select toy_nearest toy_nearest_discrete
               toy_distance toy_distance toy_distance toy_brent toy_brent
               unit toy_pl_gen toy_tape 0%nat [eleven] 0%nat toy_gens 0%nat
               0%nat 0.35 0.25 100%nat "discrete"%string true toy_cfg eleven
               (init_batch 0) Hreach).
    apply select_empty_batch. apply init_batch_len.
Qed.

(** C5 on a one-point array and one synthetic sample. *)
Lemma find_true_p_witness :
  (1 <= 1)%nat /\
  exists p sigp g',
    find_true_p toy_nearest toy_brent unit toy_pl_gen [1] 1 2 1 toy_distance
      tt = Ret (p, sigp, g') /\
    0 <= p <= 1 /\ 0 <= sigp <= 1.
Proof.
  split; [lia |].
  destruct (find_true_p_is_binomial_estimate toy_nearest toy_brent unit
              toy_pl_gen [1] 1 2 1%nat toy_distance tt (le_n 1))
    as (p & sigp & g' & Hret & _ & _ & Hp & Hs).
  exists p, sigp, g'. split; [exact Hret |]. split; assumption.
Defined.

(** ** A run with [dist_type = 'AD'] *)

Lemma ad_configure :
  configure split_nearest toy_nearest_discrete ks_quarter ad_half
    toy_distance toy_brent toy_brent "AD" = Some ad_cfg.
Proof. reflexivity. Qed.

Lemma ad_draw_trial :
  draw_trial ad_tape ad_cfg eleven 0 1 0 = Ret (toy_draw, 2%nat).
Proof.
  assert (Hlow : Rltb (exp (0 + 1 * ad_tape 0)) (3 / 2) = true).
  { apply Rltb_true. replace (0 + 1 * ad_tape 0) with 0 by (simpl; ring).
    rewrite exp_0. lra. }
  assert (Hhigh : Rltb (exp (0 + 1 * ad_tape 1)) (3 / 2) = false).
  { apply Rltb_false. replace (0 + 1 * ad_tape 1) with 1 by (simpl; ring).
    pose proof (exp_ineq1_le 1). lra. }
  assert (Hfirst : nearest_first ad_cfg eleven (exp (0 + 1 * ad_tape 0))
                   = 0%nat).
  { change (nearest_first ad_cfg) with split_nearest.
    unfold split_nearest. rewrite Hlow. reflexivity. }
  assert (Hlast : nearest_last ad_cfg eleven (exp (0 + 1 * ad_tape 1))
                  = 10%nat).
  { change (nearest_last ad_cfg) with split_nearest.
    unfold split_nearest. rewrite Hhigh. reflexivity. }
  unfold draw_trial. cbv zeta. rewrite Hfirst, Hlast. reflexivity.
Qed.

Lemma ad_generate (fuel : nat) :
  generate_trial ad_tape ad_cfg eleven 0 1 fuel 0 = Ret (toy_draw, 2%nat).
Proof.
  unfold generate_trial. rewrite ad_draw_trial. cbn [bind fst snd].
  destruct fuel; cbn [redraw]; rewrite toy_draw_accepted; reflexivity.
Qed.

Lemma ad_record :
  record_trial ad_cfg eleven 0 toy_draw (init_batch 1) = Ret ad_batch.
Proof.
  unfold record_trial.
  change (trimmed_of eleven toy_draw) with eleven.
  change (brent ad_cfg eleven) with 2.
  assert (H21 : Rgtb 2 1 = true) by (apply Rgtb_true; lra).
  unfold trial_tmpd. rewrite H21.
  reflexivity.
Qed.

Lemma ad_trial_sweep (fuel : nat) :
  trial_sweep ad_tape ad_cfg eleven 0 1 fuel 1 0 = Ret (ad_batch, 2%nat).
Proof.
  unfold trial_sweep. cbn [seq for_loop]. unfold trial_body.
  cbn [fst snd]. rewrite ad_generate. cbn [bind fst snd].
  rewrite ad_record. reflexivity.
Qed.

Lemma sqrt_11_bounds : 33 / 10 <= sqrt 11 <= 34 / 10.
Proof.
  split.
  - rewrite <- (sqrt_square (33 / 10)) by lra. apply sqrt_le_1_alt. lra.
  - rewrite <- (sqrt_square (34 / 10)) by lra. apply sqrt_le_1_alt. lra.
Qed.

(** The p-value of the distance 1/4 is not the p-value of the distance
    1/2. *)
Lemma ad_pq_differ : approx_pq (1 / 2) 11 < approx_pq (1 / 4) 11.
Proof.
  unfold approx_pq. cbv zeta.
  replace (INR 11) with 11 by (simpl; lra).
  pose proof sqrt_11_bounds as [Hlo Hhi].
  assert (H1 : 0 <= 0.17 / sqrt 11).
  { apply Rmult_le_pos; [lra |]. left. apply Rinv_0_lt_compat. lra. }
  apply expfun10_decreasing; lra.
Qed.

(** C6 as stated fails on a run with [dist_type = 'AD'] (the default): the
    one trial has 11 points and the recorded distance 1/2, the distance of
    [find_ad_sorted], and its approximate p-value is not [expfun] of the
    argument built from 1/2: it is built from 1/4, the distance of
    [find_d_sorted]. *)
Lemma AD_pq_not_from_recorded_distance :
  configure split_nearest toy_nearest_discrete ks_quarter ad_half
    toy_distance toy_brent toy_brent "AD" = Some ad_cfg /\
  trial_sweep ad_tape ad_cfg eleven 0 1 0%nat 1%nat 0%nat
    = Ret (ad_batch, 2%nat) /\
  nth_error (attempted_alphas ad_batch) 0 = Some 2 /\
  nth_error (attempted_ns ad_batch) 0 = Some (INR 11) /\
  nth_error (attempted_ds ad_batch) 0 = Some (1 / 2) /\
  nth_error (attempted_pqs ad_batch) 0
  = Some (expfun10
            (1 / 4 * sqrt (INR 11) + 0.17 / sqrt (INR 11)
             + (1 / 4 * sqrt (INR 11) - 1) / (4 * INR 11))) /\
  nth_error (attempted_pqs ad_batch) 0
  <> Some (expfun10
             (1 / 2 * sqrt (INR 11) + 0.17 / sqrt (INR 11)
              + (1 / 2 * sqrt (INR 11) - 1) / (4 * INR 11))).
Proof.
  split; [apply ad_configure |]. split; [apply ad_trial_sweep |].
  split; [reflexivity |]. split; [reflexivity |]. split; [reflexivity |].
  split; [reflexivity |].
  intros H. pose proof ad_pq_differ as Hlt.
  unfold ad_batch in H. cbn [attempted_pqs nth_error] in H.
  injection H as H. unfold approx_pq in Hlt, H. cbv zeta in Hlt, H.
  rewrite H in Hlt. apply (Rlt_irrefl _ Hlt).
Qed.

(** C6 on the small run, whose [dist_type] is ['discrete']. *)
Lemma approx_p_witness :
  trial_sweep toy_tape toy_cfg eleven 0 1 0%nat 1%nat 0%nat
    = Ret (toy_batch, 2%nat) /\
  (0 < 1)%nat /\
  (exists t,
     snapped eleven t /\
     nth_error (attempted_pqs toy_batch) 0
     = Some (expfun10
               ((if Rgtb (brent toy_cfg (trimmed_of eleven t)) 1
                 then dfun toy_cfg (trimmed_of eleven t)
                        (brent toy_cfg (trimmed_of eleven t))
                 else 1)
                * sqrt (INR (length (trimmed_of eleven t)))
                + 0.17 / sqrt (INR (length (trimmed_of eleven t)))
                + ((if Rgtb (brent toy_cfg (trimmed_of eleven t)) 1
                    then dfun toy_cfg (trimmed_of eleven t)
                           (brent toy_cfg (trimmed_of eleven t))
                    else 1)
                   * sqrt (INR (length (trimmed_of eleven t))) - 1)
                  / (4 * INR (length (trimmed_of eleven t)))))) /\
  (configure toy_nearest toy_nearest_discrete toy_distance toy_distance
     toy_distance toy_brent toy_brent "discrete" = Some toy_cfg /\
   distfun toy_cfg = dfun toy_cfg).
Proof.
  split; [apply toy_trial_sweep |]. split; [lia |].
  destruct (approx_p_is_expfun_of_distance toy_nearest toy_nearest_discrete
              toy_distance toy_distance toy_distance toy_brent toy_brent
              toy_tape toy_cfg eleven 0 1 0%nat 1%nat 0%nat toy_batch 2%nat
              0%nat (toy_trial_sweep 0 1 0 0) (Nat.lt_0_succ 0))
    as ((t & Hsnap & _ & _ & Hpq & _) & _ & _ & Hcfg).
  split.
  - exists t. split; [exact Hsnap | exact Hpq].
  - split; [apply toy_configure |].
    exact (proj2 (Hcfg "discrete"%string toy_cfg toy_configure)).
Defined.


(** C9 on a one-point array: an unknown [dist_type], and [discrete] with a
    datum below 1. *)
Lemma invalid_input_witness :
  heap_get [[1 / 2]] 0%nat = Ret [1 / 2] /\
  (("XYZ" <> "KS" /\ "XYZ" <> "AD" /\ "XYZ" <> "discrete")%string /\
   out_value
     (toy_find_pl_montecarlo 0%nat [[1 / 2]] 0%nat toy_gens 0%nat 2000%nat
        0.35 0.25 100%nat "XYZ"%string true)
   = Ret (VList [0; 0; 1])) /\
  ((exists v, In v [1 / 2] /\ v < 1) /\
   out_value
     (toy_find_pl_montecarlo 0%nat [[1 / 2]] 0%nat toy_gens 0%nat 2000%nat
        0.35 0.25 100%nat "discrete"%string true)
   = Ret (VList [0; 0; 1])).
Proof.
  assert (Hname : ("XYZ" <> "KS" /\ "XYZ" <> "AD" /\ "XYZ" <> "discrete")
                    %string)
    by (repeat split; discriminate).
  assert (Hlow : exists v, In v [1 / 2] /\ v < 1)
    by (exists (1 / 2); split; [left; reflexivity | lra]).
  split; [reflexivity |]. split.
  - split; [exact Hname |].
    apply (proj1 (invalid_input_returns_defaults toy_nearest
                    toy_nearest_discrete toy_distance toy_distance
                    toy_distance toy_brent toy_brent unit toy_pl_gen toy_tape
                    0%nat [[1 / 2]] 0%nat toy_gens 0%nat 2000%nat 0.35 0.25
                    100%nat "XYZ"%string true [1 / 2] eq_refl)).
    exact Hname.
  - split; [exact Hlow |].
    apply (proj2 (invalid_input_returns_defaults toy_nearest
                    toy_nearest_discrete toy_distance toy_distance
                    toy_distance toy_brent toy_brent unit toy_pl_gen toy_tape
                    0%nat [[1 / 2]] 0%nat toy_gens 0%nat 2000%nat 0.35 0.25
                    100%nat "discrete"%string true [1 / 2] eq_refl)).
    split; [reflexivity | exact Hlow].
Defined.

(** * The further properties on concrete runs *)

Lemma sqrt_11_ge_1 : 1 <= sqrt (INR 11).
Proof.
  replace (INR 11) with 11 by (simpl; lra).
  rewrite <- sqrt_1 at 1. apply sqrt_le_1_alt. lra.
Qed.

Lemma toy_argument_above_knee :
  3 / 5 <= 1 * sqrt (INR 11) + 0.17 / sqrt (INR 11)
           + (1 * sqrt (INR 11) - 1) / (4 * INR 11).
Proof.
  pose proof sqrt_11_ge_1 as Hs.
  assert (H11 : INR 11 = 11) by (simpl; lra).
  assert (H1 : 0 <= 0.17 / sqrt (INR 11)).
  { apply Rmult_le_pos; [lra |]. left. apply Rinv_0_lt_compat. lra. }
  assert (H2 : 0 <= (1 * sqrt (INR 11) - 1) / (4 * INR 11)).
  { apply Rmult_le_pos; [lra |]. left. apply Rinv_0_lt_compat. lra. }
  lra.
Qed.

(** X3 on eleven points: the distance 2 gives no larger an approximate
    p-value than the distance 1. *)
Lemma approx_pq_never_grows_witness :
  (1 <= 11)%nat /\ 1 <= 2 /\
  3 / 5 <= 1 * sqrt (INR 11) + 0.17 / sqrt (INR 11)
           + (1 * sqrt (INR 11) - 1) / (4 * INR 11) /\
  approx_pq 2 11 <= approx_pq 1 11.
Proof.
  split; [lia |]. split; [lra |]. split; [exact toy_argument_above_knee |].
  apply (approx_pq_never_grows_with_distance 11 1 2);
    [lia | lra | exact toy_argument_above_knee].
Defined.

(** X4 on the small run: the one trial has 11 points. *)
Lemma recorded_sample_size_witness :
  trial_sweep toy_tape toy_cfg eleven 0 1 0%nat 1%nat 0%nat
    = Ret (toy_batch, 2%nat) /\
  (0 < 1)%nat /\
  exists xmin_idx xmax_idx,
    nth_error (attempted_ns toy_batch) 0
    = Some (INR (xmax_idx - xmin_idx + 1)) /\
    (11 <= xmax_idx - xmin_idx + 1 <= length eleven)%nat.
Proof.
  split; [apply toy_trial_sweep |]. split; [lia |].
  destruct (recorded_sample_size toy_tape toy_cfg eleven 0 1 0%nat 1%nat
              0%nat toy_batch 2%nat 0%nat (toy_trial_sweep 0 1 0 0)
              (Nat.lt_0_succ 0)) as (xi & xa & _ & _ & _ & Hn & Hb).
  exists xi, xa. split; assumption.
Defined.

(** X5 on the small run. *)
Lemma recorded_pq_range_witness :
  trial_sweep toy_tape toy_cfg eleven 0 1 0%nat 1%nat 0%nat
    = Ret (toy_batch, 2%nat) /\
  nth_error (attempted_pqs toy_batch) 0 = Some (approx_pq 1 11) /\
  0 <= approx_pq 1 11 <= 2.
Proof.
  split; [apply toy_trial_sweep |]. split; [reflexivity |].
  apply (recorded_pq_range toy_tape toy_cfg eleven 0 1 0%nat 1%nat 0%nat
           toy_batch 2%nat 0%nat (approx_pq 1 11) (toy_trial_sweep 0 1 0 0)
           eq_refl).
Defined.

(** X6 on the small run: one trial, accepted at its first draw, two
    numbers read. *)
Lemma sweep_reads_tape_witness :
  trial_sweep toy_tape toy_cfg eleven 0 1 0%nat 1%nat 0%nat
    = Ret (toy_batch, 2%nat) /\
  exists k, 2%nat = (0 + 2 * 1 + 2 * k)%nat.
Proof.
  split; [apply toy_trial_sweep |].
  apply (sweep_reads_tape_in_pairs toy_tape toy_cfg eleven 0 1 0%nat 1%nat
           0%nat toy_batch 2%nat (toy_trial_sweep 0 1 0 0)).
Defined.

(** X7 on a one-point array and one synthetic sample. *)
Lemma find_true_p_error_bar_witness :
  (1 <= 1)%nat /\
  exists p sigp g',
    find_true_p toy_nearest toy_brent unit toy_pl_gen [1] 1 2 1 toy_distance
      tt = Ret (p, sigp, g') /\
    sigp * sigp = p * (1 - p) / INR 1 /\
    sigp <= 1 / (2 * sqrt (INR 1)) /\
    (sigp = 0 <-> p = 0 \/ p = 1).
Proof.
  split; [lia |].
  exact (find_true_p_error_bar toy_nearest toy_brent unit toy_pl_gen [1] 1 2
           1%nat toy_distance tt (le_n 1)).
Defined.

(** X8 on the data of the small run and one candidate. *)
Lemma find_p_core_witness :
  (1 <= 1)%nat /\
  length [2] = length [1] /\
  exists ps,
    find_p_core toy_nearest toy_brent unit toy_pl_gen eleven [1] [2] 1
      toy_distance toy_gens = Ret ps /\
    length ps = 1%nat.
Proof.
  split; [lia |]. split; [reflexivity |].
  destruct (find_p_core_one_p_per_candidate toy_nearest toy_brent unit
              toy_pl_gen eleven [1] [2] 1%nat toy_distance toy_gens (le_n 1)
              eq_refl) as (ps & Hrun & Hlen & _).
  exists ps. split; assumption.
Defined.

(** X9 on a one-point array: [discrete] true, then [discrete] false with one
    run and with none. *)
Lemma find_p_wrap_outcomes_witness :
  heap_get [[1 / 2]] 0%nat = Ret [1 / 2] /\
  (out_value
     (find_p_wrap toy_nearest toy_distance toy_brent unit toy_pl_gen
        [[1 / 2]] tt 0%nat 1 2 1%nat true) = Ret (VInt (-1)) /\
   out_printed
     (find_p_wrap toy_nearest toy_distance toy_brent unit toy_pl_gen
        [[1 / 2]] tt 0%nat 1 2 1%nat true) = [msg_wrap]) /\
  ((1 <= 1)%nat /\
   exists p sigp,
     out_value
       (find_p_wrap toy_nearest toy_distance toy_brent unit toy_pl_gen
          [[1 / 2]] tt 0%nat 1 2 1%nat false) = Ret (VTuple [p; sigp]) /\
     0 <= p <= 1 /\
     out_heap
       (find_p_wrap toy_nearest toy_distance toy_brent unit toy_pl_gen
          [[1 / 2]] tt 0%nat 1 2 1%nat false)
     = [[1 / 2]] ++ [np_sort [1 / 2]]) /\
  (0%nat = 0%nat /\
   out_value
     (find_p_wrap toy_nearest toy_distance toy_brent unit toy_pl_gen
        [[1 / 2]] tt 0%nat 1 2 0%nat false) = Raise ZeroDivisionError).
Proof.
  destruct (find_p_wrap_outcomes toy_nearest toy_distance toy_brent unit
              toy_pl_gen [[1 / 2]] tt 0%nat 1 2 1%nat [1 / 2] eq_refl)
    as ((Hv & Hp & _) & Hone & _).
  destruct (find_p_wrap_outcomes toy_nearest toy_distance toy_brent unit
              toy_pl_gen [[1 / 2]] tt 0%nat 1 2 0%nat [1 / 2] eq_refl)
    as (_ & _ & Hzero).
  split; [reflexivity |]. split; [split; assumption |]. split.
  - split; [lia |].
    destruct (Hone (le_n 1)) as (p & sigp & g' & _ & Hret & Hrange & _ & Hh).
    exists p, sigp. split; [exact Hret |]. split; assumption.
  - split; [reflexivity |]. apply Hzero. reflexivity.
Defined.

(** X10 on the arrays [[2, 1]] and [[1, 2]]. *)
Lemma find_p_wrap_order_witness :
  heap_get [[2; 1]] 0%nat = Ret [2; 1] /\
  heap_get [[1; 2]] 0%nat = Ret [1; 2] /\
  Permutation [2; 1] [1; 2] /\
  out_value
    (find_p_wrap toy_nearest toy_distance toy_brent unit toy_pl_gen
       [[2; 1]] tt 0%nat 1 2 1%nat false)
  = out_value
      (find_p_wrap toy_nearest toy_distance toy_brent unit toy_pl_gen
         [[1; 2]] tt 0%nat 1 2 1%nat false).
Proof.
  split; [reflexivity |]. split; [reflexivity |].
  split; [apply perm_swap |].
  apply (find_p_wrap_ignores_order toy_nearest toy_distance toy_brent unit
           toy_pl_gen [[2; 1]] [[1; 2]] tt 0%nat 0%nat 1 2 1%nat false
           [2; 1] [1; 2] eq_refl eq_refl (perm_swap 1 2 [])).
Defined.

(** X11 on the arrays [[2, 1]] and [[1, 2]]. *)
Lemma find_pl_montecarlo_order_witness :
  heap_get [[2; 1]] 0%nat = Ret [2; 1] /\
  heap_get [[1; 2]] 0%nat = Ret [1; 2] /\
  Permutation [2; 1] [1; 2] /\
  out_value
    (toy_find_pl_montecarlo 5%nat [[2; 1]] 0%nat toy_gens 0%nat 1%nat 0.35
       0.25 1%nat "KS"%string true)
  = out_value
      (toy_find_pl_montecarlo 5%nat [[1; 2]] 0%nat toy_gens 0%nat 1%nat 0.35
         0.25 1%nat "KS"%string true).
Proof.
  split; [reflexivity |]. split; [reflexivity |].
  split; [apply perm_swap |].
  apply (find_pl_montecarlo_ignores_order toy_nearest toy_nearest_discrete
           toy_distance toy_distance toy_distance toy_brent toy_brent unit
           toy_pl_gen toy_tape 5%nat [[2; 1]] [[1; 2]] 0%nat toy_gens 0%nat
           0%nat 1%nat 0.35 0.25 1%nat "KS"%string true [2; 1] [1; 2]
           eq_refl eq_refl (perm_swap 1 2 [])).
Defined.

(** X12 on the empty array. *)
Lemma empty_data_witness :
  heap_get [[]] 0%nat = Ret [] /\
  ("KS" = "KS" \/ "KS" = "AD" \/ "KS" = "discrete")%string /\
  out_value
    (toy_find_pl_montecarlo 0%nat [[]] 0%nat toy_gens 0%nat 2000%nat 0.35
       0.25 100%nat "KS"%string true) = Raise IndexError /\
  out_printed
    (toy_find_pl_montecarlo 0%nat [[]] 0%nat toy_gens 0%nat 2000%nat 0.35
       0.25 100%nat "KS"%string true) = [].
Proof.
  split; [reflexivity |]. split; [left; reflexivity |].
  apply (empty_data_raises_index_error toy_nearest toy_nearest_discrete
           toy_distance toy_distance toy_distance toy_brent toy_brent unit
           toy_pl_gen toy_tape 0%nat [[]] 0%nat toy_gens 0%nat 2000%nat 0.35
           0.25 100%nat "KS"%string true eq_refl (or_introl eq_refl)).
Defined.

(** X13 on a one-point array. *)
Lemma zero_runs_witness :
  heap_get [[1]] 0%nat = Ret [1] /\
  [1] <> [] /\
  ("KS" = "KS" \/ "KS" = "AD" \/ "KS" = "discrete")%string /\
  out_value
    (toy_find_pl_montecarlo 0%nat [[1]] 0%nat toy_gens 0%nat 0%nat 0.35
       0.25 100%nat "KS"%string true) = Raise ValueError.
Proof.
  assert (Hne : [1] <> []) by discriminate.
  split; [reflexivity |]. split; [exact Hne |]. split; [left; reflexivity |].
  apply (zero_runs_raises_value_error toy_nearest toy_nearest_discrete
           toy_distance toy_distance toy_distance toy_brent toy_brent unit
           toy_pl_gen toy_tape 0%nat [[1]] 0%nat toy_gens 0%nat 0.35 0.25
           100%nat "KS"%string true [1] eq_refl Hne (or_introl eq_refl)).
  discriminate.
Defined.

(** X16 on the small run, with [calc_p] true and one synthetic sample. *)
Lemma finished_sweep_witness :
  toy_sweeps_to 0%nat [eleven] 0%nat 0%nat 1%nat "discrete"%string toy_cfg
    eleven toy_batch /\
  (1 <= 1)%nat /\
  exists xmin_idx xmax_idx xmin xmax,
    nth_error eleven xmin_idx = Some xmin /\
    nth_error eleven xmax_idx = Some xmax /\
    (Z.of_nat xmax_idx - Z.of_nat xmin_idx >= 10)%Z /\
    xmax >= 2 * xmin /\
    out_value
      (toy_find_pl_montecarlo 0%nat [eleven] 0%nat toy_gens 0%nat 1%nat 0
         (1 / 4) 1%nat "discrete"%string true)
    = Ret (VTuple [xmin; xmax;
                   brent toy_cfg (slice eleven xmin_idx (xmax_idx + 1))]).
Proof.
  split; [apply toy_reaches_choice |]. split; [lia |].
  exact (finished_sweep_returns_a_trial toy_nearest toy_nearest_discrete
           toy_distance toy_distance toy_distance toy_brent toy_brent unit
           toy_pl_gen toy_tape 0%nat [eleven] 0%nat toy_gens 0%nat 1%nat 0
           (1 / 4) 1%nat "discrete"%string true toy_cfg eleven toy_batch
           (toy_reaches_choice 0 0) (le_n 1) (fun _ => le_n 1)).
Defined.

Lemma toy_call_returns :
  out_value
    (toy_find_pl_montecarlo 0%nat [eleven] 0%nat toy_gens 0%nat 1%nat 0
       (1 / 4) 1%nat "discrete"%string false)
  = Ret (VTuple [1; 2; 2]).
Proof.
  rewrite (find_pl_montecarlo_select toy_nearest toy_nearest_discrete
             toy_distance toy_distance toy_distance toy_brent toy_brent
             unit toy_pl_gen toy_tape 0%nat [eleven] 0%nat toy_gens 0%nat
             1%nat 0 (1 / 4) 1%nat "discrete"%string false toy_cfg eleven
             toy_batch (toy_reaches_choice 0 0)).
  pose proof (sweeps_to_batch _ _ _ _ _ _ _ _ _ _ _ _ _ _ _ _ _
                (toy_reaches_choice 0 0)) as Hbatch.
  destruct (select_picks_a_trial toy_nearest toy_brent unit toy_pl_gen
              toy_cfg eleven toy_batch 1%nat 0 (final_pcrit 0 (1 / 4) false)
              1%nat false toy_gens (proj1 Hbatch) (le_n 1))
    as (i & Hi & Hsel).
  - intros _. exists [approx_pq 1 11]. apply toy_true_ps_no_calc.
  - rewrite Hsel. assert (i = 0%nat) as -> by lia. reflexivity.
Qed.

(** X17 on the small run, where the call returns the tuple of its one
    trial and prints nothing. *)
Lemma returned_value_witness :
  out_value
    (toy_find_pl_montecarlo 0%nat [eleven] 0%nat toy_gens 0%nat 1%nat 0
       (1 / 4) 1%nat "discrete"%string false)
  = Ret (VTuple [1; 2; 2]) /\
  ((VTuple [1; 2; 2] = VList [0; 0; 1] /\
    (out_printed
       (toy_find_pl_montecarlo 0%nat [eleven] 0%nat toy_gens 0%nat 1%nat 0
          (1 / 4) 1%nat "discrete"%string false) = [msg_dist_type] \/
     out_printed
       (toy_find_pl_montecarlo 0%nat [eleven] 0%nat toy_gens 0%nat 1%nat 0
          (1 / 4) 1%nat "discrete"%string false) = [msg_discrete]))
   \/
   (out_printed
      (toy_find_pl_montecarlo 0%nat [eleven] 0%nat toy_gens 0%nat 1%nat 0
         (1 / 4) 1%nat "discrete"%string false) = [] /\
    exists raw cfg xmin_idx xmax_idx xmin xmax,
      heap_get [eleven] 0%nat = Ret raw /\
      configure toy_nearest toy_nearest_discrete toy_distance toy_distance
        toy_distance toy_brent toy_brent "discrete" = Some cfg /\
      nth_error (np_sort raw) xmin_idx = Some xmin /\
      nth_error (np_sort raw) xmax_idx = Some xmax /\
      (Z.of_nat xmax_idx - Z.of_nat xmin_idx >= 10)%Z /\
      xmax >= 2 * xmin /\
      VTuple [1; 2; 2]
      = VTuple [xmin; xmax;
                brent cfg (slice (np_sort raw) xmin_idx (xmax_idx + 1))])).
Proof.
  split; [exact toy_call_returns |].
  exact (returned_value_is_defaults_or_a_trial toy_nearest
           toy_nearest_discrete toy_distance toy_distance toy_distance
           toy_brent toy_brent unit toy_pl_gen toy_tape 0%nat [eleven] 0%nat
           toy_gens 0%nat 1%nat 0 (1 / 4) 1%nat "discrete"%string false
           (VTuple [1; 2; 2]) toy_call_returns).
Defined.
